(** * News Pulse: RSS fetch, cache and enrichment services

    A shallow embedding of the RSS service (the module of the sources
    that defines [generateId], [fetchGalleryPosts] and
    [fetchNewsForCategory]: identifier generator, tiered cache reader,
    relay fan-out, feed item mapping, deduplicator, cache writer and
    stale fallback) and of [services/geminiService.ts] (article and audio
    enrichment with their in-process and remote caches), with the
    properties the specification states about them, followed by further
    properties of the same code and of [addGalleryPost]. The React entry
    point and the build configuration hold no logic of the services and
    are left out.

    Conventions.
    - A JavaScript string is modelled as a Rocq [string] whose characters
      are UTF-16 code units below 256; the lemmas about the hash are
      proved over arbitrary lists of code units. The text handed to
      [generateNewsAudio] is a list of 16-bit code units ([Utf16]): the
      key computation that opens the function throws on an unpaired
      surrogate.
    - A JavaScript number holding an integer is a [Z]; the 32-bit
      operators are written out with their wrap-around.
    - An [async] function is modelled by its result together with the
      calls it makes to the outside, in program order. The browser, the
      remote table client, the relays and the generative service are
      oracles collected in records.
    - The module-level [Map]s of the enrichment service are a session
      state passed in and out of every call. *)

From Stdlib Require Import ZArith Lia Ascii String.
From stdpp Require Import base option list strings gmap pretty.

Set Warnings "-clear-no-such-hyp".
Local Open Scope Z_scope.

(** ** JavaScript primitives *)

Module JS.

(** [str.charCodeAt(i)] for every index, in order. *)
Definition charCode (c : ascii) : Z := Z.of_N (N_of_ascii c).

Definition charCodes (str : string) : list Z :=
  map charCode (list_ascii_of_string str).

(** ECMAScript [ToInt32]: reduce modulo 2^32, then read as signed. *)
Definition ToInt32 (z : Z) : Z :=
  let int32bit := z mod 2 ^ 32 in
  if 2 ^ 31 <=? int32bit then int32bit - 2 ^ 32 else int32bit.

(** [a << n] on numbers. *)
Definition shl (a n : Z) : Z := ToInt32 (Z.shiftl (ToInt32 a) (n mod 32)).

(** [a | b] on numbers. *)
Definition bor (a b : Z) : Z := Z.lor (ToInt32 a) (ToInt32 b).

(** One digit of [Number.prototype.toString(36)]. *)
Definition digit36 (d : Z) : ascii :=
  ascii_of_N (Z.to_N (if d <? 10 then 48 + d else 87 + d)).

Fixpoint toString36_go (fuel : nat) (n : Z) (acc : string) : string :=
  match fuel with
  | O => acc
  | S fuel' =>
      let acc' := String (digit36 (n mod 36)) acc in
      if n / 36 =? 0 then acc' else toString36_go fuel' (n / 36) acc'
  end.

(** [n.toString(36)] for an integer [n >= 0]; a number below [2^k] has at
    most [k] digits, so the fuel is never exhausted (see
    [parse36_toString36]). *)
Definition toString36 (n : Z) : string :=
  toString36_go (S (Z.to_nat (Z.log2 n))) n EmptyString.

(** Inverse direction, used to state that [toString36] loses nothing. *)
Definition digitValue36 (c : ascii) : Z :=
  let k := charCode c in if k <? 58 then k - 48 else k - 87.

Definition parse36 (s : string) : Z :=
  fold_left (fun v c => v * 36 + digitValue36 c) (list_ascii_of_string s) 0.

(** *** Strings *)

Definition ofCode (k : Z) : ascii := ascii_of_N (Z.to_N k).

Definition inRange (lo hi : Z) (c : ascii) : bool :=
  (lo <=? charCode c) && (charCode c <=? hi).

(** [\s] of a regular expression and the characters [trim] removes, among
    the code units below 256: TAB, LF, VT, FF, CR, SPACE, NBSP. *)
Definition isWhiteSpace (c : ascii) : bool :=
  inRange 9 13 c || (charCode c =? 32) || (charCode c =? 160).

Fixpoint trimStart (s : string) : string :=
  match s with
  | EmptyString => EmptyString
  | String c s' => if isWhiteSpace c then trimStart s' else s
  end.

Fixpoint trimEnd (s : string) : string :=
  match s with
  | EmptyString => EmptyString
  | String c s' =>
      match trimEnd s' with
      | EmptyString => if isWhiteSpace c then EmptyString else String c EmptyString
      | r => String c r
      end
  end.

Definition trim (s : string) : string := trimEnd (trimStart s).

(** [s.slice(0, n)] and [s.substring(0, n)] for [n >= 0]. *)
Definition slice0 (n : nat) (s : string) : string := substring 0 n s.

Definition mapString (f : ascii -> ascii) (s : string) : string :=
  string_of_list_ascii (map f (list_ascii_of_string s)).

Definition filterString (p : ascii -> bool) (s : string) : string :=
  string_of_list_ascii (List.filter p (list_ascii_of_string s)).

(** [toLowerCase] on code units below 256: A-Z and the Latin-1 capitals
    (0xC0-0xDE except the multiplication sign) move up by 32. *)
Definition lowerChar (c : ascii) : ascii :=
  if inRange 65 90 c || (inRange 192 222 c && negb (charCode c =? 215))
  then ofCode (charCode c + 32) else c.

Definition toLowerCase (s : string) : string := mapString lowerChar s.

(** [toUpperCase] on ASCII text (host names are ASCII). *)
Definition upperChar (c : ascii) : ascii :=
  if inRange 97 122 c then ofCode (charCode c - 32) else c.

Definition toUpperCase (s : string) : string := mapString upperChar s.

(** A string is falsy exactly when it is empty. *)
Definition truthy (s : string) : bool :=
  match s with EmptyString => false | _ => true end.

(** [x || d] where [x] is a string or [undefined]/[null]. *)
Definition orDefault (x : option string) (d : string) : string :=
  match x with
  | Some s => if truthy s then s else d
  | None => d
  end.

Fixpoint startsWith (p s : string) : bool :=
  match p, s with
  | EmptyString, _ => true
  | String a p', String b s' => if decide (a = b) then startsWith p' s' else false
  | String _ _, EmptyString => false
  end.

Fixpoint dropString (n : nat) (s : string) : string :=
  match n, s with
  | O, _ => s
  | S n', String _ s' => dropString n' s'
  | S _, EmptyString => EmptyString
  end.

(** [s.replace(p, '')] with a string pattern: the first occurrence only. *)
Fixpoint removeFirst (p s : string) : string :=
  if startsWith p s then dropString (String.length p) s
  else match s with
       | EmptyString => EmptyString
       | String c s' => String c (removeFirst p s')
       end.

(** [s.split(sep)[0]] for a one-character separator. *)
Fixpoint firstSegment (sep : ascii) (s : string) : string :=
  match s with
  | EmptyString => EmptyString
  | String c s' => if decide (c = sep) then EmptyString else String c (firstSegment sep s')
  end.

(** *** URI and base64 encoding *)

Definition hexDigit (d : Z) : ascii :=
  ofCode (if d <? 10 then 48 + d else 55 + d).

Definition isHexDigit (c : ascii) : bool :=
  inRange 48 57 c || inRange 65 70 c || inRange 97 102 c.

Definition hexValue (c : ascii) : Z :=
  let k := charCode c in
  if k <=? 57 then k - 48 else if k <=? 70 then k - 55 else k - 87.

(** UTF-8 bytes of one code unit below 256. *)
Definition utf8Char (c : ascii) : list Z :=
  let k := charCode c in
  if k <? 128 then [k] else [192 + k / 64; 128 + k mod 64].

Definition utf8 (s : string) : list Z :=
  flat_map utf8Char (list_ascii_of_string s).

(** The characters [encodeURIComponent] leaves alone:
    [A-Z a-z 0-9 - _ . ! ~ * ' ( )]. *)
Definition uriUnreserved (c : ascii) : bool :=
  inRange 65 90 c || inRange 97 122 c || inRange 48 57 c ||
  existsb (fun k => charCode c =? k) [45; 95; 46; 33; 126; 42; 39; 40; 41].

Definition percentByte (b : Z) : string :=
  String "%" (String (hexDigit (b / 16)) (String (hexDigit (b mod 16)) EmptyString)).

Definition encodeURIChar (c : ascii) : string :=
  if uriUnreserved c then String c EmptyString
  else String.concat EmptyString (map percentByte (utf8Char c)).

Fixpoint encodeURIComponent (s : string) : string :=
  match s with
  | EmptyString => EmptyString
  | String c s' => encodeURIChar c +:+ encodeURIComponent s'
  end.

(** [unescape]: [%uXXXX] and [%XX] become the code unit they name. The
    result is [None] when a [%uXXXX] names a code unit above 255, which
    is outside the string model (and on which [btoa] throws). *)
Fixpoint unescape (s : string) : option string :=
  match s with
  | EmptyString => Some EmptyString
  | String c t =>
      let literal (_ : unit) := String c <$> unescape t in
      if decide (c = "%"%char) then
        match t with
        | String "u" (String h1 (String h2 (String h3 (String h4 rest)))) =>
            if isHexDigit h1 && isHexDigit h2 && isHexDigit h3 && isHexDigit h4 then
              let v := ((hexValue h1 * 16 + hexValue h2) * 16 + hexValue h3) * 16 + hexValue h4 in
              if v <? 256 then String (ofCode v) <$> unescape rest else None
            else literal tt
        | String h1 (String h2 rest) =>
            if isHexDigit h1 && isHexDigit h2
            then String (ofCode (hexValue h1 * 16 + hexValue h2)) <$> unescape rest
            else literal tt
        | _ => literal tt
        end
      else literal tt
  end.

Definition base64Digit (n : Z) : ascii :=
  ofCode (if n <? 26 then 65 + n
          else if n <? 52 then 71 + n
          else if n <? 62 then n - 4
          else if n =? 62 then 43 else 47).

(** Base64 of a list of bytes, with [=] padding. *)
Fixpoint base64 (l : list Z) : string :=
  match l with
  | [] => EmptyString
  | [a] =>
      String (base64Digit (a / 4)) (String (base64Digit (a mod 4 * 16)) "==")
  | [a; b] =>
      String (base64Digit (a / 4))
        (String (base64Digit (a mod 4 * 16 + b / 16))
           (String (base64Digit (b mod 16 * 4)) "="))
  | a :: b :: c :: rest =>
      String (base64Digit (a / 4))
        (String (base64Digit (a mod 4 * 16 + b / 16))
           (String (base64Digit (b mod 16 * 4 + c / 64))
              (String (base64Digit (c mod 64)) (base64 rest))))
  end.

(** [btoa] of a binary string (every code unit is a byte in this model). *)
Definition btoa (s : string) : string := base64 (charCodes s).

(** The binary string whose code units are the given bytes. *)
Definition binaryString (bytes : list Z) : string :=
  string_of_list_ascii (map ofCode bytes).

Definition isByte (b : Z) : Prop := 0 <= b < 256.

(** The value of a base64 digit, used to state that [base64] loses
    nothing. *)
Definition base64Value (c : ascii) : Z :=
  let k := charCode c in
  if k =? 43 then 62 else if k =? 47 then 63
  else if k <? 58 then k + 4 else if k <? 91 then k - 65 else k - 71.

End JS.

(** ** JavaScript strings over all code units

    The text handed to [generateNewsAudio] is an arbitrary string, and
    the first statement of the function throws when the part of it that
    is encoded holds an unpaired surrogate, which no string of code
    units below 256 does. Such a text is therefore a list of 16-bit code
    units, each given by its two bytes. *)
Module Utf16.

Record CodeUnit := { high : ascii; low : ascii }.

#[global] Instance CodeUnit_eq_dec : EqDecision CodeUnit.
Proof. solve_decision. Defined.

(** [str.charCodeAt(i)] *)
Definition code (u : CodeUnit) : Z :=
  256 * JS.charCode (high u) + JS.charCode (low u).

(** [String.fromCharCode(k)] for [0 <= k < 65536]. *)
Definition ofCode (k : Z) : CodeUnit :=
  {| high := JS.ofCode (k / 256); low := JS.ofCode (k mod 256) |}.

(** The code unit of a character below 256. *)
Definition latin1 (c : ascii) : CodeUnit := {| high := Ascii.zero; low := c |}.

(** A string of code units below 256, such as a literal of the source. *)
Definition ofString (s : string) : list CodeUnit :=
  map latin1 (list_ascii_of_string s).

(** [\s] of a regular expression and the characters [trim] removes: the
    WhiteSpace and LineTerminator code points of ECMAScript. *)
Definition isWhiteSpace (u : CodeUnit) : bool :=
  let k := code u in
  ((9 <=? k) && (k <=? 13)) || (k =? 32) || (k =? 160) || (k =? 5760) ||
  ((8192 <=? k) && (k <=? 8202)) || (k =? 8232) || (k =? 8233) || (k =? 8239) ||
  (k =? 8287) || (k =? 12288) || (k =? 65279).

Fixpoint trimStart (s : list CodeUnit) : list CodeUnit :=
  match s with
  | [] => []
  | u :: s' => if isWhiteSpace u then trimStart s' else s
  end.

Fixpoint trimEnd (s : list CodeUnit) : list CodeUnit :=
  match s with
  | [] => []
  | u :: s' =>
      match trimEnd s' with
      | [] => if isWhiteSpace u then [] else [u]
      | r => u :: r
      end
  end.

Definition trim (s : list CodeUnit) : list CodeUnit := trimEnd (trimStart s).

(** [s.slice(0, n)] for [n >= 0]: code units, whatever they pair with. *)
Definition slice0 (n : nat) (s : list CodeUnit) : list CodeUnit := take n s.

(** A string is falsy exactly when it is empty. *)
Definition truthy (s : list CodeUnit) : bool :=
  match s with [] => false | _ => true end.

Fixpoint startsWith (p s : list CodeUnit) : bool :=
  match p, s with
  | [], _ => true
  | a :: p', b :: s' => if decide (a = b) then startsWith p' s' else false
  | _ :: _, [] => false
  end.

(** *** Encoding *)

(** The leading half of a surrogate pair: 0xD800-0xDBFF. *)
Definition isHighSurrogate (u : CodeUnit) : bool :=
  (55296 <=? code u) && (code u <=? 56319).

(** The trailing half of a surrogate pair: 0xDC00-0xDFFF. *)
Definition isLowSurrogate (u : CodeUnit) : bool :=
  (56320 <=? code u) && (code u <=? 57343).

(** The code point of a surrogate pair. *)
Definition pairCodePoint (lead trail : CodeUnit) : Z :=
  65536 + (code lead - 55296) * 1024 + (code trail - 56320).

(** The code points of a string, read as [encodeURIComponent] reads
    them; [None] when a surrogate is not paired. *)
Fixpoint codePoints (s : list CodeUnit) : option (list Z) :=
  match s with
  | [] => Some []
  | u :: rest =>
      if isHighSurrogate u then
        match rest with
        | trail :: rest' =>
            if isLowSurrogate trail
            then cons (pairCodePoint u trail) <$> codePoints rest'
            else None
        | [] => None
        end
      else if isLowSurrogate u then None
      else cons (code u) <$> codePoints rest
  end.

(** The UTF-8 octets of a code point. *)
Definition utf8CodePoint (k : Z) : list Z :=
  if k <? 128 then [k]
  else if k <? 2048 then [192 + k / 64; 128 + k mod 64]
  else if k <? 65536 then [224 + k / 4096; 128 + k / 64 mod 64; 128 + k mod 64]
  else [240 + k / 262144; 128 + k / 4096 mod 64; 128 + k / 64 mod 64; 128 + k mod 64].

Definition utf8 (cps : list Z) : list Z := flat_map utf8CodePoint cps.

(** What [encodeURIComponent] writes for one code point: the character
    itself when it is unreserved, its octets as [%XX] otherwise. *)
Definition escapeCodePoint (k : Z) : string :=
  if (k <? 128) && JS.uriUnreserved (JS.ofCode k)
  then String (JS.ofCode k) EmptyString
  else String.concat EmptyString (map JS.percentByte (utf8CodePoint k)).

(** [encodeURIComponent(s)]; [None] is the [URIError] it throws on an
    unpaired surrogate. *)
Definition encodeURIComponent (s : list CodeUnit) : option string :=
  (fun cps => String.concat EmptyString (map escapeCodePoint cps)) <$> codePoints s.

End Utf16.

(** ** rssService: identifier generator *)

Definition CACHE_PREFIX : string := "news_pulse_cache_".
Definition CACHE_DURATION : Z := 5 * 60 * 1000.

(** Body of the [for] loop of [generateId]: [char] is [str.charCodeAt(i)]. *)
Definition generateId_step (hash char : Z) : Z :=
  let hash := JS.shl hash 5 - hash + char in
  JS.bor hash 0.

Definition generateId_hash (codes : list Z) : Z :=
  fold_left generateId_step codes 0.

Definition generateId (str : string) : string :=
  let hash := generateId_hash (JS.charCodes str) in
  "rss_" +:+ JS.toString36 (Z.abs hash).

(** ** rssService: data model *)

(** The [Category] enum is declared in [../types], which is not among the
    sources. The service names two of its members and treats every other
    member alike, so the remaining members are [Feed name]. *)
Inductive Category :=
  | AZAD_STUDIO
  | GALLERY
  | Feed (name : string).

#[global] Instance Category_eq_dec : EqDecision Category.
Proof. solve_decision. Defined.

Record Article := {
  id : string;
  title : string;
  source : string;
  timestamp : string;
  description : string;
  category : Category;
  url : string;
  imageUrl : option string;
  descriptionRomanUrdu : option string;
}.

(** The result of an awaited remote-table call: the call throws, or it
    resolves to [{ data, error }]. *)
Inductive Query (A : Type) :=
  | Rejected
  | Resolved (data : option A) (error : option string).
Arguments Rejected {A}.
Arguments Resolved {A} data error.

(** A row of [telegram_posts] or [gallery_posts]. *)
Record Post := {
  post_id : string;
  post_title : option string;
  post_message : option string;
  post_description : option string;
  post_created_at : option string;
  post_media_url : option string;
}.

(** A row of [rss_feed_cache]: [articles] is the array the cache writer
    upserts, or null, and [new Date(updated_at).getTime()] is [None]
    when it is NaN. *)
Record RssRow := {
  row_articles : option (list Article);
  row_updated_at : option Z;
}.

(** What the [articles] field of a parsed entry holds, as far as the
    service looks at it: an array (of articles: the service passes the
    elements on unread); [undefined] (the field is missing) or [null],
    on which reading [.length] throws; or any other value (a string, a
    number, an object), given by its JSON text, of which only
    [length > 0] is looked at. *)
Inductive Stored :=
  | Batch (articles : list Article)
  | Nullish
  | NotArray (json : string) (lengthPositive : bool).

(** What [localStorage.getItem] and [JSON.parse] give for a key ([None]
    below: no text, or the empty text): a text on which the [try] block
    throws ([JSON.parse] fails, or it yields [null], whose [timestamp]
    cannot be read), or a value with its [timestamp] and [articles]
    fields as the code reads them. [timestamp] is [None] when
    [Date.now() - parsed.timestamp] is NaN (the field is missing, for
    one), and the number subtracted otherwise (rounded up when it is not
    an integer: the comparison of integers with it cannot tell). The
    cache writer stores [CacheEntry (Some timestamp) (Batch articles)]. *)
Inductive StoredItem :=
  | Unreadable
  | CacheEntry (timestamp : option Z) (articles : Stored).

(** How a call of [fetchNewsForCategory] ends: the promise resolves to a
    value, or it is rejected with the [TypeError] of reading [.length]
    of a nullish value. *)
Inductive Outcome :=
  | Returns (value : Stored)
  | ThrowsTypeError.

(** The [type] field of a relay: ['json'] or ['text']. *)
Inductive ProxyType := type_json | type_text.

Record Proxy := { proxy_url : string; proxy_type : ProxyType }.

(** [await response.json()] followed by [data.contents]. *)
Inductive JsonBody :=
  | JsonThrows
  | JsonContents (contents : option string).

Record Response := {
  ok : bool;
  status : Z;
  response_json : JsonBody;
  response_text : option string;   (* [None]: [response.text()] rejects *)
}.

(** [await fetch(url, { signal })]: rejected (network error, or aborted by
    the timer) or resolved to a response. *)
Inductive FetchResult :=
  | FetchRejected
  | FetchResolved (response : Response).

(** An [<item>] element as the mapping reads it: the [textContent] of its
    first [title], [link], [pubDate] and [description] children, and the
    [url] attribute of its first [media:content] child. *)
Record Item := {
  item_title : option string;
  item_link : option string;
  item_pubDate : option string;
  item_description : option string;
  item_media_content : option (option string);
}.

Record XmlDoc := {
  parsererror : bool;          (* [xmlDoc.querySelector("parsererror")] *)
  items : list Item;           (* [xmlDoc.querySelectorAll("item")] *)
}.

Inductive ClockSite := AtRemoteCheck | AtLocalCheck | AtLocalWrite | AtRemoteWrite.

(** Everything the service reads from outside itself: the imports that
    are not among the sources ([RSS_FEEDS], the enum's string values,
    [isSupabaseConfigured]), the remote tables, the local store, the
    clock, the relays and the browser's parsers. *)
Record Env := {
  Category_value : Category -> string;
  RSS_FEEDS : Category -> option (list string);
  isSupabaseConfigured : bool;
  telegram_posts : Query (list Post);
  gallery_posts : Query (list Post);
  rss_feed_cache : Category -> Query RssRow;
  localStorage_getItem : string -> option StoredItem;
  localStorage_setItem : string -> bool;       (* [false]: the write throws *)
  Date_now : ClockSite -> Z;
  fetch : string -> FetchResult;
  DOMParser_parseFromString : string -> XmlDoc;
  URL_hostname : string -> option string;      (* [None]: [new URL] throws *)
  innerHTML_textContent : string -> string;    (* text of a div with this innerHTML *)
  match_img_src : string -> option string;     (* group 1 of the img pattern *)
  toLocaleDateString : string -> string;
  toLocaleTimeString : string -> string;
}.

(** The calls that reach outside, in the order the code makes them. The
    requests of one feed are in program order; feeds run concurrently, and
    the trace lists them feed by feed. *)
Inductive Event :=
  | EvSelect (table : string) (key : string)
  | EvGetItem (key : string)
  | EvFetch (url : string) (abort_after_ms : Z)
  | EvSetItem (key : string) (timestamp : Z) (articles : list Article)
  | EvUpsert (table : string) (c : Category) (articles : list Article) (updated_at : Z).

Definition Trace := list Event.

Definition isFetch (e : Event) : bool :=
  match e with EvFetch _ _ => true | _ => false end.

(** ** rssService: special categories *)

Definition galleryArticle (env : Env) (post : Post) : Article :=
  {| id := "gal_" +:+ post_id post;
     title := JS.orDefault (post_title post) "Gallery Post";
     source := "Azad Gallery";
     timestamp := toLocaleDateString env (default EmptyString (post_created_at post));
     description := JS.orDefault (post_description post) EmptyString;
     category := GALLERY;
     url := "#";
     imageUrl := post_media_url post;
     descriptionRomanUrdu := post_description post |}.

Definition fetchGalleryPosts (env : Env) : list Article * Trace :=
  if isSupabaseConfigured env then
    let ev := [EvSelect "gallery_posts" EmptyString] in
    match gallery_posts env with
    | Resolved (Some data) None => (map (galleryArticle env) data, ev)
    | _ => ([], ev)
    end
  else ([], []).

Definition telegramArticle (env : Env) (post : Post) : Article :=
  let rawMsg := JS.orDefault (post_message post) EmptyString in
  let titleLine := JS.firstSegment "010" rawMsg in
  let title :=
    if (60 <? String.length titleLine)%nat
    then JS.slice0 60 titleLine +:+ "..."
    else JS.orDefault (Some titleLine) "Azad Studio Update" in
  {| id := "tg_" +:+ post_id post;
     title := title;
     source := "Azad Studio Live";
     timestamp :=
       match post_created_at post with
       | Some created_at =>
           if JS.truthy created_at
           then toLocaleDateString env created_at +:+ " " +:+ toLocaleTimeString env created_at
           else "Just Now"
       | None => "Just Now"
       end;
     description := rawMsg;
     category := AZAD_STUDIO;
     url := "#";
     imageUrl := post_media_url post;
     descriptionRomanUrdu := Some rawMsg |}.

Definition fetchAzadStudio (env : Env) : list Article * Trace :=
  if negb (isSupabaseConfigured env) then ([], [])
  else
    let ev := [EvSelect "telegram_posts" EmptyString] in
    match telegram_posts env with
    | Rejected => ([], ev)
    | Resolved _ (Some _) => ([], ev)
    | Resolved (Some ((_ :: _) as data)) None => (map (telegramArticle env) data, ev)
    | Resolved _ None => ([], ev)
    end.

(** ** rssService: tiered cache reader *)

(** What one cache tier contributes: an early return of a fresh value, or
    the value left in the tier's stale variable (initially []). The
    remote tier only ever keeps a non-empty array; the local tier keeps
    whatever the entry holds. *)
Inductive Probe (A : Type) :=
  | Fresh (value : A)
  | Stale (value : A).
Arguments Fresh {A} value.
Arguments Stale {A} value.

(** 1. Supabase RSS cache. *)
Definition probeSupabase (env : Env) (c : Category) : Probe (list Article) * Trace :=
  if isSupabaseConfigured env then
    let ev := [EvSelect "rss_feed_cache" (Category_value env c)] in
    match rss_feed_cache env c with
    | Resolved (Some data) None =>
        match row_articles data with
        | Some ((_ :: _) as articles) =>
            let isFresh :=
              match row_updated_at data with
              | Some lastUpdate => Date_now env AtRemoteCheck - lastUpdate <? CACHE_DURATION
              | None => false
              end in
            if isFresh then (Fresh articles, ev) else (Stale articles, ev)
        | _ => (Stale [], ev)
        end
    | _ => (Stale [], ev)
    end
  else (Stale [], []).

Definition cacheKey (env : Env) (c : Category) : string :=
  CACHE_PREFIX +:+ Category_value env c.

(** 2. Local storage cache. *)
Definition probeLocal (env : Env) (c : Category) : Probe Stored * Trace :=
  let ev := [EvGetItem (cacheKey env c)] in
  match localStorage_getItem env (cacheKey env c) with
  | Some (CacheEntry timestamp articles) =>
      let isFresh :=
        match timestamp with
        | Some timestamp => Date_now env AtLocalCheck - timestamp <? CACHE_DURATION
        | None => false
        end in
      if isFresh then (Fresh articles, ev) else (Stale articles, ev)
  | Some Unreadable => (Stale (Batch []), ev)
  | None => (Stale (Batch []), ev)
  end.

(** ** rssService: relay fan-out and feed item mapping *)

Definition proxies (url : string) : list Proxy :=
  [ {| proxy_url := "https://api.allorigins.win/get?url=" +:+ JS.encodeURIComponent url;
       proxy_type := type_json |};
    {| proxy_url := "https://api.codetabs.com/v1/proxy?quest=" +:+ JS.encodeURIComponent url;
       proxy_type := type_text |};
    {| proxy_url := "https://corsproxy.io/?" +:+ JS.encodeURIComponent url;
       proxy_type := type_text |};
    {| proxy_url := "https://thingproxy.freeboard.io/fetch/" +:+ url;
       proxy_type := type_text |} ].

Definition sourceName (hostname : string) : string :=
  JS.toUpperCase
    (JS.firstSegment "." (JS.removeFirst "feeds." (JS.removeFirst "www." hostname))).

Definition cleanDescription (env : Env) (rawDescription : string) : string :=
  JS.slice0 200 (JS.trim (innerHTML_textContent env rawDescription)) +:+ "...".

Definition itemImageUrl (env : Env) (item : Item) (rawDescription : string) : string :=
  let imageUrl :=
    match item_media_content item with
    | Some attr => JS.orDefault attr EmptyString
    | None => EmptyString
    end in
  if JS.truthy imageUrl then imageUrl
  else match match_img_src env rawDescription with
       | Some src => src
       | None => imageUrl
       end.

Definition itemArticle (env : Env) (c : Category) (sourceName : string) (item : Item)
  : Article :=
  let title := JS.orDefault (item_title item) "No Title" in
  let link := JS.orDefault (item_link item) EmptyString in
  let pubDate := JS.orDefault (item_pubDate item) EmptyString in
  let rawDescription := JS.orDefault (item_description item) EmptyString in
  {| id := generateId link;
     title := title;
     source := sourceName;
     timestamp := if JS.truthy pubDate then toLocaleTimeString env pubDate else "Recent";
     description := cleanDescription env rawDescription;
     category := c;
     url := link;
     imageUrl := Some (itemImageUrl env item rawDescription);
     descriptionRomanUrdu := None |}.

(** The content a resolved response yields for a proxy of the given type;
    [None] when reading it throws. *)
Definition responseContent (ty : ProxyType) (r : Response) : option (option string) :=
  match ty with
  | type_json =>
      match response_json r with
      | JsonThrows => None
      | JsonContents contents => Some contents
      end
  | type_text => Some <$> response_text r
  end.

(** The body of the [for (const proxy of proxies)] loop after the request
    is issued: [Some articles] is the [return], [None] is [continue] or
    an exception caught by the loop's [catch]. *)
Definition tryProxy (env : Env) (c : Category) (url : string) (proxy : Proxy)
  : option (list Article) :=
  match fetch env (proxy_url proxy) with
  | FetchRejected => None
  | FetchResolved response =>
      if negb (ok response) then None
      else
        match responseContent (proxy_type proxy) response with
        | None => None
        | Some None => None
        | Some (Some rssContent) =>
            if negb (JS.truthy rssContent) then None
            else
              let xmlDoc := DOMParser_parseFromString env rssContent in
              if parsererror xmlDoc then None
              else
                match items xmlDoc with
                | [] => None
                | (_ :: _) as items =>
                    match URL_hostname env url with
                    | None => None
                    | Some hostname =>
                        Some (map (itemArticle env c (sourceName hostname)) items)
                    end
                end
        end
  end.

Fixpoint tryProxies (env : Env) (c : Category) (url : string) (ps : list Proxy)
  : list Article * Trace :=
  match ps with
  | [] => ([], [])
  | proxy :: rest =>
      let ev := EvFetch (proxy_url proxy) 6000 in
      match tryProxy env c url proxy with
      | Some articles => (articles, [ev])
      | None =>
          let '(articles, tr) := tryProxies env c url rest in
          (articles, ev :: tr)
      end
  end.

(** One element of [fetchPromises]. *)
Definition fetchFeed (env : Env) (c : Category) (url : string) : list Article * Trace :=
  tryProxies env c url (proxies url).

(** ** rssService: deduplicator *)

Definition isAlnumLower (ch : ascii) : bool :=
  JS.inRange 97 122 ch || JS.inRange 48 57 ch.

(** [title.toLowerCase().replace(/[^a-z0-9]/g, '')] *)
Definition normalizedTitle (title : string) : string :=
  JS.filterString isAlnumLower (JS.toLowerCase title).

(** The [filter] callback run over the batch with the [seenTitles] set it
    mutates. *)
Fixpoint filterUnseen (seenTitles : gset string) (allArticles : list Article)
  : list Article :=
  match allArticles with
  | [] => []
  | article :: rest =>
      let n := normalizedTitle (title article) in
      if decide (n ∈ seenTitles) then filterUnseen seenTitles rest
      else article :: filterUnseen ({[ n ]} ∪ seenTitles) rest
  end.

Definition uniqueArticles (allArticles : list Article) : list Article :=
  filterUnseen ∅ allArticles.

(** ** rssService: fetchNewsForCategory *)

(** [Promise.all(fetchPromises)] followed by [flat()]. *)
Definition liveFetch (env : Env) (c : Category) (feedUrls : list string)
  : list Article * Trace :=
  let results := map (fetchFeed env c) feedUrls in
  (concat (map fst results), concat (map snd results)).

(** 4. Fallback (stale): [supabaseStaleData.length > 0], then
    [localStaleData.length > 0], where [localStaleData] is whatever the
    local tier left; reading [.length] of a nullish value throws. *)
Definition staleFallback (supabaseStaleData : list Article) (localStaleData : Stored)
  : Outcome :=
  match supabaseStaleData with
  | _ :: _ => Returns (Batch supabaseStaleData)
  | [] =>
      match localStaleData with
      | Batch (_ :: _) => Returns localStaleData
      | Batch [] => Returns (Batch [])
      | Nullish => ThrowsTypeError
      | NotArray _ true => Returns localStaleData
      | NotArray _ false => Returns (Batch [])
      end
  end.

(** The remote half of the cache writer; the upsert is not awaited. *)
Definition upsertCache (env : Env) (c : Category) (uniq : list Article) : Trace :=
  if isSupabaseConfigured env
  then [EvUpsert "rss_feed_cache" c uniq (Date_now env AtRemoteWrite)]
  else [].

(** 3. Live fetch, inside its [try]: when [localStorage.setItem] throws,
    the [catch] leads to the stale fallback like a failed fetch does. *)
Definition fetchLive (env : Env) (c : Category)
    (supabaseStaleData : list Article) (localStaleData : Stored) : Outcome * Trace :=
  match RSS_FEEDS env c with
  | None | Some [] => (Returns (Batch []), [])
  | Some feedUrls =>
      let '(allArticles, tr) := liveFetch env c feedUrls in
      match uniqueArticles allArticles with
      | (_ :: _) as uniq =>
          let set := EvSetItem (cacheKey env c) (Date_now env AtLocalWrite) uniq in
          if localStorage_setItem env (cacheKey env c)
          then (Returns (Batch uniq), tr ++ set :: upsertCache env c uniq)
          else (staleFallback supabaseStaleData localStaleData, tr ++ [set])
      | [] => (staleFallback supabaseStaleData localStaleData, tr)
      end
  end.

(** A call that resolves to an array of articles. *)
Definition returnsArticles (r : list Article * Trace) : Outcome * Trace :=
  (Returns (Batch (fst r)), snd r).

Definition fetchNewsForCategory (env : Env) (c : Category) : Outcome * Trace :=
  if decide (c = AZAD_STUDIO) then returnsArticles (fetchAzadStudio env)
  else if decide (c = GALLERY) then returnsArticles (fetchGalleryPosts env)
  else
    match probeSupabase env c with
    | (Fresh articles, tr1) => (Returns (Batch articles), tr1)
    | (Stale supabaseStaleData, tr1) =>
        match probeLocal env c with
        | (Fresh articles, tr2) => (Returns articles, tr1 ++ tr2)
        | (Stale localStaleData, tr2) =>
            let '(result, tr3) := fetchLive env c supabaseStaleData localStaleData in
            (result, tr1 ++ tr2 ++ tr3)
        end
    end.

(** ** geminiService: article and audio enrichment *)

Module Gemini.

Record EnhancedArticleContent := {
  fullArticle : string;
  summaryShort : string;
  summaryRomanUrdu : string;
  summaryUrdu : string;
  summaryHindi : string;
  summaryTelugu : string;
  fullArticleRomanUrdu : string;
  fullArticleUrdu : string;
  fullArticleHindi : string;
  fullArticleTelugu : string;
}.

(** [await aiClient.models.generateContent(...)] for text: it throws, or
    resolves to a response whose [text] may be undefined. *)
Inductive TextGeneration :=
  | TextThrows
  | TextResponse (text : option string).

(** The same for audio: the value of the optional chain down to
    [inlineData.data]. *)
Inductive AudioGeneration :=
  | AudioThrows
  | AudioResponse (data : option string).

(** The collaborators of the module: the remote tables, the generative
    client and [JSON.parse] on the model's answer ([None]: it throws or
    yields a falsy value). *)
Record Services := {
  isSupabaseConfigured : bool;
  ai_articles_cache : string -> Query EnhancedArticleContent;
  ai_audio_cache : string -> Query string;
  getAI : bool;                                  (* [false]: [getAI()] throws *)
  generateText : string -> TextGeneration;
  JSON_parse : string -> option EnhancedArticleContent;
  generateAudio : list Utf16.CodeUnit -> AudioGeneration;
}.

(** The module-level maps, shared by every call of a session. *)
Record Session := {
  articleMemoryCache : gmap string EnhancedArticleContent;
  audioMemoryCache : gmap string string;
}.

Definition emptySession : Session :=
  {| articleMemoryCache := ∅; audioMemoryCache := ∅ |}.

Definition setArticle (st : Session) (id : string) (content : EnhancedArticleContent)
  : Session :=
  {| articleMemoryCache := <[id := content]> (articleMemoryCache st);
     audioMemoryCache := audioMemoryCache st |}.

Definition setAudio (st : Session) (key : string) (audio : string) : Session :=
  {| articleMemoryCache := articleMemoryCache st;
     audioMemoryCache := <[key := audio]> (audioMemoryCache st) |}.

(** The [contents] of a request to the generative service: the prompt
    string of [enhanceArticle], or the one text part of
    [generateNewsAudio]. *)
Inductive Contents :=
  | Prompt (prompt : string)
  | Parts (text : list Utf16.CodeUnit).

Inductive Event :=
  | Select (table : string) (key : string)
  | GenerateContent (model : string) (contents : Contents)
  | UpsertArticle (article_id : string) (data : EnhancedArticleContent)
  | UpsertAudio (text_hash : string) (audio_data : string).

Definition Trace := list Event.

Definition isGenerate (e : Event) : bool :=
  match e with GenerateContent _ _ => true | _ => false end.

Definition isUpsert (e : Event) : bool :=
  match e with UpsertArticle _ _ | UpsertAudio _ _ => true | _ => false end.

(** How many times a trace calls the generative service. *)
Definition generations (tr : Trace) : nat := length (List.filter isGenerate tr).

(** How many remote writes a trace makes. *)
Definition upserts (tr : Trace) : nat := length (List.filter isUpsert tr).

Definition dq : string := String (JS.ofCode 34) EmptyString.
Definition newline : string := String (JS.ofCode 10) EmptyString.

Definition schemaLine (field : string) (sep : string) : string :=
  "      " +:+ dq +:+ field +:+ dq +:+ ": " +:+ dq +:+ "string" +:+ dq +:+ sep.

Definition prompt (title description : string) : string :=
  String.concat newline
    [ EmptyString;
      "    Context: News Aggregation.";
      "    Source: " +:+ dq +:+ title +:+ dq +:+ " - " +:+ dq +:+ description +:+ dq;
      "    ";
      "    Task:";
      "    1. WRITE A FULL ARTICLE (300-400 words): Expansive, professional, journalist style. Include context and potential impact.";
      "    2. SUMMARIZE (50 words): Key facts only.";
      "    3. TRANSLATE the *Full Article* into:";
      "       - Roman Urdu (Urdu in English script)";
      "       - Urdu (Nastaliq script)";
      "       - Hindi (Devanagari)";
      "       - Telugu (Telugu script)";
      "    ";
      "    Output strictly valid JSON:";
      "    {";
      schemaLine "fullArticle" ",";
      schemaLine "summaryShort" ",";
      schemaLine "summaryRomanUrdu" ",";
      schemaLine "summaryUrdu" ",";
      schemaLine "summaryHindi" ",";
      schemaLine "summaryTelugu" ",";
      schemaLine "fullArticleRomanUrdu" ",";
      schemaLine "fullArticleUrdu" ",";
      schemaLine "fullArticleHindi" ",";
      schemaLine "fullArticleTelugu" EmptyString;
      "    }";
      "  " ].

(** The degraded result; the three literals outside Latin-1 stand as their
    UTF-8 bytes. *)
Definition fallbackContent (description : string) : EnhancedArticleContent :=
  {| fullArticle :=
       description +:+ newline +:+ newline +:+
       "(Full article generation unavailable at this moment.)";
     summaryShort := description;
     summaryRomanUrdu := "Tarjuma dastiyab nahi hai.";
     summaryUrdu := "ترجمہ دستیاب نہیں ہے۔";
     summaryHindi := "अनुवाद उपलब्ध नहीं है।";
     summaryTelugu := "అనువాదం అందుబాటులో లేదు.";
     fullArticleRomanUrdu := description;
     fullArticleUrdu := description;
     fullArticleHindi := description;
     fullArticleTelugu := description |}.

(** The remote lookup both functions start with: [Some v] when the row is
    found ([data && !error]); a throw is caught and ignored. *)
Definition remoteHit {A} (q : Query A) : option A :=
  match q with
  | Resolved (Some data) None => Some data
  | _ => None
  end.

(** The [try] block of [enhanceArticle]: the parsed content, if any, and
    whether the generative service was called. *)
Definition generateArticle (sv : Services) (title description : string)
  : option EnhancedArticleContent * Trace :=
  if getAI sv then
    let call := [GenerateContent "gemini-2.5-flash" (Prompt (prompt title description))] in
    match generateText sv (prompt title description) with
    | TextResponse (Some text) =>
        if JS.truthy text then (JSON_parse sv text, call) else (None, call)
    | TextResponse None => (None, call)
    | TextThrows => (None, call)
    end
  else (None, []).

Definition enhanceArticle (sv : Services) (st : Session) (id title description : string)
  : EnhancedArticleContent * Session * Trace :=
  match articleMemoryCache st !! id with
  | Some cached => (cached, st, [])
  | None =>
      let '(hit, tr1) :=
        if isSupabaseConfigured sv
        then (remoteHit (ai_articles_cache sv id), [Select "ai_articles_cache" id])
        else (None, []) in
      match hit with
      | Some content => (content, setArticle st id content, tr1)
      | None =>
          let '(content, tr2) := generateArticle sv title description in
          match content with
          | Some content =>
              (content, setArticle st id content,
               tr1 ++ tr2 ++
               (if isSupabaseConfigured sv then [UpsertArticle id content] else []))
          | None => (fallbackContent description, st, tr1 ++ tr2)
          end
      end
  end.

(** *** Audio *)

(** Does a match of [https?:\/\/\S+] start at the head of [s]? *)
Definition urlStartsHere (s : list Utf16.CodeUnit) : bool :=
  let followed (n : nat) :=
    match drop n s with
    | u :: _ => negb (Utf16.isWhiteSpace u)
    | [] => false
    end in
  (Utf16.startsWith (Utf16.ofString "http://") s && followed 7%nat) ||
  (Utf16.startsWith (Utf16.ofString "https://") s && followed 8%nat).

(** [replace(/https?:\/\/\S+/g, '')]: a match runs from its [h] to the
    next white space, and [inUrl] says the scan is inside one. *)
Fixpoint removeUrls (inUrl : bool) (s : list Utf16.CodeUnit) : list Utf16.CodeUnit :=
  match s with
  | [] => []
  | u :: s' =>
      if inUrl then
        if Utf16.isWhiteSpace u then u :: removeUrls false s'
        else removeUrls true s'
      else if urlStartsHere s then removeUrls true s'
      else u :: removeUrls false s'
  end.

(** The class [[*#_`~>\[\]\(\)]]. *)
Definition isMarkdown (u : Utf16.CodeUnit) : bool :=
  existsb (fun k => Utf16.code u =? k) [42; 35; 95; 96; 126; 62; 91; 93; 40; 41].

Definition removeMarkdown (s : list Utf16.CodeUnit) : list Utf16.CodeUnit :=
  List.filter (fun u => negb (isMarkdown u)) s.

Definition space : Utf16.CodeUnit := Utf16.latin1 " ".

(** [replace(/\s+/g, ' ')] *)
Fixpoint collapseSpaces (inRun : bool) (s : list Utf16.CodeUnit) : list Utf16.CodeUnit :=
  match s with
  | [] => []
  | u :: s' =>
      if Utf16.isWhiteSpace u then
        if inRun then collapseSpaces true s'
        else space :: collapseSpaces true s'
      else u :: collapseSpaces false s'
  end.

Definition cleanText (text : list Utf16.CodeUnit) : list Utf16.CodeUnit :=
  Utf16.trim (collapseSpaces false (removeMarkdown (removeUrls false text))).

Definition speechText (text : list Utf16.CodeUnit) : list Utf16.CodeUnit :=
  Utf16.slice0 4000 (cleanText text).

(** The string the cache key encodes:
    [text.trim().slice(0, 100) + text.length]. *)
Definition keySource (text : list Utf16.CodeUnit) : list Utf16.CodeUnit :=
  Utf16.slice0 100 (Utf16.trim text) ++ Utf16.ofString (pretty (length text)).

(** How the first statement of [generateNewsAudio] ends:
    [encodeURIComponent] throws a [URIError], [btoa] throws an
    [InvalidCharacterError] (on a code unit above 255), or the key is
    computed. *)
Inductive KeyResult :=
  | CacheKey (key : string)
  | URIError
  | InvalidCharacterError.

(** [btoa(unescape(encodeURIComponent(...)))] *)
Definition audioCacheKey (text : list Utf16.CodeUnit) : KeyResult :=
  match Utf16.encodeURIComponent (keySource text) with
  | None => URIError
  | Some escaped =>
      match JS.unescape escaped with
      | Some binary => CacheKey (JS.btoa binary)
      | None => InvalidCharacterError
      end
  end.

(** The request to the remote audio table, made when it is configured. *)
Definition audioLookup (configured : bool) (key : string) : list Event :=
  if configured then [Select "ai_audio_cache" key] else [].

(** How a call ends: with audio, with an [Error] of the function's own
    and its message, or with the error of the key computation. *)
Inductive AudioResult :=
  | AudioData (audioData : string)
  | Throws (message : string)
  | ThrowsURIError
  | ThrowsInvalidCharacterError.

(** The [try] block of [generateNewsAudio]. *)
Definition synthesize (sv : Services) (speech : list Utf16.CodeUnit)
  : option string * Trace :=
  if getAI sv then
    let call := [GenerateContent "gemini-2.5-flash-preview-tts" (Parts speech)] in
    match generateAudio sv speech with
    | AudioResponse (Some data) =>
        if JS.truthy data then (Some data, call) else (None, call)
    | AudioResponse None => (None, call)
    | AudioThrows => (None, call)
    end
  else (None, []).

Definition generateNewsAudio (sv : Services) (st : Session) (text : list Utf16.CodeUnit)
  : AudioResult * Session * Trace :=
  match audioCacheKey text with
  | URIError => (ThrowsURIError, st, [])
  | InvalidCharacterError => (ThrowsInvalidCharacterError, st, [])
  | CacheKey cacheKey =>
      match audioMemoryCache st !! cacheKey with
      | Some cached => (AudioData cached, st, [])
      | None =>
          let '(hit, tr1) :=
            if isSupabaseConfigured sv
            then (remoteHit (ai_audio_cache sv cacheKey), [Select "ai_audio_cache" cacheKey])
            else (None, []) in
          match hit with
          | Some audio_data => (AudioData audio_data, setAudio st cacheKey audio_data, tr1)
          | None =>
              if negb (Utf16.truthy (cleanText text))
              then (Throws "Audio generation failed: Empty text", st, tr1)
              else
                let '(base64Audio, tr2) := synthesize sv (speechText text) in
                match base64Audio with
                | Some base64Audio =>
                    (AudioData base64Audio, setAudio st cacheKey base64Audio,
                     tr1 ++ tr2 ++
                     (if isSupabaseConfigured sv
                      then [UpsertAudio cacheKey base64Audio] else []))
                | None => (Throws "TTS generation failed.", st, tr1 ++ tr2)
                end
          end
      end
  end.

End Gemini.

(** The identifier generator as the specification words it: a rolling hash
    [hash = hash*31 + code] wrapped to the signed 32-bit range, absolute
    value, base 36, namespace tag. *)
Module IdSpec.

Definition wrap_signed32 (z : Z) : Z := (z + 2 ^ 31) mod 2 ^ 32 - 2 ^ 31.

Definition rolling_hash (codes : list Z) : Z :=
  fold_left (fun hash code => wrap_signed32 (hash * 31 + code)) codes 0.

Definition identifier (s : string) : string :=
  "rss_" +:+ JS.toString36 (Z.abs (rolling_hash (JS.charCodes s))).

End IdSpec.

(** The deduplicator as the specification words it: an article is kept
    exactly when its normalized title is not the normalized title of an
    earlier article of the sequence, kept or not. *)
Module DedupSpec.

(** Lower-case one character and keep it if it is a letter or a digit. *)
Definition normalizeChar (ch : ascii) : option ascii :=
  let l := JS.lowerChar ch in
  if JS.inRange 97 122 l || JS.inRange 48 57 l then Some l else None.

Definition normalize (title : string) : string :=
  string_of_list_ascii (omap normalizeChar (list_ascii_of_string title)).

Fixpoint keepFirst (earlier : list string) (l : list Article) : list Article :=
  match l with
  | [] => []
  | a :: rest =>
      let n := normalize (title a) in
      if decide (n ∈ earlier) then keepFirst (earlier ++ [n]) rest
      else a :: keepFirst (earlier ++ [n]) rest
  end.

Definition firstOccurrences (l : list Article) : list Article := keepFirst [] l.

End DedupSpec.

(** The strings [encodeURIComponent] accepts, as the specification of
    the language words it: every surrogate is one half of a pair, a
    leading half followed by a trailing half. *)
Module KeySpec.

(** A Unicode code point. *)
Definition isCodePoint (k : Z) : Prop := 0 <= k < 1114112.

Inductive wellFormed : list Utf16.CodeUnit -> Prop :=
  | wellFormed_nil : wellFormed []
  | wellFormed_unit u s :
      Utf16.isHighSurrogate u = false -> Utf16.isLowSurrogate u = false ->
      wellFormed s -> wellFormed (u :: s)
  | wellFormed_pair lead trail s :
      Utf16.isHighSurrogate lead = true -> Utf16.isLowSurrogate trail = true ->
      wellFormed s -> wellFormed (lead :: trail :: s).

End KeySpec.

(** What trimming a text means, stated without [JS.trim]: white space is
    taken off the two ends, and nothing else. *)
Module FeedSpec.

(** A string of white space only. *)
Definition blank (s : string) : Prop :=
  Forall (fun ch => JS.isWhiteSpace ch = true) (list_ascii_of_string s).

(** [core] is [text] without the white space at its two ends. *)
Definition trimmed (text core : string) : Prop :=
  (exists before after, text = before +:+ core +:+ after /\ blank before /\ blank after) /\
  (forall ch rest, core = String ch rest -> JS.isWhiteSpace ch = false) /\
  (forall init ch, core = init +:+ String ch EmptyString -> JS.isWhiteSpace ch = false).

End FeedSpec.

(** The outcomes of one relay as the specification lists them. *)
Module FanoutSpec.

Section Relay.
Context (env : Env).

(** A relay fails: the request is rejected (network error, or aborted by
    the 6-second timer), the status is not a success, the body cannot be
    read, the content is empty, the document has a parse error, or it
    has no item. *)
Inductive fails (p : Proxy) : Prop :=
  | fails_rejected :
      fetch env (proxy_url p) = FetchRejected -> fails p
  | fails_status r :
      fetch env (proxy_url p) = FetchResolved r -> ok r = false -> fails p
  | fails_body r :
      fetch env (proxy_url p) = FetchResolved r -> ok r = true ->
      responseContent (proxy_type p) r = None -> fails p
  | fails_no_content r :
      fetch env (proxy_url p) = FetchResolved r -> ok r = true ->
      responseContent (proxy_type p) r = Some None -> fails p
  | fails_empty_content r :
      fetch env (proxy_url p) = FetchResolved r -> ok r = true ->
      responseContent (proxy_type p) r = Some (Some EmptyString) -> fails p
  | fails_parse r content :
      fetch env (proxy_url p) = FetchResolved r -> ok r = true ->
      responseContent (proxy_type p) r = Some (Some content) ->
      parsererror (DOMParser_parseFromString env content) = true -> fails p
  | fails_no_item r content :
      fetch env (proxy_url p) = FetchResolved r -> ok r = true ->
      responseContent (proxy_type p) r = Some (Some content) ->
      items (DOMParser_parseFromString env content) = [] -> fails p.

(** A relay yields the items [its]: a success status and a non-empty
    content that parses without error into at least one item. *)
Inductive yields (p : Proxy) (its : list Item) : Prop :=
  | yields_items r content :
      fetch env (proxy_url p) = FetchResolved r -> ok r = true ->
      responseContent (proxy_type p) r = Some (Some content) ->
      content <> EmptyString ->
      parsererror (DOMParser_parseFromString env content) = false ->
      items (DOMParser_parseFromString env content) = its ->
      its <> [] -> yields p its.

End Relay.

(** The request the loop issues for a relay, with its abort timer. *)
Definition request (p : Proxy) : Event := EvFetch (proxy_url p) 6000.

End FanoutSpec.

(** The states of the two cache tiers as the specification names them. *)
Module CacheSpec.

Section Tiers.
Context (env : Env) (c : Category).

(** The remote tier holds the fresh batch [articles]: the table is
    configured, the row is read without error, its batch is not empty and
    its age is under the freshness window. *)
Definition remoteFresh (articles : list Article) : Prop :=
  isSupabaseConfigured env = true /\
  exists row lastUpdate,
    rss_feed_cache env c = Resolved (Some row) None /\
    row_articles row = Some articles /\ articles <> [] /\
    row_updated_at row = Some lastUpdate /\
    Date_now env AtRemoteCheck - lastUpdate < CACHE_DURATION.

(** The local tier holds a fresh entry whose [articles] field is
    [value]. *)
Definition localFresh (value : Stored) : Prop :=
  exists timestamp,
    localStorage_getItem env (cacheKey env c) =
      Some (CacheEntry (Some timestamp) value) /\
    Date_now env AtLocalCheck - timestamp < CACHE_DURATION.

(** Reading the remote tier fails: the call throws or resolves with an
    error. *)
Definition remoteError : Prop :=
  rss_feed_cache env c = Rejected \/
  exists data e, rss_feed_cache env c = Resolved data (Some e).

(** Reading the local tier fails: the [try] block throws on the stored
    text. *)
Definition localError : Prop :=
  localStorage_getItem env (cacheKey env c) = Some Unreadable.

End Tiers.

(** The same environment with no row in the remote table. *)
Definition withoutRemoteRow (env : Env) : Env :=
  {| Category_value := Category_value env;
     RSS_FEEDS := RSS_FEEDS env;
     isSupabaseConfigured := isSupabaseConfigured env;
     telegram_posts := telegram_posts env;
     gallery_posts := gallery_posts env;
     rss_feed_cache := fun _ => Resolved None None;
     localStorage_getItem := localStorage_getItem env;
     localStorage_setItem := localStorage_setItem env;
     Date_now := Date_now env;
     fetch := fetch env;
     DOMParser_parseFromString := DOMParser_parseFromString env;
     URL_hostname := URL_hostname env;
     innerHTML_textContent := innerHTML_textContent env;
     match_img_src := match_img_src env;
     toLocaleDateString := toLocaleDateString env;
     toLocaleTimeString := toLocaleTimeString env |}.

(** The same environment with an empty local store. *)
Definition withoutLocalEntry (env : Env) : Env :=
  {| Category_value := Category_value env;
     RSS_FEEDS := RSS_FEEDS env;
     isSupabaseConfigured := isSupabaseConfigured env;
     telegram_posts := telegram_posts env;
     gallery_posts := gallery_posts env;
     rss_feed_cache := rss_feed_cache env;
     localStorage_getItem := fun _ => None;
     localStorage_setItem := localStorage_setItem env;
     Date_now := Date_now env;
     fetch := fetch env;
     DOMParser_parseFromString := DOMParser_parseFromString env;
     URL_hostname := URL_hostname env;
     innerHTML_textContent := innerHTML_textContent env;
     match_img_src := match_img_src env;
     toLocaleDateString := toLocaleDateString env;
     toLocaleTimeString := toLocaleTimeString env |}.

(** The deduplicated batch of a live fetch over the given feeds. *)
Definition liveBatch (env : Env) (c : Category) (feedUrls : list string) : list Article :=
  uniqueArticles (concat (map (fun url => fst (fetchFeed env c url)) feedUrls)).

Definition noRelayFetch (tr : Trace) : Prop := Forall (fun e => isFetch e = false) tr.

(** The request to the remote tier, made when the table is configured. *)
Definition remoteTrace (env : Env) (c : Category) : Trace :=
  if isSupabaseConfigured env
  then [EvSelect "rss_feed_cache" (Category_value env c)] else [].

End CacheSpec.

(** Concrete environments and inputs for the examples. *)
Module Scenario.

Definition categoryValue (c : Category) : string :=
  match c with
  | AZAD_STUDIO => "Azad Studio"
  | GALLERY => "Gallery"
  | Feed name => name
  end.

Definition now : Z := 1700000000000.

Definition feedUrl : string := "https://feeds.example.org/rss".

Definition feedXml : string := "<rss><channel><item/></channel></rss>".

Definition stormItem : Item :=
  {| item_title := Some "Breaking: Storm Hits!";
     item_link := Some "https://example.org/storm";
     item_pubDate := None;
     item_description := Some "<p>Heavy rain.</p>";
     item_media_content := None |}.

Definition parseXml (content : string) : XmlDoc :=
  if decide (content = feedXml)
  then {| parsererror := false; items := [stormItem] |}
  else {| parsererror := true; items := [] |}.

(** No relay answers. *)
Definition offline (url : string) : FetchResult := FetchRejected.

(** Only the second relay (codetabs) answers, with the feed. *)
Definition secondRelayOnly (url : string) : FetchResult :=
  if decide (url = "https://api.codetabs.com/v1/proxy?quest=" +:+ JS.encodeURIComponent feedUrl)
  then FetchResolved {| ok := true; status := 200;
                        response_json := JsonThrows;
                        response_text := Some feedXml |}
  else FetchRejected.

Definition world (configured : bool) (feeds : option (list string))
    (remote : Query RssRow) (stored : option StoredItem) (net : string -> FetchResult)
  : Env :=
  {| Category_value := categoryValue;
     RSS_FEEDS := fun _ => feeds;
     isSupabaseConfigured := configured;
     telegram_posts := Resolved None None;
     gallery_posts := Resolved None None;
     rss_feed_cache := fun _ => remote;
     localStorage_getItem := fun _ => stored;
     localStorage_setItem := fun _ => true;
     Date_now := fun _ => now;
     fetch := net;
     DOMParser_parseFromString := parseXml;
     URL_hostname := fun _ => Some "feeds.example.org";
     innerHTML_textContent := fun html => "Heavy rain.";
     match_img_src := fun _ => None;
     toLocaleDateString := fun d => d;
     toLocaleTimeString := fun d => d |}.

Definition cached : Article :=
  {| id := "rss_1";
     title := "Cached headline";
     source := "EXAMPLE";
     timestamp := "Recent";
     description := "Cached...";
     category := Feed "world";
     url := "https://example.org/cached";
     imageUrl := None;
     descriptionRomanUrdu := None |}.

Definition stormArticle : Article :=
  {| id := generateId "https://example.org/storm";
     title := "Breaking: Storm Hits!";
     source := "EXAMPLE";
     timestamp := "Recent";
     description := "Heavy rain....";
     category := Feed "world";
     url := "https://example.org/storm";
     imageUrl := Some EmptyString;
     descriptionRomanUrdu := None |}.

(** The same headline from another source, written differently. *)
Definition stormEcho : Article :=
  {| id := generateId "https://other.example.net/weather/storm";
     title := "breaking storm hits";
     source := "OTHER";
     timestamp := "Recent";
     description := "Rain....";
     category := Feed "world";
     url := "https://other.example.net/weather/storm";
     imageUrl := Some EmptyString;
     descriptionRomanUrdu := None |}.

Definition noRow : Query RssRow := Resolved None None.

Definition rowOf (articles : list Article) (updated_at : Z) : Query RssRow :=
  Resolved (Some {| row_articles := Some articles; row_updated_at := Some updated_at |}) None.

(** A special category with a fresh local entry under its key. *)
Definition studioWithLocalEntry : Env :=
  world false None noRow (Some (CacheEntry (Some now) (Batch [cached]))) offline.

(** A feed category whose remote row is fresh and empty, with a live feed. *)
Definition emptyRemoteRow : Env :=
  world true (Some [feedUrl]) (rowOf [] now) None secondRelayOnly.


(** A feed category whose remote row is fresh and holds one article. *)
Definition freshRemoteRow : Env :=
  world true (Some [feedUrl]) (rowOf [cached] now) None offline.


(** A feed category with no cache whose second relay answers. *)
Definition liveFeed : Env :=
  world false (Some [feedUrl]) noRow None secondRelayOnly.

(** *** Enrichment *)

Definition sampleContent : Gemini.EnhancedArticleContent :=
  {| Gemini.fullArticle := "A storm hit the coast.";
     Gemini.summaryShort := "Storm.";
     Gemini.summaryRomanUrdu := "Toofan.";
     Gemini.summaryUrdu := "Toofan.";
     Gemini.summaryHindi := "Toofan.";
     Gemini.summaryTelugu := "Toofanu.";
     Gemini.fullArticleRomanUrdu := "Toofan aaya.";
     Gemini.fullArticleUrdu := "Toofan aaya.";
     Gemini.fullArticleHindi := "Toofan aaya.";
     Gemini.fullArticleTelugu := "Toofanu vachindi." |}.

Definition services (text : Gemini.TextGeneration) (audio : Gemini.AudioGeneration)
  : Gemini.Services :=
  {| Gemini.isSupabaseConfigured := false;
     Gemini.ai_articles_cache := fun _ => Resolved None None;
     Gemini.ai_audio_cache := fun _ => Resolved None None;
     Gemini.getAI := true;
     Gemini.generateText := fun _ => text;
     Gemini.JSON_parse := fun _ => Some sampleContent;
     Gemini.generateAudio := fun _ => audio |}.

(** The generative service is unreachable. *)
Definition unreachable : Gemini.Services :=
  services Gemini.TextThrows Gemini.AudioThrows.

(** The generative service answers with an article. *)
Definition writing : Gemini.Services :=
  services (Gemini.TextResponse (Some "{}")) Gemini.AudioThrows.

(** The generative service narrates. *)
Definition narrating : Gemini.Services :=
  services Gemini.TextThrows (Gemini.AudioResponse (Some "UklGRg==")).

Definition marks (n : nat) : list Utf16.CodeUnit := replicate n (Utf16.latin1 "#").

(** Two texts with the same first hundred characters and the same
    length: the first has words to narrate, the second nothing but
    markup. *)
Definition headedText : list Utf16.CodeUnit := marks 100 ++ Utf16.ofString "hi".
Definition markupOnly : list Utf16.CodeUnit := marks 100 ++ Utf16.ofString "##".

(** A third text with the same head and length that narrates other words. *)
Definition headedOther : list Utf16.CodeUnit := marks 100 ++ Utf16.ofString "yo".

(** The key of these three texts: the base64 text of a hundred marks
    followed by [102]. *)
Definition headedKey : string :=
  Eval vm_compute in
    match Gemini.audioCacheKey headedText with
    | Gemini.CacheKey key => key
    | _ => EmptyString
    end.

(** The session after [headedText] was narrated from an empty one. *)
Definition afterNarration : Gemini.Session :=
  (Gemini.generateNewsAudio narrating Gemini.emptySession headedText).1.2.

End Scenario.

(** ** geminiService: getDeviceVoiceLang *)

Definition getDeviceVoiceLang (tab : string) : string :=
  if decide (tab = "urdu") then "ur-IN"
  else if decide (tab = "hindi") then "hi-IN"
  else if decide (tab = "telugu") then "te-IN"
  else "en-IN".

(** ** rssService: addGalleryPost *)

Module Gallery.

(** The argument of [addGalleryPost]. *)
Record NewPost := {
  new_title : string;
  new_description : string;
  new_media_url : string;
}.

(** How the call ends: it returns [data], or it throws a new [Error]
    with a message, the [error] object the table returned, or whatever
    the awaited insert threw. *)
Inductive Outcome :=
  | Returned (data : option (list Post))
  | ThrownMessage (message : string)
  | ThrownError (error : string)
  | ThrownRejection.

(** The row handed to [insert([...])]. *)
Inductive Call :=
  | Insert (table : string) (title description media_url : string).

Definition addGalleryPost (configured : bool)
    (insert : NewPost -> Query (list Post)) (post : NewPost) : Outcome * list Call :=
  if negb configured then (ThrownMessage "Database not connected", [])
  else
    let call :=
      [Insert "gallery_posts" (new_title post) (new_description post) (new_media_url post)] in
    match insert post with
    | Rejected => (ThrownRejection, call)
    | Resolved _ (Some error) => (ThrownError error, call)
    | Resolved data None => (Returned data, call)
    end.

End Gallery.

(** ** The cache tiers as a store

    What the writes recorded in a trace do to the two tiers, so that a
    later call can be run in the environment an earlier call left. A
    local write that does not throw stores the entry, and
    [JSON.parse(JSON.stringify(entry))] gives the entry back (a batch is
    a list of records of strings). The remote upsert is not awaited: it
    either lands, replacing the category's row, or is lost. *)
Module Store.

Definition setLocal (env : Env) (key : string) (item : StoredItem) : Env :=
  {| Category_value := Category_value env;
     RSS_FEEDS := RSS_FEEDS env;
     isSupabaseConfigured := isSupabaseConfigured env;
     telegram_posts := telegram_posts env;
     gallery_posts := gallery_posts env;
     rss_feed_cache := rss_feed_cache env;
     localStorage_getItem :=
       fun k => if decide (k = key) then Some item else localStorage_getItem env k;
     localStorage_setItem := localStorage_setItem env;
     Date_now := Date_now env;
     fetch := fetch env;
     DOMParser_parseFromString := DOMParser_parseFromString env;
     URL_hostname := URL_hostname env;
     innerHTML_textContent := innerHTML_textContent env;
     match_img_src := match_img_src env;
     toLocaleDateString := toLocaleDateString env;
     toLocaleTimeString := toLocaleTimeString env |}.

Definition setRemote (env : Env) (c : Category) (row : RssRow) : Env :=
  {| Category_value := Category_value env;
     RSS_FEEDS := RSS_FEEDS env;
     isSupabaseConfigured := isSupabaseConfigured env;
     telegram_posts := telegram_posts env;
     gallery_posts := gallery_posts env;
     rss_feed_cache :=
       fun c' => if decide (c' = c) then Resolved (Some row) None else rss_feed_cache env c';
     localStorage_getItem := localStorage_getItem env;
     localStorage_setItem := localStorage_setItem env;
     Date_now := Date_now env;
     fetch := fetch env;
     DOMParser_parseFromString := DOMParser_parseFromString env;
     URL_hostname := URL_hostname env;
     innerHTML_textContent := innerHTML_textContent env;
     match_img_src := match_img_src env;
     toLocaleDateString := toLocaleDateString env;
     toLocaleTimeString := toLocaleTimeString env |}.

(** The same environment read at a later time. *)
Definition atClock (env : Env) (clock : ClockSite -> Z) : Env :=
  {| Category_value := Category_value env;
     RSS_FEEDS := RSS_FEEDS env;
     isSupabaseConfigured := isSupabaseConfigured env;
     telegram_posts := telegram_posts env;
     gallery_posts := gallery_posts env;
     rss_feed_cache := rss_feed_cache env;
     localStorage_getItem := localStorage_getItem env;
     localStorage_setItem := localStorage_setItem env;
     Date_now := clock;
     fetch := fetch env;
     DOMParser_parseFromString := DOMParser_parseFromString env;
     URL_hostname := URL_hostname env;
     innerHTML_textContent := innerHTML_textContent env;
     match_img_src := match_img_src env;
     toLocaleDateString := toLocaleDateString env;
     toLocaleTimeString := toLocaleTimeString env |}.

Definition applyEvent (landed : bool) (env : Env) (e : Event) : Env :=
  match e with
  | EvSetItem key timestamp articles =>
      if localStorage_setItem env key
      then setLocal env key (CacheEntry (Some timestamp) (Batch articles))
      else env
  | EvUpsert _ c articles updated_at =>
      if landed
      then setRemote env c {| row_articles := Some articles;
                              row_updated_at := Some updated_at |}
      else env
  | _ => env
  end.

Definition afterTrace (landed : bool) (env : Env) (tr : Trace) : Env :=
  fold_left (applyEvent landed) tr env.

Definition isWrite (e : Event) : bool :=
  match e with
  | EvSetItem _ _ _ | EvUpsert _ _ _ _ => true
  | _ => false
  end.

Definition isSetItem (e : Event) : bool :=
  match e with EvSetItem _ _ _ => true | _ => false end.

Definition isSelect (e : Event) : bool :=
  match e with EvSelect _ _ => true | _ => false end.

End Store.

(** The form the spacing step of [cleanText] leaves a text in: every
    white-space character is a plain space that follows a character that
    is not white space ([inRun] says the previous character was white
    space). *)
Module CleanSpec.

Fixpoint spaced (inRun : bool) (s : list Utf16.CodeUnit) : Prop :=
  match s with
  | [] => True
  | u :: s' =>
      if Utf16.isWhiteSpace u
      then inRun = false /\ u = Gemini.space /\ spaced true s'
      else spaced false s'
  end.

End CleanSpec.

(** More environments and inputs for the examples. *)
Module Cases.

(** Every relay answers with the feed. *)
Definition everyRelay (url : string) : FetchResult :=
  FetchResolved {| ok := true; status := 200;
                   response_json := JsonContents (Some Scenario.feedXml);
                   response_text := Some Scenario.feedXml |}.

(** A feed address without a scheme, which [new URL] rejects. *)
Definition relativeUrl : string := "feeds.example.org/rss".

Definition studioPost : Post :=
  {| post_id := "7";
     post_title := None;
     post_message := Some ("Studio opens" +:+ Gemini.newline +:+ "Doors at nine.");
     post_description := None;
     post_created_at := Some "2025-01-01T09:00:00Z";
     post_media_url := None |}.

Definition worldWith (configured : bool) (feeds : option (list string))
    (stored : option StoredItem) (canStore : bool) (hostname : option string)
    (posts : Query (list Post)) (net : string -> FetchResult) : Env :=
  {| Category_value := Scenario.categoryValue;
     RSS_FEEDS := fun _ => feeds;
     isSupabaseConfigured := configured;
     telegram_posts := posts;
     gallery_posts := posts;
     rss_feed_cache := fun _ => Scenario.noRow;
     localStorage_getItem := fun _ => stored;
     localStorage_setItem := fun _ => canStore;
     Date_now := fun _ => Scenario.now;
     fetch := net;
     DOMParser_parseFromString := Scenario.parseXml;
     URL_hostname := fun _ => hostname;
     innerHTML_textContent := fun html => "Heavy rain.";
     match_img_src := fun _ => None;
     toLocaleDateString := fun d => d;
     toLocaleTimeString := fun d => d |}.

(** A feed whose address is not a URL, with every relay answering. *)
Definition badAddress : Env :=
  worldWith false (Some [relativeUrl]) None true None (Resolved None None) everyRelay.

(** A configured backend holding one studio post. *)
Definition studio : Env :=
  worldWith true None None true None (Resolved (Some [studioPost]) None) Scenario.offline.

(** A live feed in a browser whose local store refuses writes, with a
    stale local entry. *)
Definition fullStore : Env :=
  worldWith false (Some [Scenario.feedUrl])
    (Some (CacheEntry (Some 0) (Batch [Scenario.cached]))) false (Some "feeds.example.org")
    (Resolved None None) Scenario.secondRelayOnly.


(** A live feed, a local store that refuses writes, and the same stale
    entry without [articles]. *)
Definition fullStoreWithoutArticles : Env :=
  worldWith false (Some [Scenario.feedUrl]) (Some (CacheEntry (Some 0) Nullish)) false
    (Some "feeds.example.org") (Resolved None None) Scenario.secondRelayOnly.

(** A studio post whose message has Windows line ends. *)
Definition crlfPost : Post :=
  {| post_id := "8";
     post_title := None;
     post_message :=
       Some ("line" +:+ String (JS.ofCode 13) (String (JS.ofCode 10) "rest"));
     post_description := None;
     post_created_at := None;
     post_media_url := None |}.



(** A later clock: one second after [Scenario.now]. *)
Definition later (site : ClockSite) : Z := Scenario.now + 1000.

(** A configured backend and a generative service that answers. *)
Definition publishing : Gemini.Services :=
  {| Gemini.isSupabaseConfigured := true;
     Gemini.ai_articles_cache := fun _ => Resolved None None;
     Gemini.ai_audio_cache := fun _ => Resolved None None;
     Gemini.getAI := true;
     Gemini.generateText := fun _ => Gemini.TextResponse (Some "{}");
     Gemini.JSON_parse := fun _ => Some Scenario.sampleContent;
     Gemini.generateAudio := fun _ => Gemini.AudioResponse (Some "UklGRg==") |}.

(** What a browser gives as the text of simple markup: the tags, from
    [<] to the next [>], are dropped. *)
Fixpoint stripTags (inTag : bool) (html : string) : string :=
  match html with
  | EmptyString => EmptyString
  | String ch rest =>
      if inTag then stripTags (negb (JS.charCode ch =? 62)) rest
      else if JS.charCode ch =? 60 then stripTags true rest
      else String ch (stripTags false rest)
  end.

(** An environment whose browser strips tags. *)
Definition browser : Env :=
  {| Category_value := Scenario.categoryValue;
     RSS_FEEDS := fun _ => None;
     isSupabaseConfigured := false;
     telegram_posts := Resolved None None;
     gallery_posts := Resolved None None;
     rss_feed_cache := fun _ => Scenario.noRow;
     localStorage_getItem := fun _ => None;
     localStorage_setItem := fun _ => true;
     Date_now := fun _ => Scenario.now;
     fetch := Scenario.offline;
     DOMParser_parseFromString := Scenario.parseXml;
     URL_hostname := fun _ => Some "feeds.example.org";
     innerHTML_textContent := stripTags false;
     match_img_src := fun _ => None;
     toLocaleDateString := fun d => d;
     toLocaleTimeString := fun d => d |}.

(** An item whose description is marked up and padded. *)
Definition paddedItem : Item :=
  {| item_title := None;
     item_link := Some "https://example.org/rain";
     item_pubDate := None;
     item_description := Some "<p> Heavy rain. </p>";
     item_media_content := None |}.

(** An item whose description is plain text between spaces. *)
Definition plainItem : Item :=
  {| item_title := Some "Rain";
     item_link := Some "https://example.org/rain";
     item_pubDate := None;
     item_description := Some "  Rain  ";
     item_media_content := None |}.

End Cases.

(** * Properties *)

Section Int32.

Lemma ToInt32_range z : - 2 ^ 31 <= JS.ToInt32 z < 2 ^ 31.
Proof.
  unfold JS.ToInt32. cbv zeta.
  pose proof (Z.mod_pos_bound z (2 ^ 32) ltac:(lia)).
  destruct (Z.leb_spec (2 ^ 31) (z mod 2 ^ 32)); lia.
Qed.

Lemma ToInt32_wrap z : JS.ToInt32 z = IdSpec.wrap_signed32 z.
Proof.
  unfold JS.ToInt32, IdSpec.wrap_signed32. cbv zeta.
  pose proof (Z.mod_pos_bound z (2 ^ 32) ltac:(lia)) as Hb.
  destruct (Z.leb_spec (2 ^ 31) (z mod 2 ^ 32)) as [Hge | Hlt].
  - symmetry. apply Z.sub_move_r.
    rewrite <- (Z.mod_unique_pos (z + 2 ^ 31) (2 ^ 32) (z / 2 ^ 32 + 1)
                  (z mod 2 ^ 32 - 2 ^ 32 + 2 ^ 31)); [reflexivity | lia |].
    pose proof (Z.div_mod z (2 ^ 32) ltac:(lia)). lia.
  - symmetry. apply Z.sub_move_r.
    rewrite <- (Z.mod_unique_pos (z + 2 ^ 31) (2 ^ 32) (z / 2 ^ 32)
                  (z mod 2 ^ 32 + 2 ^ 31)); [reflexivity | lia |].
    pose proof (Z.div_mod z (2 ^ 32) ltac:(lia)). lia.
Qed.

Lemma ToInt32_small z : - 2 ^ 31 <= z < 2 ^ 31 -> JS.ToInt32 z = z.
Proof.
  intros Hz. rewrite ToInt32_wrap. unfold IdSpec.wrap_signed32.
  rewrite Z.mod_small; lia.
Qed.

Lemma wrap_signed32_congr a b :
  a mod 2 ^ 32 = b mod 2 ^ 32 ->
  IdSpec.wrap_signed32 a = IdSpec.wrap_signed32 b.
Proof.
  intros Hab. unfold IdSpec.wrap_signed32. f_equal.
  rewrite (Z.add_mod a), (Z.add_mod b), Hab by lia. reflexivity.
Qed.

Lemma wrap_signed32_mod z :
  IdSpec.wrap_signed32 z mod 2 ^ 32 = z mod 2 ^ 32.
Proof.
  unfold IdSpec.wrap_signed32.
  rewrite Zminus_mod, Z.mod_mod by lia.
  rewrite <- Zminus_mod. f_equal. lia.
Qed.

End Int32.

(** ** Identifier generator *)

Section IdentifierGenerator.

Lemma ToInt32_mod z : JS.ToInt32 z mod 2 ^ 32 = z mod 2 ^ 32.
Proof. rewrite ToInt32_wrap. apply wrap_signed32_mod. Qed.

Lemma shl_5_mod h : JS.shl h 5 mod 2 ^ 32 = (h * 32) mod 2 ^ 32.
Proof.
  unfold JS.shl. rewrite ToInt32_mod.
  change (5 mod 32) with 5. rewrite Z.shiftl_mul_pow2 by lia.
  change (2 ^ 5) with 32.
  rewrite Z.mul_mod, ToInt32_mod, <- Z.mul_mod by lia. reflexivity.
Qed.

Lemma bor_0 x : JS.bor x 0 = JS.ToInt32 x.
Proof. unfold JS.bor. change (JS.ToInt32 0) with 0. apply Z.lor_0_r. Qed.

(** One round of the loop is one round of the rolling hash, whatever the
    accumulator and the code unit. *)
Lemma generateId_step_spec hash char :
  generateId_step hash char = IdSpec.wrap_signed32 (hash * 31 + char).
Proof.
  unfold generateId_step. cbv zeta. rewrite bor_0, ToInt32_wrap.
  apply wrap_signed32_congr.
  replace (hash * 31 + char) with (hash * 32 + (char - hash)) by lia.
  replace (JS.shl hash 5 - hash + char) with (JS.shl hash 5 + (char - hash)) by lia.
  rewrite (Z.add_mod (JS.shl hash 5)), shl_5_mod, <- Z.add_mod by lia.
  reflexivity.
Qed.

Lemma generateId_hash_spec codes :
  generateId_hash codes = IdSpec.rolling_hash codes.
Proof.
  unfold generateId_hash, IdSpec.rolling_hash.
  generalize 0. induction codes as [| c codes IH]; intros h; simpl.
  - reflexivity.
  - rewrite generateId_step_spec. apply IH.
Qed.

Lemma generateId_hash_range codes :
  - 2 ^ 31 <= generateId_hash codes < 2 ^ 31.
Proof.
  unfold generateId_hash.
  assert (Hinv : forall h, - 2 ^ 31 <= h < 2 ^ 31 ->
                   - 2 ^ 31 <= fold_left generateId_step codes h < 2 ^ 31).
  { induction codes as [| c codes IH]; intros h Hh; simpl; [exact Hh |].
    apply IH. unfold generateId_step. cbv zeta. rewrite bor_0.
    apply ToInt32_range. }
  apply Hinv. lia.
Qed.

(** The arithmetic of one round stays far inside the range in which
    JavaScript numbers are exact integers. *)
Lemma generateId_step_exact hash char :
  - 2 ^ 31 <= hash < 2 ^ 31 -> 0 <= char < 2 ^ 16 ->
  - 2 ^ 53 < JS.shl hash 5 - hash + char < 2 ^ 53.
Proof.
  intros Hh Hc. pose proof (ToInt32_range (Z.shiftl (JS.ToInt32 hash) (5 mod 32))) as Hs.
  unfold JS.shl. lia.
Qed.

Lemma digit36_value d : 0 <= d < 36 -> JS.digitValue36 (JS.digit36 d) = d.
Proof.
  intros Hd.
  assert (Hall : forallb (fun k => JS.digitValue36 (JS.digit36 (Z.of_nat k)) =? Z.of_nat k)
                   (seq 0 36) = true) by (vm_compute; reflexivity).
  rewrite forallb_forall in Hall.
  specialize (Hall (Z.to_nat d)). rewrite Z2Nat.id in Hall by lia.
  apply Z.eqb_eq, Hall, in_seq. lia.
Qed.

Lemma toString36_go_value fuel : forall n acc,
  0 <= n < 2 ^ Z.of_nat fuel ->
  fold_left (fun v c => v * 36 + JS.digitValue36 c)
    (list_ascii_of_string (JS.toString36_go fuel n acc)) 0 =
  fold_left (fun v c => v * 36 + JS.digitValue36 c) (list_ascii_of_string acc) n.
Proof.
  induction fuel as [| fuel IH]; intros n acc Hn.
  - simpl in *. replace n with 0 by lia. reflexivity.
  - rewrite Nat2Z.inj_succ, Z.pow_succ_r in Hn by lia.
    pose proof (Z.div_mod n 36 ltac:(lia)) as Hdm.
    pose proof (Z.mod_pos_bound n 36 ltac:(lia)) as Hm.
    simpl. destruct (Z.eqb_spec (n / 36) 0) as [Hz | Hnz].
    + simpl. rewrite digit36_value by lia. f_equal. lia.
    + rewrite IH.
      * simpl. rewrite digit36_value by lia. f_equal. lia.
      * split; [apply Z.div_pos; lia |].
        apply Z.div_lt_upper_bound; lia.
Qed.

(** [toString36] never runs out of fuel: the digits it prints denote the
    number it was given. *)
Lemma parse36_toString36 n : 0 <= n -> JS.parse36 (JS.toString36 n) = n.
Proof.
  intros Hn. unfold JS.parse36, JS.toString36.
  rewrite toString36_go_value; [reflexivity |].
  split; [lia |].
  rewrite Nat2Z.inj_succ, Z2Nat.id by apply Z.log2_nonneg.
  destruct (Z.eq_dec n 0) as [-> | Hnz]; [reflexivity |].
  apply Z.log2_spec. lia.
Qed.

(** C5. For every string, the identifier generator returns the token of
    the reference definition: the code units folded into the rolling hash
    [hash*31 + code] wrapped to the signed 32-bit range, the absolute
    value written in base 36 after the tag [rss_]. The generator takes
    the string alone (no clock, no state), so the token of a URL is the
    same at every call and in every session; the base-36 digits denote
    the absolute hash exactly. *)
Theorem generateId_is_reference (s : string) :
  generateId s = IdSpec.identifier s /\
  exists digits,
    generateId s = "rss_" +:+ digits /\
    JS.parse36 digits = Z.abs (IdSpec.rolling_hash (JS.charCodes s)) /\
    JS.parse36 digits <= 2 ^ 31.
Proof.
  unfold generateId, IdSpec.identifier. cbv zeta.
  rewrite generateId_hash_spec. split; [reflexivity |].
  eexists. split; [reflexivity |].
  rewrite parse36_toString36 by apply Z.abs_nonneg.
  split; [reflexivity |].
  pose proof (generateId_hash_range (JS.charCodes s)) as Hr.
  rewrite generateId_hash_spec in Hr. lia.
Qed.

End IdentifierGenerator.

(** ** Deduplicator *)

Section Deduplicator.

Lemma normalizedTitle_normalize t : normalizedTitle t = DedupSpec.normalize t.
Proof.
  unfold normalizedTitle, DedupSpec.normalize, JS.filterString, JS.toLowerCase,
    JS.mapString.
  rewrite list_ascii_of_string_of_list_ascii. f_equal.
  induction (list_ascii_of_string t) as [| ch l IH]; [reflexivity |].
  simpl. unfold DedupSpec.normalizeChar, isAlnumLower at 1. cbv zeta.
  destruct (JS.inRange 97 122 (JS.lowerChar ch) || JS.inRange 48 57 (JS.lowerChar ch));
    simpl; rewrite IH; reflexivity.
Qed.

(** The set the code keeps holds the titles of the kept articles only;
    that is enough, because a dropped article's title is already in it. *)
Lemma filterUnseen_keepFirst l : forall (seen : gset string) (earlier : list string),
  (forall n, n ∈ seen <-> n ∈ earlier) ->
  filterUnseen seen l = DedupSpec.keepFirst earlier l.
Proof.
  induction l as [| a l IH]; intros seen earlier Hsame; simpl; [reflexivity |].
  rewrite normalizedTitle_normalize.
  destruct (decide (DedupSpec.normalize (title a) ∈ seen)) as [Hin | Hout];
    destruct (decide (DedupSpec.normalize (title a) ∈ earlier)) as [Hin' | Hout'];
    try (exfalso; first [apply Hout', Hsame, Hin | apply Hout, Hsame, Hin']).
  - apply IH. intros n. rewrite elem_of_app, list_elem_of_singleton, <- Hsame.
    split; [tauto | intros [? | ->]; assumption].
  - f_equal. apply IH. intros n.
    rewrite elem_of_union, elem_of_singleton, elem_of_app, list_elem_of_singleton, Hsame.
    tauto.
Qed.

Lemma filterUnseen_sublist l : forall seen : gset string,
  sublist (filterUnseen seen l) l.
Proof.
  induction l as [| a l IH]; intros seen; simpl; [constructor |].
  destruct (decide (normalizedTitle (title a) ∈ seen)).
  - apply sublist_cons, IH.
  - apply sublist_skip, IH.
Qed.

Lemma filterUnseen_fresh l : forall (seen : gset string) a,
  a ∈ filterUnseen seen l -> normalizedTitle (title a) ∉ seen.
Proof.
  induction l as [| b l IH]; intros seen a; simpl; [intros H; inversion H |].
  destruct (decide (normalizedTitle (title b) ∈ seen)) as [Hin | Hout].
  - apply IH.
  - intros [-> | Hin]%elem_of_cons; [exact Hout |].
    apply IH in Hin. set_solver.
Qed.

Lemma filterUnseen_NoDup l : forall seen : gset string,
  NoDup (map (fun a => normalizedTitle (title a)) (filterUnseen seen l)).
Proof.
  induction l as [| b l IH]; intros seen; simpl; [constructor |].
  destruct (decide (normalizedTitle (title b) ∈ seen)) as [Hin | Hout]; [apply IH |].
  simpl. constructor; [| apply IH].
  intros Hdup. apply list_elem_of_In, in_map_iff in Hdup as (a & Heq & Ha).
  apply list_elem_of_In, filterUnseen_fresh in Ha. set_solver.
Qed.

Lemma filterUnseen_app pre : forall (seen : gset string) post,
  filterUnseen seen (pre ++ post) =
  filterUnseen seen pre ++
  filterUnseen (list_to_set (map (fun a => normalizedTitle (title a)) pre) ∪ seen) post.
Proof.
  induction pre as [| b pre IH]; intros seen post; simpl.
  - f_equal. set_solver.
  - destruct (decide (normalizedTitle (title b) ∈ seen)) as [Hin | Hout].
    + rewrite IH. do 2 f_equal. set_solver.
    + simpl. rewrite IH. do 3 f_equal. set_solver.
Qed.

(** C3. The deduplicator returns the first occurrences: it equals the
    reference filter that keeps an article if and only if its normalized
    title (lower-cased, everything but [a-z0-9] removed) is not that of an
    earlier article. Position by position, the article after a prefix
    [pre] is kept exactly when no article of [pre] has its normalized
    title; the result is a subsequence of the input (order preserved)
    with pairwise distinct normalized titles; and two articles with equal
    normalized titles are duplicates whatever their URLs. *)
Theorem uniqueArticles_first_occurrences (l : list Article) :
  uniqueArticles l = DedupSpec.firstOccurrences l /\
  (forall pre a post, l = pre ++ a :: post ->
     exists later,
       uniqueArticles l =
       uniqueArticles pre ++
       (if decide (normalizedTitle (title a) ∈
                     map (fun b => normalizedTitle (title b)) pre)
        then [] else [a]) ++ later /\
       sublist later post) /\
  sublist (uniqueArticles l) l /\
  NoDup (map (fun a => normalizedTitle (title a)) (uniqueArticles l)) /\
  (forall a b, normalizedTitle (title a) = normalizedTitle (title b) ->
     uniqueArticles [a; b] = [a]).
Proof.
  unfold uniqueArticles, DedupSpec.firstOccurrences. repeat split.
  - apply filterUnseen_keepFirst. intros n. set_solver.
  - intros pre a post ->. rewrite filterUnseen_app. simpl.
    set (seen := list_to_set _ ∪ ∅).
    assert (Hseen : forall n, n ∈ seen <->
              n ∈ map (fun b => normalizedTitle (title b)) pre).
    { intros n. unfold seen. rewrite elem_of_union, elem_of_list_to_set. set_solver. }
    destruct (decide (normalizedTitle (title a) ∈ seen)) as [Hin | Hout];
      destruct (decide (normalizedTitle (title a) ∈
                          map (fun b => normalizedTitle (title b)) pre))
        as [Hin' | Hout'];
      try (exfalso; first [apply Hout', Hseen, Hin | apply Hout, Hseen, Hin']).
    + eexists. split; [reflexivity | apply filterUnseen_sublist].
    + eexists. split; [reflexivity | apply filterUnseen_sublist].
  - apply filterUnseen_sublist.
  - apply filterUnseen_NoDup.
  - intros a b Hab. simpl.
    destruct (decide (normalizedTitle (title a) ∈ (∅ : gset string))) as [H | _];
      [set_solver |].
    destruct (decide (normalizedTitle (title b) ∈
                        ({[normalizedTitle (title a)]} ∪ ∅ : gset string)))
      as [_ | H]; [reflexivity | set_solver].
Qed.

(** The specification's example pair normalizes to one title. *)
Example normalizedTitle_storm :
  normalizedTitle "Breaking: Storm Hits!" = "breakingstormhits" /\
  normalizedTitle "breaking storm hits" = "breakingstormhits".
Proof. split; vm_compute; reflexivity. Qed.

(** Alphanumeric means [a-z0-9] here: an accented letter is stripped like
    punctuation, so [Cafe] with an acute accent (code unit 233) and [Caf]
    have one normalized title. *)
Example normalizedTitle_accent :
  normalizedTitle ("Caf" +:+ String (JS.ofCode 233) EmptyString) = normalizedTitle "Caf".
Proof. vm_compute. reflexivity. Qed.

End Deduplicator.

(** ** Feed item mapping *)

Section FeedParser.

Lemma length_append (a b : string) :
  String.length (a +:+ b) = (String.length a + String.length b)%nat.
Proof. induction a as [| ch a IH]; simpl; [reflexivity | rewrite IH; reflexivity]. Qed.

Lemma length_slice0 n : forall s : string,
  String.length (JS.slice0 n s) = Nat.min n (String.length s).
Proof.
  unfold JS.slice0. induction n as [| n IH]; intros [| ch s]; simpl; try reflexivity.
  rewrite IH. reflexivity.
Qed.

Lemma slice0_take n : forall s : string,
  list_ascii_of_string (JS.slice0 n s) = take n (list_ascii_of_string s).
Proof.
  unfold JS.slice0. induction n as [| n IH]; intros [| ch s]; simpl; try reflexivity.
  rewrite IH. reflexivity.
Qed.

Lemma list_ascii_of_string_app (a b : string) :
  list_ascii_of_string (a +:+ b) = list_ascii_of_string a ++ list_ascii_of_string b.
Proof. induction a as [| ch a IH]; simpl; [reflexivity | rewrite IH; reflexivity]. Qed.

Lemma slice0_all n (s : string) : (String.length s <= n)%nat -> JS.slice0 n s = s.
Proof.
  unfold JS.slice0. revert s. induction n as [| n IH]; intros [| ch s] Hlen; simpl in *;
    try reflexivity; try lia.
  rewrite IH by lia. reflexivity.
Qed.

Lemma trimStart_split s :
  exists before, s = before +:+ JS.trimStart s /\ FeedSpec.blank before.
Proof.
  induction s as [| ch s (before & Heq & Hblank)]; simpl.
  - exists EmptyString. split; [reflexivity | constructor].
  - destruct (JS.isWhiteSpace ch) eqn:Hch.
    + exists (String ch before). split; [| constructor; assumption].
      change (String ch s = String ch (before +:+ JS.trimStart s)). f_equal. exact Heq.
    + exists EmptyString. split; [reflexivity | constructor].
Qed.

Lemma trimEnd_step ch s :
  JS.trimEnd (String ch s) =
  match JS.trimEnd s with
  | EmptyString => if JS.isWhiteSpace ch then EmptyString else String ch EmptyString
  | r => String ch r
  end.
Proof. reflexivity. Qed.

Lemma trimEnd_split s :
  exists after, s = JS.trimEnd s +:+ after /\ FeedSpec.blank after.
Proof.
  induction s as [| ch s (after & Heq & Hblank)].
  - exists EmptyString. split; [reflexivity | constructor].
  - rewrite trimEnd_step. destruct (JS.trimEnd s) as [| d r].
    + change (s = after) in Heq. subst after. destruct (JS.isWhiteSpace ch) eqn:Hch.
      * exists (String ch s). split; [reflexivity | constructor; assumption].
      * exists s. split; [reflexivity | assumption].
    + exists after. split; [| assumption].
      change (String ch s = String ch (String d r +:+ after)). f_equal. exact Heq.
Qed.

Lemma trimStart_first s ch rest :
  JS.trimStart s = String ch rest -> JS.isWhiteSpace ch = false.
Proof.
  induction s as [| c s IH]; simpl; [discriminate |].
  destruct (JS.isWhiteSpace c) eqn:Hc; [exact IH | congruence].
Qed.

Lemma trimEnd_first s ch rest :
  (forall c r, s = String c r -> JS.isWhiteSpace c = false) ->
  JS.trimEnd s = String ch rest -> JS.isWhiteSpace ch = false.
Proof.
  destruct s as [| c s]; [discriminate |]. intros Hfirst.
  rewrite trimEnd_step. pose proof (Hfirst c s eq_refl) as Hc.
  destruct (JS.trimEnd s); [rewrite Hc |]; congruence.
Qed.

Lemma append_nil_l (s : string) : EmptyString +:+ s = s.
Proof. reflexivity. Qed.

Lemma append_cons ch (a b : string) : String ch a +:+ b = String ch (a +:+ b).
Proof. reflexivity. Qed.

Lemma trimEnd_last s : forall init ch,
  JS.trimEnd s = init +:+ String ch EmptyString -> JS.isWhiteSpace ch = false.
Proof.
  induction s as [| c s IH]; intros init ch.
  - destruct init; discriminate.
  - rewrite trimEnd_step. destruct (JS.trimEnd s) as [| d r] eqn:Hr.
    + destruct (JS.isWhiteSpace c) eqn:Hc.
      * destruct init; discriminate.
      * destruct init as [| i init].
        -- rewrite append_nil_l. intros [= <-]. exact Hc.
        -- rewrite append_cons. intros [= _ Htail]. destruct init; discriminate.
    + destruct init as [| i init].
      * rewrite append_nil_l. discriminate.
      * rewrite append_cons. intros [= _ Htail]. exact (IH init ch Htail).
Qed.

(** [trim] removes the white space at the two ends and nothing else. *)
Lemma trim_trimmed text : FeedSpec.trimmed text (JS.trim text).
Proof.
  unfold JS.trim. split; [| split].
  - destruct (trimStart_split text) as (before & Heq & Hbefore).
    destruct (trimEnd_split (JS.trimStart text)) as (after & Heq' & Hafter).
    exists before, after. split; [| split; assumption].
    rewrite <- Heq'. exact Heq.
  - intros ch rest. apply trimEnd_first. intros c r. apply trimStart_first.
  - apply trimEnd_last.
Qed.

(** C8 (amended). For every feed item, the article's description is made
    from the text content the browser gives for the item's raw
    description: that text without the white space at its two ends, cut
    to its first 200 characters (all of it when it has no more), always
    followed by an ellipsis of three dots, cut or not. The title is the
    item's title, and the placeholder [No Title] when the item has no
    title element or an empty one. *)
Theorem itemArticle_description_title
    (env : Env) (c : Category) (sn : string) (item : Item) :
  let raw := JS.orDefault (item_description item) EmptyString in
  let core := JS.trim (innerHTML_textContent env raw) in
  let a := itemArticle env c sn item in
  FeedSpec.trimmed (innerHTML_textContent env raw) core /\
  list_ascii_of_string (description a) =
    take 200 (list_ascii_of_string core) ++ list_ascii_of_string "..." /\
  ((String.length core <= 200)%nat -> description a = core +:+ "...") /\
  (String.length (description a) = Nat.min 200 (String.length core) + 3)%nat /\
  title a =
    match item_title item with
    | None => "No Title"
    | Some t => if decide (t = EmptyString) then "No Title" else t
    end.
Proof.
  cbv zeta. unfold itemArticle, cleanDescription. cbn [description title].
  split; [apply trim_trimmed |]. split; [| split; [| split]].
  - rewrite list_ascii_of_string_app, slice0_take. reflexivity.
  - intros Hshort. rewrite slice0_all by exact Hshort. reflexivity.
  - rewrite length_append, length_slice0. reflexivity.
  - destruct (item_title item) as [[| ch t] |]; reflexivity.
Qed.

End FeedParser.

(** A marked-up, padded description in a browser that strips the tags. *)
Lemma itemArticle_description_title_witness :
  let a := itemArticle Cases.browser (Feed "world") "EXAMPLE" Cases.paddedItem in
  innerHTML_textContent Cases.browser "<p> Heavy rain. </p>" = " Heavy rain. " /\
  description a = "Heavy rain...." /\ title a = "No Title".
Proof.
  cbv zeta.
  destruct (itemArticle_description_title Cases.browser (Feed "world") "EXAMPLE"
              Cases.paddedItem) as (_ & _ & Hshort & _ & Htitle).
  split; [vm_compute; reflexivity |]. split; [| exact Htitle].
  refine (eq_trans (Hshort _) _); [vm_compute; lia | vm_compute; reflexivity].
Defined.

(** C8 as stated fails on a description with white space at its ends:
    there is no markup to strip and nothing to cut, yet the description
    is neither the raw text nor the raw text followed by the ellipsis. *)
Lemma description_is_trimmed :
  let a := itemArticle Cases.browser (Feed "world") "EXAMPLE" Cases.plainItem in
  item_description Cases.plainItem = Some "  Rain  " /\
  innerHTML_textContent Cases.browser "  Rain  " = "  Rain  " /\
  description a = "Rain..." /\
  description a <> "  Rain  ..." /\
  description a <> "  Rain  ".
Proof. vm_compute. repeat split; discriminate. Qed.

(** ** Relay fan-out *)

Section Fanout.
Context (env : Env) (c : Category) (url : string).

Lemma tryProxy_fails p : FanoutSpec.fails env p -> tryProxy env c url p = None.
Proof.
  unfold tryProxy.
  intros [Hf | r Hf Hok | r Hf Hok Hc | r Hf Hok Hc | r Hf Hok Hc
          | r content Hf Hok Hc Hp | r content Hf Hok Hc Hi];
    rewrite Hf; try (rewrite Hok; simpl); try rewrite Hc; try reflexivity.
  - destruct (JS.truthy content); simpl; [| reflexivity].
    rewrite Hp. reflexivity.
  - destruct (JS.truthy content); simpl; [| reflexivity].
    rewrite Hi. destruct (parsererror _); reflexivity.
Qed.

Lemma tryProxy_yields p its hostname :
  URL_hostname env url = Some hostname ->
  FanoutSpec.yields env p its ->
  tryProxy env c url p = Some (map (itemArticle env c (sourceName hostname)) its).
Proof.
  intros Hh [r content Hf Hok Hc Hne Hp Hi Hits]. unfold tryProxy.
  rewrite Hf, Hok. simpl. rewrite Hc.
  destruct content as [| ch content]; [congruence |]. simpl.
  destruct its as [| it its]; [congruence |].
  rewrite Hp, Hi, Hh. reflexivity.
Qed.

(** Every relay either fails or yields its items: the list of failures
    is complete. *)
Lemma fails_or_yields p :
  FanoutSpec.fails env p \/ exists its, FanoutSpec.yields env p its.
Proof.
  destruct (fetch env (proxy_url p)) as [| r] eqn:Hf; [left; constructor 1; assumption |].
  destruct (ok r) eqn:Hok; [| left; econstructor 2; eassumption].
  destruct (responseContent (proxy_type p) r) as [[content |] |] eqn:Hc;
    [| left; econstructor 4; eassumption | left; econstructor 3; eassumption].
  destruct (decide (content = EmptyString)) as [-> | Hne]; [left; econstructor 5; eassumption |].
  destruct (parsererror (DOMParser_parseFromString env content)) eqn:Hp;
    [left; econstructor 6; eassumption |].
  destruct (items (DOMParser_parseFromString env content)) as [| it its] eqn:Hi;
    [left; econstructor 7; eassumption |].
  right. exists (it :: its). econstructor; try eassumption; congruence.
Qed.

Lemma tryProxies_skip pre : forall rest,
  Forall (FanoutSpec.fails env) pre ->
  tryProxies env c url (pre ++ rest) =
    (fst (tryProxies env c url rest),
     map FanoutSpec.request pre ++ snd (tryProxies env c url rest)).
Proof.
  induction pre as [| p pre IH]; intros rest Hpre; simpl.
  - destruct (tryProxies env c url rest); reflexivity.
  - inversion Hpre as [| ? ? Hp Hpre']; subst.
    rewrite (tryProxy_fails p Hp), IH by assumption. reflexivity.
Qed.

(** C2. For every feed URL (a string [new URL] accepts), the fan-out has
    exactly four relays, in the fixed order allorigins, codetabs,
    corsproxy, thingproxy, and requests each with a 6000 ms abort timer.
    If the relays before some relay all fail (rejected or timed out,
    non-success status, unreadable or empty content, parse error, no
    item) and that relay yields at least one item, the fan-out returns
    that relay's items mapped to articles after requesting exactly the
    relays up to it, in order. If all four fail it returns the empty
    sequence after requesting all four, and it never raises. *)
Theorem fetchFeed_fan_out (hostname : string) :
  URL_hostname env url = Some hostname ->
  map proxy_url (proxies url) =
    [ "https://api.allorigins.win/get?url=" +:+ JS.encodeURIComponent url;
      "https://api.codetabs.com/v1/proxy?quest=" +:+ JS.encodeURIComponent url;
      "https://corsproxy.io/?" +:+ JS.encodeURIComponent url;
      "https://thingproxy.freeboard.io/fetch/" +:+ url ] /\
  (forall pre p post its,
     proxies url = pre ++ p :: post ->
     Forall (FanoutSpec.fails env) pre ->
     FanoutSpec.yields env p its ->
     fetchFeed env c url =
       (map (itemArticle env c (sourceName hostname)) its,
        map FanoutSpec.request (pre ++ [p]))) /\
  (Forall (FanoutSpec.fails env) (proxies url) ->
     fetchFeed env c url = ([], map FanoutSpec.request (proxies url))) /\
  (forall p, FanoutSpec.fails env p \/ exists its, FanoutSpec.yields env p its).
Proof.
  intros Hh. split; [reflexivity |]. split; [| split].
  - intros pre p post its Hsplit Hpre Hy. unfold fetchFeed.
    rewrite Hsplit, tryProxies_skip by assumption. simpl.
    rewrite (tryProxy_yields p its hostname Hh Hy). simpl.
    rewrite map_app. reflexivity.
  - intros Hall. unfold fetchFeed.
    rewrite <- (app_nil_r (proxies url)) at 1.
    rewrite tryProxies_skip by assumption. cbn [tryProxies fst snd].
    rewrite app_nil_r. reflexivity.
  - apply fails_or_yields.
Qed.

End Fanout.

(** ** Encodings behind the audio cache key *)

Section Encoding.

Lemma charCode_range c : 0 <= JS.charCode c < 256.
Proof.
  unfold JS.charCode. pose proof (N_ascii_bounded c). lia.
Qed.

Lemma charCode_inj c1 c2 : JS.charCode c1 = JS.charCode c2 -> c1 = c2.
Proof.
  unfold JS.charCode. intros H%N2Z.inj.
  rewrite <- (ascii_N_embedding c1), <- (ascii_N_embedding c2). congruence.
Qed.

Lemma charCode_ofCode b : JS.isByte b -> JS.charCode (JS.ofCode b) = b.
Proof.
  intros Hb. unfold JS.charCode, JS.ofCode, JS.isByte in *.
  rewrite N_ascii_embedding by lia. lia.
Qed.

Lemma charCodes_binaryString l :
  Forall JS.isByte l -> JS.charCodes (JS.binaryString l) = l.
Proof.
  unfold JS.charCodes, JS.binaryString.
  rewrite list_ascii_of_string_of_list_ascii.
  induction 1 as [| b l Hb _ IH]; simpl; [reflexivity |].
  rewrite charCode_ofCode, IH by assumption. reflexivity.
Qed.

Lemma utf8Char_bytes c : Forall JS.isByte (JS.utf8Char c).
Proof.
  unfold JS.utf8Char, JS.isByte. cbv zeta. pose proof (charCode_range c).
  destruct (Z.ltb_spec (JS.charCode c) 128); repeat constructor;
    Z.to_euclidean_division_equations; lia.
Qed.

Lemma utf8_bytes s : Forall JS.isByte (JS.utf8 s).
Proof.
  unfold JS.utf8. induction (list_ascii_of_string s) as [| c l IH]; simpl.
  - constructor.
  - apply Forall_app. split; [apply utf8Char_bytes | exact IH].
Qed.

(** Distinct strings have distinct UTF-8 encodings. *)
Lemma utf8_inj s1 s2 : JS.utf8 s1 = JS.utf8 s2 -> s1 = s2.
Proof.
  unfold JS.utf8. intros H.
  rewrite <- (string_of_list_ascii_of_string s1), <- (string_of_list_ascii_of_string s2).
  f_equal. revert H.
  generalize (list_ascii_of_string s2). generalize (list_ascii_of_string s1).
  intros l1. induction l1 as [| c1 l1 IH]; intros [| c2 l2]; simpl;
    unfold JS.utf8Char; cbv zeta.
  - reflexivity.
  - destruct (JS.charCode c2 <? 128); discriminate.
  - destruct (JS.charCode c1 <? 128); discriminate.
  - pose proof (charCode_range c1). pose proof (charCode_range c2).
    destruct (Z.ltb_spec (JS.charCode c1) 128), (Z.ltb_spec (JS.charCode c2) 128);
      simpl; intros Heq.
    + injection Heq as Hh Ht. apply charCode_inj in Hh. apply IH in Ht. congruence.
    + exfalso. injection Heq as Hh Ht. Z.to_euclidean_division_equations; lia.
    + exfalso. injection Heq as Hh Ht. Z.to_euclidean_division_equations; lia.
    + injection Heq as Hh Hh2 Ht. apply IH in Ht.
      assert (JS.charCode c1 = JS.charCode c2)
        by (Z.to_euclidean_division_equations; lia).
      f_equal; [apply charCode_inj |]; assumption.
Qed.

Local Ltac eval_encodeURIChar :=
  match goal with
  | |- context [JS.encodeURIChar ?c] =>
      let e := eval vm_compute in (JS.encodeURIChar c) in
      change (JS.encodeURIChar c) with e
  end.

(** [unescape] reads back one encoded character as its UTF-8 bytes,
    whatever follows it. *)
Lemma unescape_encodeURIChar c rest :
  JS.unescape (JS.encodeURIChar c +:+ rest) =
  (fun r => JS.binaryString (JS.utf8Char c) +:+ r) <$> JS.unescape rest.
Proof.
  destruct c as [[] [] [] [] [] [] [] []];
    eval_encodeURIChar; simpl; change (EmptyString +:+ rest) with rest;
    destruct (JS.unescape rest); vm_compute; reflexivity.
Qed.

Lemma binaryString_app l1 l2 :
  JS.binaryString (l1 ++ l2) = JS.binaryString l1 +:+ JS.binaryString l2.
Proof.
  unfold JS.binaryString. induction l1 as [| b l1 IH]; simpl; [reflexivity |].
  rewrite IH. reflexivity.
Qed.

(** The idiom [unescape(encodeURIComponent(s))] is the UTF-8 encoding of
    [s] as a binary string, and it never leaves the byte range. *)
Lemma unescape_encodeURIComponent s :
  JS.unescape (JS.encodeURIComponent s) = Some (JS.binaryString (JS.utf8 s)).
Proof.
  induction s as [| c s IH]; [reflexivity |].
  cbn [JS.encodeURIComponent]. rewrite unescape_encodeURIChar, IH.
  unfold JS.utf8. cbn [list_ascii_of_string flat_map].
  rewrite binaryString_app. reflexivity.
Qed.

Lemma base64Digit_value n : 0 <= n < 64 ->
  JS.base64Value (JS.base64Digit n) = n /\ JS.base64Digit n <> "="%char.
Proof.
  intros Hn.
  assert (Hall : forallb
            (fun k => (JS.base64Value (JS.base64Digit (Z.of_nat k)) =? Z.of_nat k)
                      && negb (JS.charCode (JS.base64Digit (Z.of_nat k)) =? 61))
            (seq 0 64) = true) by (vm_compute; reflexivity).
  rewrite forallb_forall in Hall.
  specialize (Hall (Z.to_nat n)). rewrite Z2Nat.id in Hall by lia.
  destruct (proj1 (andb_true_iff _ _) (Hall ltac:(apply in_seq; lia))) as [H1 H2].
  split; [apply Z.eqb_eq, H1 |].
  intros Heq. rewrite Heq in H2. discriminate H2.
Qed.

Lemma base64Digit_inj m n : 0 <= m < 64 -> 0 <= n < 64 ->
  JS.base64Digit m = JS.base64Digit n -> m = n.
Proof.
  intros Hm Hn Heq.
  rewrite <- (proj1 (base64Digit_value m Hm)), <- (proj1 (base64Digit_value n Hn)), Heq.
  reflexivity.
Qed.

(** Induction three elements at a time, the way [base64] consumes its
    input. *)
Lemma list_ind3 {A} (P : list A -> Prop) :
  P [] -> (forall a, P [a]) -> (forall a b, P [a; b]) ->
  (forall a b c rest, P rest -> P (a :: b :: c :: rest)) ->
  forall l, P l.
Proof.
  intros H0 H1 H2 H3.
  assert (Hall : forall l, P l /\ (forall a, P (a :: l)) /\ (forall a b, P (a :: b :: l))).
  { induction l as [| x l (IH0 & IH1 & IH2)]; [by auto |].
    split; [apply IH1 |]. split; [intros a; apply IH2 |].
    intros a b. apply H3, IH0. }
  intros l. apply Hall.
Qed.

Local Ltac bytes_lia := unfold JS.isByte in *; Z.to_euclidean_division_equations; lia.

Local Ltac digit_is_not_padding :=
  match goal with
  | H : JS.base64Digit ?n = "="%char |- _ =>
      exfalso; apply (proj2 (base64Digit_value n ltac:(bytes_lia))); exact H
  | H : "="%char = JS.base64Digit ?n |- _ =>
      exfalso; apply (proj2 (base64Digit_value n ltac:(bytes_lia))); symmetry; exact H
  end.

Local Ltac equal_digits :=
  repeat match goal with
         | H : JS.base64Digit ?m = JS.base64Digit ?n |- _ =>
             apply base64Digit_inj in H; [| bytes_lia | bytes_lia]
         end.

(** Base64 is injective on byte sequences. *)
Lemma base64_inj l1 : forall l2,
  Forall JS.isByte l1 -> Forall JS.isByte l2 -> JS.base64 l1 = JS.base64 l2 -> l1 = l2.
Proof.
  induction l1 as [| a | a b | a b c l1 IH] using list_ind3;
    intros l2; induction l2 as [| a' | a' b' | a' b' c' l2 _] using list_ind3;
    intros Hl1 Hl2 Heq; simpl in Heq; try discriminate Heq; try reflexivity;
    repeat match goal with
           | H : Forall JS.isByte (_ :: _) |- _ => apply Forall_cons in H as [? H]
           end;
    repeat match goal with
           | H : String _ _ = String _ _ |- _ => injection H as ? ?
           end;
    try digit_is_not_padding; equal_digits.
  - f_equal. bytes_lia.
  - f_equal; [| f_equal]; bytes_lia.
  - match goal with
    | H : JS.base64 _ = JS.base64 _ |- _ => apply IH in H; [| assumption ..]
    end.
    subst. f_equal; [| f_equal; [| f_equal]]; bytes_lia.
Qed.

End Encoding.

(** ** Encoding of strings over all code units *)

Section WideEncoding.

Lemma code_range u : 0 <= Utf16.code u < 65536.
Proof.
  unfold Utf16.code. pose proof (charCode_range (Utf16.high u)).
  pose proof (charCode_range (Utf16.low u)). lia.
Qed.

Lemma code_inj u1 u2 : Utf16.code u1 = Utf16.code u2 -> u1 = u2.
Proof.
  destruct u1 as [h1 l1], u2 as [h2 l2]. unfold Utf16.code. simpl. intros Heq.
  pose proof (charCode_range h1). pose proof (charCode_range l1).
  pose proof (charCode_range h2). pose proof (charCode_range l2).
  assert (JS.charCode h1 = JS.charCode h2) by lia.
  assert (JS.charCode l1 = JS.charCode l2) by lia.
  f_equal; apply charCode_inj; assumption.
Qed.

Lemma utf8CodePoint_bytes k : KeySpec.isCodePoint k -> Forall JS.isByte (Utf16.utf8CodePoint k).
Proof.
  unfold KeySpec.isCodePoint, Utf16.utf8CodePoint, JS.isByte. intros Hk.
  destruct (Z.ltb_spec k 128); [| destruct (Z.ltb_spec k 2048);
    [| destruct (Z.ltb_spec k 65536)]];
    repeat constructor; Z.to_euclidean_division_equations; lia.
Qed.

Lemma codePoints_valid : forall s cps,
  Utf16.codePoints s = Some cps -> Forall KeySpec.isCodePoint cps.
Proof.
  assert (Hboth : forall s,
    (forall cps, Utf16.codePoints s = Some cps -> Forall KeySpec.isCodePoint cps) /\
    (forall u cps, Utf16.codePoints (u :: s) = Some cps -> Forall KeySpec.isCodePoint cps)).
  { induction s as [| t s [IH1 IH2]].
    - split; [intros cps [= <-]; constructor |].
      intros u cps. simpl. destruct (Utf16.isHighSurrogate u); [discriminate |].
      destruct (Utf16.isLowSurrogate u); [discriminate |].
      intros [= <-]. repeat constructor; pose proof (code_range u); unfold KeySpec.isCodePoint; lia.
    - split; [apply IH2 |]. intros u cps.
      change (Utf16.codePoints (u :: t :: s)) with
        (if Utf16.isHighSurrogate u then
           if Utf16.isLowSurrogate t
           then cons (Utf16.pairCodePoint u t) <$> Utf16.codePoints s
           else None
         else if Utf16.isLowSurrogate u then None
         else cons (Utf16.code u) <$> Utf16.codePoints (t :: s)).
      destruct (Utf16.isHighSurrogate u) eqn:Hh.
      + destruct (Utf16.isLowSurrogate t) eqn:Hl; [| discriminate].
        destruct (Utf16.codePoints s) as [rest |] eqn:Hs; [| discriminate].
        intros [= <-]. constructor; [| apply IH1; reflexivity].
        unfold Utf16.isHighSurrogate, Utf16.isLowSurrogate in *.
        unfold KeySpec.isCodePoint, Utf16.pairCodePoint. lia.
      + destruct (Utf16.isLowSurrogate u); [discriminate |].
        destruct (Utf16.codePoints (t :: s)) as [rest |] eqn:Hs; [| discriminate].
        intros [= <-]. constructor; [| apply IH2 with t; exact Hs].
        pose proof (code_range u). unfold KeySpec.isCodePoint. lia. }
  intros s. apply Hboth.
Qed.


Lemma list_ind_pairs {A} (P : list A -> Prop) :
  P [] -> (forall u, P [u]) ->
  (forall u t s, P s -> P (t :: s) -> P (u :: t :: s)) ->
  forall s, P s.
Proof.
  intros H0 H1 H2.
  assert (Hboth : forall s, P s /\ forall u, P (u :: s)).
  { induction s as [| t s [IH1 IH2]]; [by auto |].
    split; [apply IH2 |]. intros u. apply H2; [exact IH1 | apply IH2]. }
  intros s. apply Hboth.
Qed.

Lemma codePoints_unit u :
  Utf16.codePoints [u] =
  if Utf16.isHighSurrogate u || Utf16.isLowSurrogate u then None
  else Some [Utf16.code u].
Proof.
  simpl. destruct (Utf16.isHighSurrogate u); [reflexivity |].
  destruct (Utf16.isLowSurrogate u); reflexivity.
Qed.

Lemma codePoints_cons u t s :
  Utf16.codePoints (u :: t :: s) =
  if Utf16.isHighSurrogate u then
    if Utf16.isLowSurrogate t
    then cons (Utf16.pairCodePoint u t) <$> Utf16.codePoints s
    else None
  else if Utf16.isLowSurrogate u then None
  else cons (Utf16.code u) <$> Utf16.codePoints (t :: s).
Proof. reflexivity. Qed.

(** The strings [codePoints] reads are the well-formed ones. *)
Lemma codePoints_wellFormed s :
  is_Some (Utf16.codePoints s) <-> KeySpec.wellFormed s.
Proof.
  induction s as [| u | u t s IH1 IH2] using list_ind_pairs.
  - split; [constructor | by eexists].
  - rewrite codePoints_unit. split.
    + destruct (Utf16.isHighSurrogate u) eqn:Hh; [intros [x [=]] |].
      destruct (Utf16.isLowSurrogate u) eqn:Hl; [intros [x [=]] |].
      intros _. apply KeySpec.wellFormed_unit; [assumption .. | constructor].
    + inversion 1 as [| ? ? Hh Hl _ |]; subst. rewrite Hh, Hl. by eexists.
  - rewrite codePoints_cons. split.
    + destruct (Utf16.isHighSurrogate u) eqn:Hh.
      * destruct (Utf16.isLowSurrogate t) eqn:Hl; [| intros [x [=]]].
        intros Hs. apply KeySpec.wellFormed_pair; [assumption .. |].
        apply IH1. destruct (Utf16.codePoints s); [by eexists |].
        destruct Hs as [x [=]].
      * destruct (Utf16.isLowSurrogate u) eqn:Hl; [intros [x [=]] |].
        intros Hs. apply KeySpec.wellFormed_unit; [assumption .. |].
        apply IH2. destruct (Utf16.codePoints (t :: s)); [by eexists |].
        destruct Hs as [x [=]].
    + inversion 1 as [| ? ? Hh Hl Hs | ? ? ? Hh Hl Hs]; subst.
      * rewrite Hh, Hl. apply IH2 in Hs as [x ->]. by eexists.
      * rewrite Hh, Hl. apply IH1 in Hs as [x ->]. by eexists.
Qed.

Lemma append_nil_r (s : string) : s +:+ EmptyString = s.
Proof. induction s as [| ch s IH]; [reflexivity |]. rewrite append_cons, IH. reflexivity. Qed.

Lemma append_assoc (a b c : string) : (a +:+ b) +:+ c = a +:+ b +:+ c.
Proof.
  induction a as [| ch a IH]; [reflexivity |]. rewrite !append_cons, IH. reflexivity.
Qed.

Lemma concat_empty_cons (x : string) (xs : list string) :
  String.concat EmptyString (x :: xs) = x +:+ String.concat EmptyString xs.
Proof. destruct xs; [symmetry; apply append_nil_r | reflexivity]. Qed.

Local Ltac eval_percentByte :=
  match goal with
  | |- context [JS.percentByte (JS.charCode ?c)] =>
      let e := eval vm_compute in (JS.percentByte (JS.charCode c)) in
      change (JS.percentByte (JS.charCode c)) with e
  end.

(** [unescape] reads [%XX] back as the byte it names, whatever follows. *)
Lemma unescape_percentByte b rest : JS.isByte b ->
  JS.unescape (JS.percentByte b +:+ rest) = String (JS.ofCode b) <$> JS.unescape rest.
Proof.
  intros Hb. rewrite <- (charCode_ofCode b Hb) at 1.
  generalize (JS.ofCode b). intros c.
  destruct c as [[] [] [] [] [] [] [] []];
    eval_percentByte; rewrite !append_cons, append_nil_l;
    simpl; destruct (JS.unescape rest); reflexivity.
Qed.

Lemma unescape_bytes l : forall rest, Forall JS.isByte l ->
  JS.unescape (String.concat EmptyString (map JS.percentByte l) +:+ rest) =
  (fun r => JS.binaryString l +:+ r) <$> JS.unescape rest.
Proof.
  induction l as [| b l IH]; intros rest Hl.
  - simpl. rewrite append_nil_l. destruct (JS.unescape rest); reflexivity.
  - apply Forall_cons in Hl as [Hb Hl].
    cbn [map]. rewrite concat_empty_cons, append_assoc, unescape_percentByte by exact Hb.
    rewrite IH by exact Hl. destruct (JS.unescape rest); reflexivity.
Qed.

(** An unreserved character is read back as it is. *)
Lemma unescape_unreserved c rest : JS.uriUnreserved c = true ->
  JS.unescape (String c rest) = String c <$> JS.unescape rest.
Proof.
  destruct c as [[] [] [] [] [] [] [] []]; try discriminate; intros _;
    simpl; destruct (JS.unescape rest); reflexivity.
Qed.

Lemma unescape_escapeCodePoint k rest : KeySpec.isCodePoint k ->
  JS.unescape (Utf16.escapeCodePoint k +:+ rest) =
  (fun r => JS.binaryString (Utf16.utf8CodePoint k) +:+ r) <$> JS.unescape rest.
Proof.
  intros Hk. unfold Utf16.escapeCodePoint.
  destruct ((k <? 128) && JS.uriUnreserved (JS.ofCode k)) eqn:Hplain.
  - apply andb_true_iff in Hplain as [Hlow Hun].
    rewrite append_cons, append_nil_l, unescape_unreserved by exact Hun.
    unfold Utf16.utf8CodePoint. rewrite Hlow. reflexivity.
  - apply unescape_bytes, utf8CodePoint_bytes, Hk.
Qed.

Lemma utf8_bytes16 cps : Forall KeySpec.isCodePoint cps -> Forall JS.isByte (Utf16.utf8 cps).
Proof.
  unfold Utf16.utf8. induction 1 as [| k cps Hk _ IH]; simpl; [constructor |].
  apply Forall_app. split; [apply utf8CodePoint_bytes, Hk | exact IH].
Qed.

Lemma unescape_escaped cps : Forall KeySpec.isCodePoint cps ->
  JS.unescape (String.concat EmptyString (map Utf16.escapeCodePoint cps)) =
  Some (JS.binaryString (Utf16.utf8 cps)).
Proof.
  induction 1 as [| k cps Hk _ IH]; [reflexivity |].
  cbn [map]. rewrite concat_empty_cons, unescape_escapeCodePoint, IH by exact Hk.
  unfold Utf16.utf8. cbn [flat_map fmap option_fmap option_map].
  rewrite binaryString_app. reflexivity.
Qed.

(** The idiom [btoa(unescape(encodeURIComponent(s)))] never ends in
    [btoa]'s error: it is the base64 text of the UTF-8 octets of the
    code points of [s], or the [URIError] of a string that has none. *)
Lemma audioCacheKey_spec text :
  Gemini.audioCacheKey text =
  match Utf16.codePoints (Gemini.keySource text) with
  | Some cps => Gemini.CacheKey (JS.base64 (Utf16.utf8 cps))
  | None => Gemini.URIError
  end.
Proof.
  unfold Gemini.audioCacheKey, Utf16.encodeURIComponent.
  destruct (Utf16.codePoints (Gemini.keySource text)) as [cps |] eqn:Hcps; [| reflexivity].
  cbn [fmap option_fmap option_map].
  rewrite unescape_escaped by (eapply codePoints_valid, Hcps).
  unfold JS.btoa. rewrite charCodes_binaryString; [reflexivity |].
  eapply utf8_bytes16, codePoints_valid, Hcps.
Qed.


(** The octets of a code point tell where it ends and which it is. *)
Lemma utf8CodePoint_prefix_free k1 k2 l1 l2 :
  KeySpec.isCodePoint k1 -> KeySpec.isCodePoint k2 ->
  Utf16.utf8CodePoint k1 ++ l1 = Utf16.utf8CodePoint k2 ++ l2 -> k1 = k2 /\ l1 = l2.
Proof.
  unfold KeySpec.isCodePoint, Utf16.utf8CodePoint. intros H1 H2.
  destruct (Z.ltb_spec k1 128); [| destruct (Z.ltb_spec k1 2048);
    [| destruct (Z.ltb_spec k1 65536)]];
  (destruct (Z.ltb_spec k2 128); [| destruct (Z.ltb_spec k2 2048);
    [| destruct (Z.ltb_spec k2 65536)]]);
  cbn [app]; intros Heq; injection Heq as ?; subst;
    first [ split; [Z.to_euclidean_division_equations; lia | reflexivity]
          | exfalso; Z.to_euclidean_division_equations; lia ].
Qed.

Lemma utf8_inj16 cps1 : forall cps2,
  Forall KeySpec.isCodePoint cps1 -> Forall KeySpec.isCodePoint cps2 ->
  Utf16.utf8 cps1 = Utf16.utf8 cps2 -> cps1 = cps2.
Proof.
  unfold Utf16.utf8.
  induction cps1 as [| k1 cps1 IH]; intros [| k2 cps2] Hv1 Hv2; cbn [flat_map].
  - reflexivity.
  - intros Heq. exfalso. apply Forall_cons in Hv2 as [Hk _].
    unfold KeySpec.isCodePoint, Utf16.utf8CodePoint in *.
    destruct (k2 <? 128); [| destruct (k2 <? 2048); [| destruct (k2 <? 65536)]];
      discriminate.
  - intros Heq. exfalso. apply Forall_cons in Hv1 as [Hk _].
    unfold KeySpec.isCodePoint, Utf16.utf8CodePoint in *.
    destruct (k1 <? 128); [| destruct (k1 <? 2048); [| destruct (k1 <? 65536)]];
      discriminate.
  - apply Forall_cons in Hv1 as [Hk1 Hv1]. apply Forall_cons in Hv2 as [Hk2 Hv2].
    intros Heq. apply utf8CodePoint_prefix_free in Heq as [-> Heq]; [| assumption ..].
    f_equal. apply IH; assumption.
Qed.

(** How a string that has code points starts. *)
Lemma codePoints_Some_inv s cps :
  Utf16.codePoints s = Some cps ->
  (s = [] /\ cps = []) \/
  (exists u rest cps',
     s = u :: rest /\ Utf16.code u < 65536 /\
     Utf16.codePoints rest = Some cps' /\ cps = Utf16.code u :: cps') \/
  (exists u t rest cps',
     s = u :: t :: rest /\
     Utf16.isHighSurrogate u = true /\ Utf16.isLowSurrogate t = true /\
     Utf16.codePoints rest = Some cps' /\ cps = Utf16.pairCodePoint u t :: cps').
Proof.
  destruct s as [| u [| t rest]].
  - intros [= <-]. by left.
  - rewrite codePoints_unit. destruct (_ || _); [discriminate |]. intros [= <-].
    right. left. exists u, [], []. pose proof (code_range u). by auto with lia.
  - rewrite codePoints_cons. destruct (Utf16.isHighSurrogate u) eqn:Hh.
    + destruct (Utf16.isLowSurrogate t) eqn:Hl; [| discriminate].
      destruct (Utf16.codePoints rest) as [cps' |] eqn:Hrest; [| discriminate].
      intros [= <-]. right. right. exists u, t, rest, cps'. by auto.
    + destruct (Utf16.isLowSurrogate u); [discriminate |].
      destruct (Utf16.codePoints (t :: rest)) as [cps' |] eqn:Hrest; [| discriminate].
      intros [= <-]. right. left. exists u, (t :: rest), cps'.
      pose proof (code_range u). by auto with lia.
Qed.

(** Distinct strings have distinct code point sequences. *)
Lemma codePoints_inj cps : forall s1 s2,
  Utf16.codePoints s1 = Some cps -> Utf16.codePoints s2 = Some cps -> s1 = s2.
Proof.
  assert (Hpair : forall u t, Utf16.isHighSurrogate u = true ->
            Utf16.isLowSurrogate t = true -> 65536 <= Utf16.pairCodePoint u t).
  { unfold Utf16.isHighSurrogate, Utf16.isLowSurrogate, Utf16.pairCodePoint.
    intros u t Hu Ht. lia. }
  assert (Hpair_inj : forall u t u' t',
            Utf16.isHighSurrogate u = true -> Utf16.isLowSurrogate t = true ->
            Utf16.isHighSurrogate u' = true -> Utf16.isLowSurrogate t' = true ->
            Utf16.pairCodePoint u t = Utf16.pairCodePoint u' t' -> u = u' /\ t = t').
  { unfold Utf16.isHighSurrogate, Utf16.isLowSurrogate, Utf16.pairCodePoint.
    intros u t u' t' Hu Ht Hu' Ht' Heq. split; apply code_inj; lia. }
  induction cps as [| k cps IH]; intros s1 s2 H1 H2;
    apply codePoints_Some_inv in H1, H2.
  - destruct H1 as [[-> _] | [(u & r & c & _ & _ & _ & [=]) |
                               (u & t & r & c & _ & _ & _ & _ & [=])]].
    destruct H2 as [[-> _] | [(u & r & c & _ & _ & _ & [=]) |
                               (u & t & r & c & _ & _ & _ & _ & [=])]].
    reflexivity.
  - destruct H1 as [[_ [=]] | [(u1 & r1 & c1 & -> & Hu1 & Hr1 & [= -> ->]) |
                                (u1 & t1 & r1 & c1 & -> & Hh1 & Hl1 & Hr1 & [= -> ->])]];
    destruct H2 as [[_ [=]] | [(u2 & r2 & c2 & -> & Hu2 & Hr2 & [= Hk <-]) |
                                (u2 & t2 & r2 & c2 & -> & Hh2 & Hl2 & Hr2 & [= Hk <-])]].
    + apply code_inj in Hk as ->. f_equal. apply IH; assumption.
    + pose proof (Hpair u2 t2 Hh2 Hl2). lia.
    + pose proof (Hpair u1 t1 Hh1 Hl1). lia.
    + destruct (Hpair_inj u1 t1 u2 t2 Hh1 Hl1 Hh2 Hl2 Hk) as [-> ->].
      f_equal. f_equal. apply IH; assumption.
Qed.

(** Two texts have the same key exactly when the strings their keys
    encode are the same. *)
Lemma audioCacheKey_inj t1 t2 key :
  Gemini.audioCacheKey t1 = Gemini.CacheKey key ->
  (Gemini.audioCacheKey t2 = Gemini.CacheKey key <->
   Gemini.keySource t1 = Gemini.keySource t2).
Proof.
  rewrite !audioCacheKey_spec. intros H1. split.
  - intros H2.
    destruct (Utf16.codePoints (Gemini.keySource t1)) as [cps1 |] eqn:Hc1; [| discriminate].
    destruct (Utf16.codePoints (Gemini.keySource t2)) as [cps2 |] eqn:Hc2; [| discriminate].
    injection H1 as <-. injection H2 as H2.
    pose proof (codePoints_valid _ _ Hc1) as Hv1.
    pose proof (codePoints_valid _ _ Hc2) as Hv2.
    apply base64_inj in H2; [| apply utf8_bytes16; assumption ..].
    apply utf8_inj16 in H2; [| assumption ..]. subst cps2.
    exact (codePoints_inj cps1 _ _ Hc1 Hc2).
  - intros <-. exact H1.
Qed.

Lemma audioCacheKey_URIError text :
  Gemini.audioCacheKey text = Gemini.URIError <->
  ~ KeySpec.wellFormed (Gemini.keySource text).
Proof.
  rewrite audioCacheKey_spec, <- codePoints_wellFormed.
  destruct (Utf16.codePoints (Gemini.keySource text)); split.
  - discriminate.
  - intros H. exfalso. apply H. by eexists.
  - intros _ [x [=]].
  - reflexivity.
Qed.

Lemma audioCacheKey_valid text : Gemini.audioCacheKey text <> Gemini.InvalidCharacterError.
Proof.
  rewrite audioCacheKey_spec. destruct (Utf16.codePoints _); discriminate.
Qed.

End WideEncoding.


(** ** Tiered cache reader *)

Section CacheReader.
Context (env : Env) (c : Category).

Lemma probeSupabase_trace : snd (probeSupabase env c) = CacheSpec.remoteTrace env c.
Proof.
  unfold probeSupabase, CacheSpec.remoteTrace.
  destruct (isSupabaseConfigured env); [| reflexivity].
  destruct (rss_feed_cache env c) as [| [row |] [e |]]; try reflexivity.
  destruct (row_articles row) as [[| a arts] |]; try reflexivity.
  cbv zeta. destruct (row_updated_at row) as [t |]; [| reflexivity].
  destruct (_ <? _); reflexivity.
Qed.

Lemma probeSupabase_fresh articles :
  CacheSpec.remoteFresh env c articles ->
  probeSupabase env c = (Fresh articles, CacheSpec.remoteTrace env c).
Proof.
  intros (Hconf & row & t & Hrow & Harts & Hne & Ht & Hage).
  unfold probeSupabase, CacheSpec.remoteTrace. rewrite Hconf, Hrow, Harts, Ht.
  destruct articles as [| a arts]; [congruence |]. cbv zeta.
  rewrite (proj2 (Z.ltb_lt _ _) Hage). reflexivity.
Qed.

Lemma probeSupabase_fresh_inv articles tr :
  probeSupabase env c = (Fresh articles, tr) -> CacheSpec.remoteFresh env c articles.
Proof.
  unfold probeSupabase, CacheSpec.remoteFresh.
  destruct (isSupabaseConfigured env); [| discriminate].
  destruct (rss_feed_cache env c) as [| [row |] [e |]]; try discriminate.
  destruct (row_articles row) as [[| a arts] |] eqn:Harts; try discriminate.
  cbv zeta. destruct (row_updated_at row) as [t |] eqn:Ht; [| discriminate].
  destruct (Z.ltb_spec (Date_now env AtRemoteCheck - t) CACHE_DURATION); [| discriminate].
  intros [= <- <-]. split; [reflexivity |].
  exists row, t. repeat split; try assumption; discriminate.
Qed.

Lemma probeLocal_fresh value :
  CacheSpec.localFresh env c value ->
  probeLocal env c = (Fresh value, [EvGetItem (cacheKey env c)]).
Proof.
  intros (ts & Hitem & Hage). unfold probeLocal. rewrite Hitem. cbv zeta.
  rewrite (proj2 (Z.ltb_lt _ _) Hage). reflexivity.
Qed.

(** A failed read of the remote tier leaves what a missing row leaves. *)
Lemma probeSupabase_error :
  CacheSpec.remoteError env c ->
  probeSupabase env c = probeSupabase (CacheSpec.withoutRemoteRow env) c.
Proof.
  unfold probeSupabase. simpl.
  intros [Hq | (data & e & Hq)]; rewrite Hq; [reflexivity | destruct data; reflexivity].
Qed.

Lemma probeLocal_error :
  CacheSpec.localError env c ->
  probeLocal env c = probeLocal (CacheSpec.withoutLocalEntry env) c.
Proof.
  unfold CacheSpec.localError, probeLocal. simpl.
  change (cacheKey (CacheSpec.withoutLocalEntry env) c) with (cacheKey env c).
  intros ->. reflexivity.
Qed.

End CacheReader.

(** The relays and the live fetch do not look at the cache tiers. *)
Lemma liveFetch_withoutRemoteRow env c feedUrls :
  liveFetch (CacheSpec.withoutRemoteRow env) c feedUrls = liveFetch env c feedUrls.
Proof. reflexivity. Qed.

Lemma liveFetch_withoutLocalEntry env c feedUrls :
  liveFetch (CacheSpec.withoutLocalEntry env) c feedUrls = liveFetch env c feedUrls.
Proof. reflexivity. Qed.

Lemma fetchLive_withoutRemoteRow env c s1 s2 :
  fetchLive (CacheSpec.withoutRemoteRow env) c s1 s2 = fetchLive env c s1 s2.
Proof.
  unfold fetchLive. simpl.
  change (liveFetch (CacheSpec.withoutRemoteRow env) c) with (liveFetch env c).
  reflexivity.
Qed.

Lemma fetchLive_withoutLocalEntry env c s1 s2 :
  fetchLive (CacheSpec.withoutLocalEntry env) c s1 s2 = fetchLive env c s1 s2.
Proof.
  unfold fetchLive. simpl.
  change (liveFetch (CacheSpec.withoutLocalEntry env) c) with (liveFetch env c).
  reflexivity.
Qed.

Lemma fetchNewsForCategory_feed (env : Env) (c : Category) :
  c <> AZAD_STUDIO -> c <> GALLERY ->
  fetchNewsForCategory env c =
    match probeSupabase env c with
    | (Fresh articles, tr1) => (Returns (Batch articles), tr1)
    | (Stale supabaseStaleData, tr1) =>
        match probeLocal env c with
        | (Fresh value, tr2) => (Returns value, tr1 ++ tr2)
        | (Stale localStaleData, tr2) =>
            let '(result, tr3) := fetchLive env c supabaseStaleData localStaleData in
            (result, tr1 ++ tr2 ++ tr3)
        end
    end.
Proof.
  intros Hs Hg. unfold fetchNewsForCategory.
  destruct (decide (c = AZAD_STUDIO)); [contradiction |].
  destruct (decide (c = GALLERY)); [contradiction | reflexivity].
Qed.

Section FreshCache.
Context (env : Env) (c : Category).

(** C1 (amended). For every category other than the two special ones:
    when the remote row is read without error and holds a non-empty
    batch younger than the freshness window, the function returns exactly
    that batch after the one remote read (the local store is not read, no
    relay is requested); otherwise, when the local entry is younger than
    the window, it returns exactly what the entry holds as its batch
    (empty or not) after the remote read (if configured) and the local
    read, in that order, with no relay request. A failed read at either
    tier changes nothing compared with an absent entry at that tier. *)
Theorem fetchNewsForCategory_fresh_cache :
  c <> AZAD_STUDIO -> c <> GALLERY ->
  (forall articles, CacheSpec.remoteFresh env c articles ->
     fetchNewsForCategory env c =
       (Returns (Batch articles), CacheSpec.remoteTrace env c) /\
     CacheSpec.noRelayFetch (snd (fetchNewsForCategory env c))) /\
  (forall value,
     (forall a, ~ CacheSpec.remoteFresh env c a) ->
     CacheSpec.localFresh env c value ->
     fetchNewsForCategory env c =
       (Returns value, CacheSpec.remoteTrace env c ++ [EvGetItem (cacheKey env c)]) /\
     CacheSpec.noRelayFetch (snd (fetchNewsForCategory env c))) /\
  (CacheSpec.remoteError env c ->
     fetchNewsForCategory env c =
     fetchNewsForCategory (CacheSpec.withoutRemoteRow env) c) /\
  (CacheSpec.localError env c ->
     fetchNewsForCategory env c =
     fetchNewsForCategory (CacheSpec.withoutLocalEntry env) c).
Proof.
  intros Hs Hg.
  assert (Hquiet : CacheSpec.noRelayFetch (CacheSpec.remoteTrace env c)).
  { unfold CacheSpec.noRelayFetch, CacheSpec.remoteTrace.
    destruct (isSupabaseConfigured env); repeat constructor. }
  repeat split.
  - rewrite fetchNewsForCategory_feed, (probeSupabase_fresh env c articles) by assumption.
    reflexivity.
  - rewrite fetchNewsForCategory_feed, (probeSupabase_fresh env c articles) by assumption.
    exact Hquiet.
  - rewrite fetchNewsForCategory_feed by assumption.
    pose proof (probeSupabase_trace env c) as Htr.
    destruct (probeSupabase env c) as [[a | s] tr1] eqn:Hp.
    + exfalso. apply (H a), (probeSupabase_fresh_inv env c a tr1 Hp).
    + simpl in Htr. subst tr1.
      rewrite (probeLocal_fresh env c value) by assumption. reflexivity.
  - rewrite fetchNewsForCategory_feed by assumption.
    pose proof (probeSupabase_trace env c) as Htr.
    destruct (probeSupabase env c) as [[a | s] tr1] eqn:Hp.
    + exfalso. apply (H a), (probeSupabase_fresh_inv env c a tr1 Hp).
    + simpl in Htr. subst tr1.
      rewrite (probeLocal_fresh env c value) by assumption. simpl.
      apply Forall_app. split; [exact Hquiet | repeat constructor].
  - intros Herr. rewrite !fetchNewsForCategory_feed by assumption.
    rewrite <- (probeSupabase_error env c Herr).
    change (probeLocal (CacheSpec.withoutRemoteRow env) c) with (probeLocal env c).
    destruct (probeSupabase env c) as [[a | s1] tr1]; [reflexivity |].
    destruct (probeLocal env c) as [[a | s2] tr2]; [reflexivity |].
    rewrite fetchLive_withoutRemoteRow. reflexivity.
  - intros Herr. rewrite !fetchNewsForCategory_feed by assumption.
    rewrite <- (probeLocal_error env c Herr).
    change (probeSupabase (CacheSpec.withoutLocalEntry env) c) with (probeSupabase env c).
    destruct (probeSupabase env c) as [[a | s1] tr1]; [reflexivity |].
    destruct (probeLocal env c) as [[a | s2] tr2]; [reflexivity |].
    rewrite fetchLive_withoutLocalEntry. reflexivity.
Qed.

End FreshCache.

(** A fresh remote row is served after the single remote read. *)
Lemma fetchNewsForCategory_fresh_cache_witness :
  Feed "world" <> AZAD_STUDIO /\ Feed "world" <> GALLERY /\
  CacheSpec.remoteFresh Scenario.freshRemoteRow (Feed "world") [Scenario.cached] /\
  fetchNewsForCategory Scenario.freshRemoteRow (Feed "world") =
    (Returns (Batch [Scenario.cached]), [EvSelect "rss_feed_cache" "world"]).
Proof.
  assert (Hfresh : CacheSpec.remoteFresh Scenario.freshRemoteRow (Feed "world")
                     [Scenario.cached]).
  { split; [reflexivity |]. eexists _, _.
    repeat split; try reflexivity. discriminate. }
  split; [discriminate |]. split; [discriminate |]. split; [exact Hfresh |].
  destruct (fetchNewsForCategory_fresh_cache Scenario.freshRemoteRow (Feed "world")
              ltac:(discriminate) ltac:(discriminate)) as (Hremote & _).
  exact (proj1 (Hremote _ Hfresh)).
Defined.

(** C1 as stated fails in two ways. A special category is answered from
    its own table and never from the cache, even with a fresh entry under
    its key; and a fresh remote row holding an empty batch does not stop
    the live fetch. *)
Lemma fresh_cache_not_served :
  (CacheSpec.localFresh Scenario.studioWithLocalEntry AZAD_STUDIO
     (Batch [Scenario.cached]) /\
   fst (fetchNewsForCategory Scenario.studioWithLocalEntry AZAD_STUDIO) =
     Returns (Batch [])) /\
  (isSupabaseConfigured Scenario.emptyRemoteRow = true /\
   rss_feed_cache Scenario.emptyRemoteRow (Feed "world") = Scenario.rowOf [] Scenario.now /\
   Date_now Scenario.emptyRemoteRow AtRemoteCheck - Scenario.now < CACHE_DURATION /\
   fst (fetchNewsForCategory Scenario.emptyRemoteRow (Feed "world")) =
     Returns (Batch [Scenario.stormArticle]) /\
   Exists (fun e => isFetch e = true)
     (snd (fetchNewsForCategory Scenario.emptyRemoteRow (Feed "world")))).
Proof.
  split.
  - split; [| reflexivity]. exists Scenario.now. split; reflexivity.
  - repeat split; try reflexivity.
    vm_compute. apply Exists_cons_tl, Exists_cons_tl, Exists_cons_hd. reflexivity.
Qed.

(** ** Stale fallback *)

Section StaleFallback.
Context (env : Env) (c : Category).

Lemma liveFetch_batch feedUrls :
  uniqueArticles (fst (liveFetch env c feedUrls)) = CacheSpec.liveBatch env c feedUrls.
Proof.
  unfold liveFetch, CacheSpec.liveBatch. simpl. rewrite map_map. reflexivity.
Qed.




End StaleFallback.



(** ** Examples for the fan-out and the deduplicator *)

(** The first relay is down and the second answers: two requests, in
    order, and the second relay's item comes back as an article. *)
Lemma fetchFeed_fan_out_witness :
  URL_hostname Scenario.liveFeed Scenario.feedUrl = Some "feeds.example.org" /\
  fetchFeed Scenario.liveFeed (Feed "world") Scenario.feedUrl =
    ([Scenario.stormArticle],
     [ EvFetch "https://api.allorigins.win/get?url=https%3A%2F%2Ffeeds.example.org%2Frss" 6000;
       EvFetch "https://api.codetabs.com/v1/proxy?quest=https%3A%2F%2Ffeeds.example.org%2Frss" 6000 ]).
Proof.
  split; [reflexivity |].
  destruct (fetchFeed_fan_out Scenario.liveFeed (Feed "world") Scenario.feedUrl
              "feeds.example.org" eq_refl) as (_ & Hfirst & _).
  refine (Hfirst [_] _ [_; _] [Scenario.stormItem] eq_refl _ _).
  - constructor; [| constructor]. apply FanoutSpec.fails_rejected. reflexivity.
  - eapply (FanoutSpec.yields_items _ _ _ _ Scenario.feedXml);
      first [reflexivity | discriminate].
Defined.

(** Two sources, one headline: the second article is a duplicate. *)
Lemma uniqueArticles_first_occurrences_witness :
  url Scenario.stormArticle <> url Scenario.stormEcho /\
  normalizedTitle (title Scenario.stormArticle) = normalizedTitle (title Scenario.stormEcho) /\
  uniqueArticles [Scenario.stormArticle; Scenario.stormEcho] = [Scenario.stormArticle].
Proof.
  assert (Hsame : normalizedTitle (title Scenario.stormArticle) =
                  normalizedTitle (title Scenario.stormEcho))
    by (vm_compute; reflexivity).
  split; [discriminate |]. split; [exact Hsame |].
  destruct (uniqueArticles_first_occurrences
              [Scenario.stormArticle; Scenario.stormEcho]) as (_ & _ & _ & _ & Hdup).
  exact (Hdup Scenario.stormArticle Scenario.stormEcho Hsame).
Defined.

(** ** Article enrichment *)

Section Enrichment.
Import Gemini.

Lemma generations_app tr1 tr2 :
  generations (tr1 ++ tr2) = (generations tr1 + generations tr2)%nat.
Proof. unfold generations. rewrite List.filter_app, length_app. reflexivity. Qed.

Lemma upserts_app tr1 tr2 :
  upserts (tr1 ++ tr2) = (upserts tr1 + upserts tr2)%nat.
Proof. unfold upserts. rewrite List.filter_app, length_app. reflexivity. Qed.


(** The remote lookup that follows a miss in the in-process cache. *)
Lemma enhanceArticle_miss sv st id title description :
  articleMemoryCache st !! id = None ->
  enhanceArticle sv st id title description =
    let lookup :=
      if isSupabaseConfigured sv
      then (remoteHit (ai_articles_cache sv id), [Select "ai_articles_cache" id])
      else (None, []) in
    match lookup.1 with
    | Some content => (content, setArticle st id content, lookup.2)
    | None =>
        match (generateArticle sv title description).1 with
        | Some content =>
            (content, setArticle st id content,
             lookup.2 ++ (generateArticle sv title description).2 ++
             (if isSupabaseConfigured sv then [UpsertArticle id content] else []))
        | None =>
            (fallbackContent description, st,
             lookup.2 ++ (generateArticle sv title description).2)
        end
    end.
Proof.
  intros Hmem. unfold enhanceArticle. rewrite Hmem. cbv zeta.
  destruct (isSupabaseConfigured sv); simpl.
  - destruct (remoteHit (ai_articles_cache sv id)); [reflexivity |].
    destruct (generateArticle sv title description) as [[content |] tr2]; reflexivity.
  - destruct (generateArticle sv title description) as [[content |] tr2]; reflexivity.
Qed.

Lemma enhanceArticle_hit sv st id title description v :
  articleMemoryCache st !! id = Some v ->
  enhanceArticle sv st id title description = (v, st, []).
Proof. intros Hmem. unfold enhanceArticle. rewrite Hmem. reflexivity. Qed.


End Enrichment.


(** ** Audio enrichment *)

Section Audio.
Import Gemini.

Lemma generateNewsAudio_key_error sv st text :
  audioCacheKey text = URIError ->
  generateNewsAudio sv st text = (ThrowsURIError, st, []).
Proof. intros Hkey. unfold generateNewsAudio. rewrite Hkey. reflexivity. Qed.

Lemma generateNewsAudio_hit sv st text key cached :
  audioCacheKey text = CacheKey key ->
  audioMemoryCache st !! key = Some cached ->
  generateNewsAudio sv st text = (AudioData cached, st, []).
Proof.
  intros Hkey Hmem. unfold generateNewsAudio. rewrite Hkey, Hmem. reflexivity.
Qed.

(** The body of [generateNewsAudio] after a miss in the in-process
    cache. *)
Lemma generateNewsAudio_miss sv st text key :
  audioCacheKey text = CacheKey key ->
  audioMemoryCache st !! key = None ->
  generateNewsAudio sv st text =
    match (if isSupabaseConfigured sv
           then remoteHit (ai_audio_cache sv key) else None) with
    | Some audio_data =>
        (AudioData audio_data, setAudio st key audio_data,
         audioLookup (isSupabaseConfigured sv) key)
    | None =>
        if negb (Utf16.truthy (cleanText text))
        then (Throws "Audio generation failed: Empty text", st,
              audioLookup (isSupabaseConfigured sv) key)
        else
          match (synthesize sv (speechText text)).1 with
          | Some base64Audio =>
              (AudioData base64Audio, setAudio st key base64Audio,
               audioLookup (isSupabaseConfigured sv) key ++
               (synthesize sv (speechText text)).2 ++
               (if isSupabaseConfigured sv then [UpsertAudio key base64Audio] else []))
          | None =>
              (Throws "TTS generation failed.", st,
               audioLookup (isSupabaseConfigured sv) key ++
               (synthesize sv (speechText text)).2)
          end
    end.
Proof.
  intros Hkey Hmem. unfold generateNewsAudio. rewrite Hkey, Hmem. unfold audioLookup.
  destruct (isSupabaseConfigured sv); simpl.
  - destruct (remoteHit (ai_audio_cache sv key)); [reflexivity |].
    destruct (Utf16.truthy (cleanText text)); [| reflexivity]. simpl.
    destruct (synthesize sv (speechText text)) as [[audio |] tr2]; reflexivity.
  - destruct (Utf16.truthy (cleanText text)); [| reflexivity]. simpl.
    destruct (synthesize sv (speechText text)) as [[audio |] tr2]; reflexivity.
Qed.

(** The three ways the key computation ends. *)
Lemma audioCacheKey_cases text :
  (exists key, audioCacheKey text = CacheKey key /\ KeySpec.wellFormed (keySource text)) \/
  (audioCacheKey text = URIError /\ ~ KeySpec.wellFormed (keySource text)).
Proof.
  destruct (audioCacheKey text) as [key | |] eqn:Hkey.
  - left. exists key. split; [reflexivity |].
    apply codePoints_wellFormed. rewrite audioCacheKey_spec in Hkey.
    destruct (Utf16.codePoints (keySource text)); [by eexists | discriminate].
  - right. split; [reflexivity | apply audioCacheKey_URIError, Hkey].
  - exfalso. exact (audioCacheKey_valid text Hkey).
Qed.

Lemma truthy_false (s : list Utf16.CodeUnit) : Utf16.truthy s = false <-> s = [].
Proof. destruct s; simpl; split; congruence. Qed.



Lemma audioLookup_no_generation configured key :
  generations (audioLookup configured key) = 0%nat.
Proof. destruct configured; reflexivity. Qed.

(** C10. The caches are consulted before the text is cleaned or
    validated. When the in-process cache holds an entry under the key
    computed for the text, the cached payload is returned with no remote
    read, no generation and an unchanged session, whatever the cleaned
    text is; when only the remote table holds a row, its payload is
    returned and stored in process, again whatever the cleaned text is.
    The empty-text error is therefore raised only when the key was
    computed and both lookups missed. *)
Theorem generateNewsAudio_cache_first
    (sv : Services) (st : Session) (text : list Utf16.CodeUnit) :
  (forall key cached,
     audioCacheKey text = CacheKey key ->
     audioMemoryCache st !! key = Some cached ->
     generateNewsAudio sv st text = (AudioData cached, st, [])) /\
  (forall key audio_data,
     audioCacheKey text = CacheKey key ->
     audioMemoryCache st !! key = None ->
     isSupabaseConfigured sv = true ->
     ai_audio_cache sv key = Resolved (Some audio_data) None ->
     generateNewsAudio sv st text =
       (AudioData audio_data, setAudio st key audio_data, [Select "ai_audio_cache" key])) /\
  (forall st' tr,
     generateNewsAudio sv st text =
       (Throws "Audio generation failed: Empty text", st', tr) ->
     exists key,
       audioCacheKey text = CacheKey key /\
       audioMemoryCache st !! key = None /\
       (isSupabaseConfigured sv = true -> remoteHit (ai_audio_cache sv key) = None) /\
       cleanText text = []).
Proof.
  split; [| split].
  - intros key cached. apply generateNewsAudio_hit.
  - intros key audio_data Hkey Hmem Hconf Hrow.
    rewrite (generateNewsAudio_miss _ _ _ key), Hconf, Hrow by assumption. reflexivity.
  - intros st' tr.
    destruct (audioCacheKey_cases text) as [(key & Hkey & _) | [Hkey _]];
      [| rewrite (generateNewsAudio_key_error _ _ _ Hkey); discriminate].
    destruct (audioMemoryCache st !! key) as [cached |] eqn:Hmem.
    { rewrite (generateNewsAudio_hit sv st text key cached Hkey Hmem). discriminate. }
    rewrite (generateNewsAudio_miss _ _ _ key) by assumption.
    destruct (isSupabaseConfigured sv).
    + destruct (remoteHit (ai_audio_cache sv key)) eqn:Hrow; [discriminate |].
      destruct (Utf16.truthy (cleanText text)) eqn:Hclean; simpl.
      * destruct (synthesize sv (speechText text)).1; discriminate.
      * intros _. exists key. split; [exact Hkey |]. split; [exact Hmem |].
        split; [intros _; exact Hrow | apply truthy_false, Hclean].
    + destruct (Utf16.truthy (cleanText text)) eqn:Hclean; simpl.
      * destruct (synthesize sv (speechText text)).1; discriminate.
      * intros _. exists key. split; [exact Hkey |]. split; [exact Hmem |].
        split; [discriminate | apply truthy_false, Hclean].
Qed.


(** C9 (amended). The key is the base64 text of the UTF-8 octets of the
    code points of [keySource]: the first 100 code units of the trimmed
    input followed by the decimal length of the raw input (and there is
    no key when that string has no code points, a surrogate in it being
    unpaired). Two inputs have the same key exactly when they have the
    same [keySource], in particular whenever their trimmed heads and
    their lengths agree, whatever text they narrate. Every successful
    call leaves the returned audio in the in-process cache under that
    key. *)
Theorem audioCacheKey_fingerprint (t1 t2 : list Utf16.CodeUnit) :
  audioCacheKey t1 =
    match Utf16.codePoints
            (Utf16.slice0 100 (Utf16.trim t1) ++ Utf16.ofString (pretty (length t1))) with
    | Some cps => CacheKey (JS.base64 (Utf16.utf8 cps))
    | None => URIError
    end /\
  (forall key, audioCacheKey t1 = CacheKey key ->
     (audioCacheKey t2 = CacheKey key <-> keySource t1 = keySource t2)) /\
  (Utf16.slice0 100 (Utf16.trim t1) = Utf16.slice0 100 (Utf16.trim t2) ->
   length t1 = length t2 ->
   audioCacheKey t1 = audioCacheKey t2) /\
  (forall sv st audio st' tr,
     generateNewsAudio sv st t1 = (AudioData audio, st', tr) ->
     exists key, audioCacheKey t1 = CacheKey key /\
                 audioMemoryCache st' !! key = Some audio).
Proof.
  split; [apply audioCacheKey_spec |]. split; [apply audioCacheKey_inj |]. split.
  - intros Hhead Hlen. rewrite !audioCacheKey_spec. unfold keySource.
    rewrite Hhead, Hlen. reflexivity.
  - intros sv st audio st' tr.
    destruct (audioCacheKey_cases t1) as [(key & Hkey & _) | [Hkey _]];
      [| rewrite (generateNewsAudio_key_error _ _ _ Hkey); discriminate].
    intros Hcall. exists key. split; [exact Hkey |]. revert Hcall.
    destruct (audioMemoryCache st !! key) as [cached |] eqn:Hmem.
    { rewrite (generateNewsAudio_hit sv st t1 key cached Hkey Hmem). congruence. }
    rewrite (generateNewsAudio_miss _ _ _ key) by assumption.
    destruct (if isSupabaseConfigured sv then _ else None).
    { intros [= <- <- <-]. apply lookup_insert_eq. }
    destruct (Utf16.truthy (cleanText t1)); simpl; [| discriminate].
    destruct (synthesize sv (speechText t1)).1; [| discriminate].
    intros [= <- <- <-]. apply lookup_insert_eq.
Qed.

End Audio.

(** *** Examples for the audio cache *)

(** A text of markup only, asked for after a text with the same head and
    length was narrated: the cached audio of the other text comes back. *)
Lemma generateNewsAudio_cache_first_witness :
  Gemini.cleanText Scenario.markupOnly = [] /\
  Gemini.audioCacheKey Scenario.markupOnly = Gemini.CacheKey Scenario.headedKey /\
  Gemini.audioMemoryCache Scenario.afterNarration !! Scenario.headedKey = Some "UklGRg==" /\
  Gemini.generateNewsAudio Scenario.unreachable Scenario.afterNarration Scenario.markupOnly =
    (Gemini.AudioData "UklGRg==", Scenario.afterNarration, []).
Proof.
  assert (Hkey : Gemini.audioCacheKey Scenario.markupOnly =
                 Gemini.CacheKey Scenario.headedKey) by (vm_compute; reflexivity).
  assert (Hcached :
    Gemini.audioMemoryCache Scenario.afterNarration !! Scenario.headedKey =
      Some "UklGRg==") by (vm_compute; reflexivity).
  split; [vm_compute; reflexivity |]. split; [exact Hkey |]. split; [exact Hcached |].
  destruct (generateNewsAudio_cache_first Scenario.unreachable Scenario.afterNarration
              Scenario.markupOnly) as (Hhit & _).
  exact (Hhit _ _ Hkey Hcached).
Defined.



(** Two texts with the same head and length share a key. *)
Lemma audioCacheKey_fingerprint_witness :
  Utf16.slice0 100 (Utf16.trim Scenario.headedText) =
    Utf16.slice0 100 (Utf16.trim Scenario.headedOther) /\
  length Scenario.headedText = length Scenario.headedOther /\
  Gemini.audioCacheKey Scenario.headedText = Gemini.audioCacheKey Scenario.headedOther.
Proof.
  assert (Hhead : Utf16.slice0 100 (Utf16.trim Scenario.headedText) =
                  Utf16.slice0 100 (Utf16.trim Scenario.headedOther))
    by (vm_compute; reflexivity).
  assert (Hlen : length Scenario.headedText = length Scenario.headedOther)
    by (vm_compute; reflexivity).
  split; [exact Hhead |]. split; [exact Hlen |].
  destruct (audioCacheKey_fingerprint Scenario.headedText Scenario.headedOther)
    as (_ & _ & Hsame & _).
  exact (Hsame Hhead Hlen).
Defined.

(** C9 as stated fails in both directions: two inputs that narrate the
    same text have different keys, and two inputs that narrate different
    texts have the same key. *)
Lemma audioCacheKey_not_of_narration :
  (Gemini.speechText (Utf16.ofString "hello") =
     Gemini.speechText (Utf16.ofString "hello #") /\
   Gemini.audioCacheKey (Utf16.ofString "hello") = Gemini.CacheKey "aGVsbG81" /\
   Gemini.audioCacheKey (Utf16.ofString "hello #") = Gemini.CacheKey "aGVsbG8gIzc=") /\
  (Gemini.speechText Scenario.headedText = Utf16.ofString "hi" /\
   Gemini.speechText Scenario.headedOther = Utf16.ofString "yo" /\
   Gemini.audioCacheKey Scenario.headedText = Gemini.audioCacheKey Scenario.headedOther).
Proof. repeat split; vm_compute; reflexivity. Qed.

(** * Further properties of the services *)

(** ** Identifier generator: shape of the token and collisions *)

Section IdentifierToken.

Lemma digit36_alnum n : isAlnumLower (JS.digit36 (n mod 36)) = true.
Proof.
  pose proof (Z.mod_pos_bound n 36 ltac:(lia)) as Hd.
  assert (Hall : forallb (fun k => isAlnumLower (JS.digit36 (Z.of_nat k))) (seq 0 36) = true)
    by (vm_compute; reflexivity).
  rewrite forallb_forall in Hall.
  specialize (Hall (Z.to_nat (n mod 36))). rewrite Z2Nat.id in Hall by lia.
  apply Hall, in_seq. lia.
Qed.

Lemma toString36_go_alnum fuel : forall n acc,
  Forall (fun ch => isAlnumLower ch = true) (list_ascii_of_string acc) ->
  Forall (fun ch => isAlnumLower ch = true)
    (list_ascii_of_string (JS.toString36_go fuel n acc)).
Proof.
  induction fuel as [| fuel IH]; intros n acc Hacc; simpl; [exact Hacc |].
  assert (Hacc' : Forall (fun ch => isAlnumLower ch = true)
                    (list_ascii_of_string (String (JS.digit36 (n mod 36)) acc)))
    by (simpl; constructor; [apply digit36_alnum | exact Hacc]).
  destruct (n / 36 =? 0); [exact Hacc' | apply IH, Hacc'].
Qed.

Lemma toString36_go_grows fuel : forall n acc,
  (String.length acc <= String.length (JS.toString36_go fuel n acc))%nat.
Proof.
  induction fuel as [| fuel IH]; intros n acc; simpl; [lia |].
  destruct (n / 36 =? 0); simpl; [lia |].
  etransitivity; [| apply IH]. simpl. lia.
Qed.

Lemma toString36_go_length fuel : forall n acc k,
  0 <= n < 36 ^ Z.of_nat (S k) ->
  (String.length (JS.toString36_go fuel n acc) <= String.length acc + S k)%nat.
Proof.
  induction fuel as [| fuel IH]; intros n acc k Hn; simpl; [lia |].
  destruct (Z.eqb_spec (n / 36) 0) as [Hz | Hnz]; simpl; [lia |].
  destruct k as [| k].
  - exfalso. apply Hnz. apply Z.div_small. simpl in Hn. lia.
  - etransitivity; [apply (IH _ _ k) |]; [| simpl; lia].
    rewrite (Nat2Z.inj_succ (S k)), Z.pow_succ_r in Hn by lia.
    split; [apply Z.div_pos; lia |].
    apply Z.div_lt_upper_bound; lia.
Qed.

(** X1. Every identifier is [rss_] followed by one to six characters, all
    of them digits or lower-case letters. *)
Theorem generateId_token_shape (s : string) :
  exists digits,
    generateId s = "rss_" +:+ digits /\
    (1 <= String.length digits <= 6)%nat /\
    Forall (fun ch => isAlnumLower ch = true) (list_ascii_of_string digits).
Proof.
  unfold generateId. cbv zeta. eexists. split; [reflexivity |].
  pose proof (generateId_hash_range (JS.charCodes s)) as Hr.
  set (n := Z.abs (generateId_hash (JS.charCodes s))) in *.
  unfold JS.toString36. repeat split.
  - pose proof (toString36_go_grows (Z.to_nat (Z.log2 n)) (n / 36)
                  (String (JS.digit36 (n mod 36)) EmptyString)) as Hg.
    simpl. destruct (n / 36 =? 0); simpl in *; lia.
  - apply (toString36_go_length _ n EmptyString 5).
    change (36 ^ Z.of_nat 6) with 2176782336. lia.
  - apply toString36_go_alnum. constructor.
Qed.

Lemma charCodes_app a b : JS.charCodes (a +:+ b) = JS.charCodes a ++ JS.charCodes b.
Proof.
  unfold JS.charCodes. induction a as [| ch a IH]; simpl; [reflexivity |].
  f_equal. exact IH.
Qed.

Lemma wrap_signed32_step x k c :
  IdSpec.wrap_signed32 (IdSpec.wrap_signed32 x * k + c) = IdSpec.wrap_signed32 (x * k + c).
Proof.
  apply wrap_signed32_congr.
  rewrite Z.add_mod, Z.mul_mod, wrap_signed32_mod, <- Z.mul_mod, <- Z.add_mod by lia.
  reflexivity.
Qed.

(** X2. Collisions are systematic: replacing an occurrence of [Aa] by
    [BB] anywhere in a string gives a different string with the same
    identifier. *)
Theorem generateId_collides (prefix suffix : string) :
  prefix +:+ "Aa" +:+ suffix <> prefix +:+ "BB" +:+ suffix /\
  generateId (prefix +:+ "Aa" +:+ suffix) = generateId (prefix +:+ "BB" +:+ suffix).
Proof.
  split.
  - intros Heq. apply String.app_inj in Heq. discriminate Heq.
  - unfold generateId. cbv zeta.
    assert (Hhash : generateId_hash (JS.charCodes (prefix +:+ "Aa" +:+ suffix)) =
                    generateId_hash (JS.charCodes (prefix +:+ "BB" +:+ suffix))).
    { unfold generateId_hash. rewrite !charCodes_app, !fold_left_app.
      change (JS.charCodes "Aa") with [65; 97]. change (JS.charCodes "BB") with [66; 66].
      cbn [fold_left]. rewrite !generateId_step_spec, !wrap_signed32_step.
      set (h := fold_left generateId_step (JS.charCodes prefix) 0).
      replace ((h * 31 + 65) * 31 + 97) with ((h * 31 + 66) * 31 + 66) by lia.
      reflexivity. }
    rewrite Hhash. reflexivity.
Qed.

End IdentifierToken.

(** ** Title normalization and the deduplicator *)

Section Normalization.

Lemma string_of_list_ascii_app l1 l2 :
  string_of_list_ascii (l1 ++ l2) = string_of_list_ascii l1 +:+ string_of_list_ascii l2.
Proof. induction l1 as [| ch l1 IH]; simpl; [reflexivity | rewrite IH; reflexivity]. Qed.

Lemma lowerChar_alnum ch : isAlnumLower ch = true -> JS.lowerChar ch = ch.
Proof.
  destruct ch as [[] [] [] [] [] [] [] []]; vm_compute; intros H;
    first [reflexivity | discriminate H].
Qed.

Lemma normalizedTitle_chars t :
  list_ascii_of_string (normalizedTitle t) =
  List.filter isAlnumLower (map JS.lowerChar (list_ascii_of_string t)).
Proof.
  unfold normalizedTitle, JS.filterString, JS.toLowerCase, JS.mapString.
  rewrite !list_ascii_of_string_of_list_ascii. reflexivity.
Qed.

(** X3. A normalized title consists of digits and lower-case letters
    only; normalizing is idempotent and distributes over concatenation,
    so inserting or removing punctuation, spaces or accented letters
    anywhere in a title does not change what it is compared by. *)
Theorem normalizedTitle_normal_form (a b : string) :
  Forall (fun ch => isAlnumLower ch = true) (list_ascii_of_string (normalizedTitle a)) /\
  normalizedTitle (normalizedTitle a) = normalizedTitle a /\
  normalizedTitle (a +:+ b) = normalizedTitle a +:+ normalizedTitle b /\
  (normalizedTitle b = EmptyString -> normalizedTitle (a +:+ b) = normalizedTitle a).
Proof.
  assert (Hchars : Forall (fun ch => isAlnumLower ch = true)
                     (list_ascii_of_string (normalizedTitle a))).
  { rewrite normalizedTitle_chars. apply Forall_forall. intros ch Hin.
    apply list_elem_of_In, filter_In in Hin. apply Hin. }
  assert (Happ : normalizedTitle (a +:+ b) = normalizedTitle a +:+ normalizedTitle b).
  { rewrite <- (string_of_list_ascii_of_string (normalizedTitle (a +:+ b))).
    rewrite normalizedTitle_chars, list_ascii_of_string_app, map_app, List.filter_app.
    rewrite string_of_list_ascii_app, <- !normalizedTitle_chars.
    rewrite !string_of_list_ascii_of_string. reflexivity. }
  split; [exact Hchars |]. split; [| split; [exact Happ |]].
  - rewrite <- (string_of_list_ascii_of_string (normalizedTitle (normalizedTitle a))).
    rewrite <- (string_of_list_ascii_of_string (normalizedTitle a)) at 2.
    f_equal. rewrite (normalizedTitle_chars (normalizedTitle a)).
    induction Hchars as [| ch l Hch _ IH]; simpl; [reflexivity |].
    rewrite (lowerChar_alnum ch Hch), Hch, IH. reflexivity.
  - intros Hb. rewrite Happ, Hb.
    generalize (normalizedTitle a). intros s.
    induction s as [| ch s IH]; [reflexivity |].
    change (String ch (s +:+ EmptyString) = String ch s). f_equal. exact IH.
Qed.

Lemma filterUnseen_fixed l : forall seen : gset string,
  NoDup (map (fun a => normalizedTitle (title a)) l) ->
  (forall a, a ∈ l -> normalizedTitle (title a) ∉ seen) ->
  filterUnseen seen l = l.
Proof.
  induction l as [| a l IH]; intros seen Hnd Hfresh; simpl; [reflexivity |].
  simpl in Hnd. apply NoDup_cons in Hnd as [Hnotin Hnd].
  destruct (decide (normalizedTitle (title a) ∈ seen)) as [Hin | _].
  - exfalso. apply (Hfresh a); [left | exact Hin].
  - f_equal. apply IH; [exact Hnd |].
    intros b Hb. rewrite elem_of_union, elem_of_singleton.
    intros [Heq | Hin]; [| apply (Hfresh b); [right; exact Hb | exact Hin]].
    apply Hnotin. rewrite <- Heq.
    apply list_elem_of_In, in_map_iff. exists b.
    split; [reflexivity | apply list_elem_of_In, Hb].
Qed.

Lemma filterUnseen_covers l : forall (seen : gset string) a,
  a ∈ l ->
  normalizedTitle (title a) ∈ seen \/
  exists b, b ∈ filterUnseen seen l /\ normalizedTitle (title b) = normalizedTitle (title a).
Proof.
  induction l as [| x l IH]; intros seen a Ha; [inversion Ha |]. simpl.
  apply elem_of_cons in Ha as [-> | Ha].
  - destruct (decide (normalizedTitle (title x) ∈ seen)) as [Hin | Hout]; [by left |].
    right. exists x. split; [left | reflexivity].
  - destruct (decide (normalizedTitle (title x) ∈ seen)) as [Hin | Hout].
    + apply IH, Ha.
    + destruct (IH ({[normalizedTitle (title x)]} ∪ seen) a Ha) as [Hseen | (b & Hb & Heq)].
      * apply elem_of_union in Hseen as [Hx%elem_of_singleton | Hseen]; [| by left].
        right. exists x. split; [left | congruence].
      * right. exists b. split; [right; exact Hb | exact Heq].
Qed.

(** X4. Deduplicating loses no headline and is idempotent: every article
    of the input has an article with the same normalized title in the
    output, the output is never longer than the input, and deduplicating
    a deduplicated batch (what a cached batch is) changes nothing. *)
Theorem uniqueArticles_covers_idempotent (l : list Article) :
  (forall a, a ∈ l ->
     exists b, b ∈ uniqueArticles l /\
               normalizedTitle (title b) = normalizedTitle (title a)) /\
  (length (uniqueArticles l) <= length l)%nat /\
  uniqueArticles (uniqueArticles l) = uniqueArticles l /\
  (uniqueArticles l = [] <-> l = []).
Proof.
  unfold uniqueArticles. repeat split.
  - intros a Ha. destruct (filterUnseen_covers l ∅ a Ha) as [Hin | Hex]; [set_solver | exact Hex].
  - apply sublist_length, filterUnseen_sublist.
  - apply filterUnseen_fixed; [apply filterUnseen_NoDup | set_solver].
  - destruct l as [| a l]; [reflexivity |]. simpl.
    destruct (decide (normalizedTitle (title a) ∈ (∅ : gset string))); [set_solver | discriminate].
  - intros ->. reflexivity.
Qed.

End Normalization.

(** ** Relay fan-out: requests, invalid feed URLs, produced articles *)

Section FanoutMore.
Context (env : Env) (c : Category) (url : string).

Lemma tryProxy_Some_inv p articles :
  tryProxy env c url p = Some articles ->
  exists hostname its,
    URL_hostname env url = Some hostname /\
    FanoutSpec.yields env p its /\
    articles = map (itemArticle env c (sourceName hostname)) its /\
    articles <> [].
Proof.
  unfold tryProxy.
  destruct (fetch env (proxy_url p)) as [| r] eqn:Hf; [discriminate |].
  destruct (ok r) eqn:Hok; [| discriminate]. simpl.
  destruct (responseContent (proxy_type p) r) as [[content |] |] eqn:Hc; try discriminate.
  destruct (JS.truthy content) eqn:Ht; [| discriminate]. simpl.
  destruct (parsererror (DOMParser_parseFromString env content)) eqn:Hp; [discriminate |].
  destruct (items (DOMParser_parseFromString env content)) as [| it its] eqn:Hi;
    [discriminate |].
  destruct (URL_hostname env url) as [hostname |]; [| discriminate].
  intros [= <-]. exists hostname, (it :: its). split; [reflexivity |].
  split; [| split; [reflexivity | discriminate]].
  econstructor; try eassumption; [| discriminate].
  intros ->. discriminate Ht.
Qed.

Lemma tryProxy_invalid_url p :
  URL_hostname env url = None -> tryProxy env c url p = None.
Proof.
  intros Hh. destruct (tryProxy env c url p) as [articles |] eqn:Ht; [| reflexivity].
  apply tryProxy_Some_inv in Ht as (h & _ & Hh' & _). congruence.
Qed.

(** The loop requests a prefix of the relays: it goes on while relays give
    nothing and ends with the first that gives articles. *)
Lemma tryProxies_prefix ps :
  exists k, (k <= length ps)%nat /\
    snd (tryProxies env c url ps) = map FanoutSpec.request (take k ps) /\
    (forall p, p ∈ take (k - 1) ps -> tryProxy env c url p = None) /\
    ((exists p, ps !! (k - 1)%nat = Some p /\ (1 <= k)%nat /\
                tryProxy env c url p = Some (fst (tryProxies env c url ps))) \/
     (k = length ps /\ fst (tryProxies env c url ps) = [] /\
      forall p, p ∈ ps -> tryProxy env c url p = None)).
Proof.
  induction ps as [| p ps (k & Hk & Htr & Hnone & Hres)]; simpl.
  - exists 0%nat. split; [lia |]. split; [reflexivity |].
    split; [intros p Hp; inversion Hp |].
    right. split; [reflexivity |]. split; [reflexivity |]. intros p Hp. inversion Hp.
  - destruct (tryProxy env c url p) as [articles |] eqn:Hp.
    + exists 1%nat. simpl. split; [lia |]. split; [reflexivity |].
      split; [intros q Hq; inversion Hq |].
      left. exists p. split; [reflexivity |]. split; [lia | exact Hp].
    + destruct (tryProxies env c url ps) as [articles tr]. simpl in *.
      exists (S k). split; [lia |]. split; [simpl; rewrite Htr; reflexivity |].
      destruct Hres as [(q & Hq & Hk1 & Hsome) | (-> & Hempty & Hall)].
      * split.
        { destruct k as [| k]; [lia |]. simpl in *. rewrite Nat.sub_0_r in *.
          intros x [-> | Hx]%elem_of_cons; [exact Hp | apply Hnone, Hx]. }
        left. exists q. split; [| split; [lia | exact Hsome]].
        destruct k as [| k]; [lia |]. simpl in *. rewrite Nat.sub_0_r in *. exact Hq.
      * split.
        { simpl. rewrite Nat.sub_0_r. intros x Hx. apply elem_of_take in Hx as (i & Hx & _).
          apply list_elem_of_lookup_2 in Hx.
          apply elem_of_cons in Hx as [-> | Hx]; [exact Hp | apply Hall, Hx]. }
        right. split; [reflexivity |]. split; [exact Hempty |].
        intros x [-> | Hx]%elem_of_cons; [exact Hp | apply Hall, Hx].
Qed.

(** X5. Whatever the relays answer and whatever the feed URL is, a feed
    costs between one and four requests, made in the fixed order with
    the 6000 ms timer; the loop stops before the fourth relay only with
    articles in hand, and articles always come from the last relay
    requested, every relay before it having given nothing. *)
Theorem fetchFeed_requests :
  exists k, (1 <= k <= 4)%nat /\
    snd (fetchFeed env c url) = map FanoutSpec.request (take k (proxies url)) /\
    ((k < 4)%nat -> fst (fetchFeed env c url) <> []) /\
    (fst (fetchFeed env c url) <> [] ->
     exists p its,
       proxies url !! (k - 1)%nat = Some p /\ FanoutSpec.yields env p its /\
       Forall (FanoutSpec.fails env) (take (k - 1) (proxies url))).
Proof.
  unfold fetchFeed.
  destruct (tryProxies_prefix (proxies url)) as (k & Hk & Htr & Hnone & Hres).
  destruct Hres as [(p & Hp & Hk1 & Hsome) | (-> & Hempty & Hall)].
  - exists k. simpl in Hk. split; [lia |]. split; [exact Htr |].
    apply tryProxy_Some_inv in Hsome as (h & its & Hh & Hy & Heq & Hne).
    split; [intros _; exact Hne |].
    intros _. exists p, its. split; [exact Hp |]. split; [exact Hy |].
    apply Forall_forall. intros q Hq.
    destruct (fails_or_yields env q) as [Hf | (its' & Hy')]; [exact Hf |].
    specialize (Hnone q Hq).
    rewrite (tryProxy_yields env c url q its' h Hh Hy') in Hnone. discriminate.
  - exists 4%nat. split; [lia |]. split; [exact Htr |].
    split; [lia |]. intros Hne. contradiction.
Qed.

Lemma tryProxies_all_none ps :
  (forall p, p ∈ ps -> tryProxy env c url p = None) ->
  tryProxies env c url ps = ([], map FanoutSpec.request ps).
Proof.
  induction ps as [| p ps IH]; intros Hall; simpl; [reflexivity |].
  rewrite (Hall p) by left. rewrite IH by (intros q Hq; apply Hall; right; exact Hq).
  reflexivity.
Qed.

(** X6. A feed whose URL [new URL] rejects yields nothing, whatever the
    relays answer: the source name is computed inside the [try], so each
    relay's answer is thrown away and all four relays are requested. *)
Theorem fetchFeed_invalid_url :
  URL_hostname env url = None ->
  fetchFeed env c url = ([], map FanoutSpec.request (proxies url)).
Proof.
  intros Hh. unfold fetchFeed. apply tryProxies_all_none.
  intros p _. apply tryProxy_invalid_url, Hh.
Qed.

Lemma fetchFeed_from_items :
  fst (fetchFeed env c url) = [] \/
  exists hostname its,
    URL_hostname env url = Some hostname /\
    fst (fetchFeed env c url) = map (itemArticle env c (sourceName hostname)) its.
Proof.
  unfold fetchFeed.
  destruct (tryProxies_prefix (proxies url)) as (k & _ & _ & _ & Hres).
  destruct Hres as [(p & _ & _ & Hsome) | (_ & Hempty & _)]; [| by left].
  apply tryProxy_Some_inv in Hsome as (h & its & Hh & _ & Heq & _).
  right. exists h, its. split; [exact Hh | exact Heq].
Qed.

End FanoutMore.

(** X7. Every article a feed produces carries the requested category,
    the source name of the feed's host, an identifier that is the hash
    of its own URL, a non-empty title, a description of 3 to 203
    characters, an image field that is always defined and no translated
    description; an item without a link gets the empty URL and the
    identifier [rss_0]. *)
Theorem fetchFeed_articles (env : Env) (c : Category) (feed : string) (a : Article) :
  a ∈ fst (fetchFeed env c feed) ->
  category a = c /\
  (exists hostname,
     URL_hostname env feed = Some hostname /\ source a = sourceName hostname) /\
  id a = generateId (url a) /\
  (url a = EmptyString -> id a = "rss_0") /\
  title a <> EmptyString /\
  (3 <= String.length (description a) <= 203)%nat /\
  is_Some (imageUrl a) /\
  descriptionRomanUrdu a = None.
Proof.
  intros Ha.
  destruct (fetchFeed_from_items env c feed) as [Hempty | (h & its & Hh & Heq)].
  { rewrite Hempty in Ha. inversion Ha. }
  rewrite Heq in Ha. apply list_elem_of_In, in_map_iff in Ha as (item & <- & _).
  unfold itemArticle. simpl. split; [reflexivity |].
  split; [exists h; split; [exact Hh | reflexivity] |].
  split; [reflexivity |]. split; [intros ->; reflexivity |].
  split.
  - destruct (item_title item) as [[| ch t] |]; discriminate.
  - split; [| split; [eexists; reflexivity | reflexivity]].
    unfold cleanDescription. rewrite length_append, length_slice0.
    change (String.length "...") with 3%nat. lia.
Qed.

(** ** Relay URLs and source names *)

Section RelayUrls.

Lemma binaryString_inj l1 l2 :
  Forall JS.isByte l1 -> Forall JS.isByte l2 ->
  JS.binaryString l1 = JS.binaryString l2 -> l1 = l2.
Proof.
  intros H1 H2 Heq.
  rewrite <- (charCodes_binaryString l1 H1), <- (charCodes_binaryString l2 H2), Heq.
  reflexivity.
Qed.

(** Percent-encoding loses nothing. *)
Lemma encodeURIComponent_inj s1 s2 :
  JS.encodeURIComponent s1 = JS.encodeURIComponent s2 -> s1 = s2.
Proof.
  intros Heq. apply utf8_inj.
  apply binaryString_inj; [apply utf8_bytes | apply utf8_bytes |].
  assert (H : JS.unescape (JS.encodeURIComponent s1) = JS.unescape (JS.encodeURIComponent s2))
    by (rewrite Heq; reflexivity).
  rewrite !unescape_encodeURIComponent in H. congruence.
Qed.

(** X8. A relay request names its feed: for each of the four relays, two
    feed URLs with the same request URL are the same feed URL, so the
    answer to one feed's request is never taken for another feed's. *)
Theorem relay_url_determines_feed (u1 u2 : string) (i : nat) (p1 p2 : Proxy) :
  proxies u1 !! i = Some p1 -> proxies u2 !! i = Some p2 ->
  proxy_url p1 = proxy_url p2 -> u1 = u2.
Proof.
  intros H1 H2 Heq.
  destruct i as [| [| [| [| i]]]]; simpl in H1, H2; try discriminate H1;
    injection H1 as <-; injection H2 as <-; simpl in Heq;
    apply String.app_inj in Heq; first [exact Heq | apply encodeURIComponent_inj, Heq].
Qed.

Lemma upperChar_label ch :
  JS.inRange 97 122 (JS.upperChar ch) = false /\
  (JS.upperChar ch = "."%char -> ch = "."%char).
Proof.
  destruct ch as [[] [] [] [] [] [] [] []]; vm_compute; split; congruence.
Qed.

Lemma firstSegment_no_sep sep s :
  Forall (fun ch => ch <> sep) (list_ascii_of_string (JS.firstSegment sep s)).
Proof.
  induction s as [| ch s IH]; simpl; [constructor |].
  destruct (decide (ch = sep)); simpl; [constructor |].
  constructor; assumption.
Qed.

(** X9. A source name is a single upper-case label: it contains no dot
    and no lower-case ASCII letter, whatever the host name is. *)
Theorem sourceName_label (hostname : string) :
  Forall (fun ch => ch <> "."%char /\ JS.inRange 97 122 ch = false)
    (list_ascii_of_string (sourceName hostname)).
Proof.
  unfold sourceName, JS.toUpperCase, JS.mapString.
  rewrite list_ascii_of_string_of_list_ascii.
  pose proof (firstSegment_no_sep "."
                (JS.removeFirst "feeds." (JS.removeFirst "www." hostname))) as Hseg.
  induction Hseg as [| ch l Hch _ IH]; simpl; constructor; [| exact IH].
  destruct (upperChar_label ch) as [Hup Hdot]. split; [| exact Hup].
  intros Heq. apply Hch, Hdot, Heq.
Qed.

End RelayUrls.

(** ** Special categories *)

Section SpecialCategories.
Context (env : Env).

(** X10. The two special categories are answered from their own table
    alone: at most one remote read, none without a configured backend
    (the result is then empty), and never a read of the cache tiers, a
    relay request or a cache write. Every article returned carries the
    category asked for and the placeholder URL [#]. *)
Theorem special_category_isolated (c : Category) :
  c = AZAD_STUDIO \/ c = GALLERY ->
  snd (fetchNewsForCategory env c) =
    (if isSupabaseConfigured env
     then [EvSelect (if decide (c = AZAD_STUDIO) then "telegram_posts" else "gallery_posts")
             EmptyString]
     else []) /\
  (isSupabaseConfigured env = false ->
   fst (fetchNewsForCategory env c) = Returns (Batch [])) /\
  exists articles,
    fst (fetchNewsForCategory env c) = Returns (Batch articles) /\
    Forall (fun a => category a = c /\ url a = "#") articles.
Proof.
  intros [-> | ->]; unfold fetchNewsForCategory, returnsArticles; simpl.
  - unfold fetchAzadStudio. destruct (isSupabaseConfigured env); simpl.
    + destruct (telegram_posts env) as [| [[| p data] |] [e |]]; simpl;
        (split; [reflexivity |]); (split; [discriminate |]);
        eexists; (split; [reflexivity |]); try constructor.
      * split; reflexivity.
      * apply Forall_forall. intros a Ha.
        apply list_elem_of_In, in_map_iff in Ha as (post & <- & _). split; reflexivity.
    + split; [reflexivity |]. split; [reflexivity |].
      eexists; split; [reflexivity | constructor].
  - unfold fetchGalleryPosts. destruct (isSupabaseConfigured env); simpl.
    + destruct (gallery_posts env) as [| [data |] [e |]]; simpl;
        (split; [reflexivity |]); (split; [discriminate |]);
        eexists; (split; [reflexivity |]); try constructor.
      apply Forall_forall. intros a Ha.
      apply list_elem_of_In, in_map_iff in Ha as (post & <- & _). split; reflexivity.
    + split; [reflexivity |]. split; [reflexivity |].
      eexists; split; [reflexivity | constructor].
Qed.

(** X11. Rows become articles one for one and in order: the identifiers
    returned for a special category are the row identifiers with the
    prefix [tg_] or [gal_]. An error returned with the rows, or a thrown
    read, gives the empty sequence instead. *)
Theorem special_category_rows :
  isSupabaseConfigured env = true ->
  (forall data, telegram_posts env = Resolved (Some data) None ->
     exists articles,
       fst (fetchNewsForCategory env AZAD_STUDIO) = Returns (Batch articles) /\
       map id articles = map (fun post => "tg_" +:+ post_id post) data) /\
  (forall data, gallery_posts env = Resolved (Some data) None ->
     exists articles,
       fst (fetchNewsForCategory env GALLERY) = Returns (Batch articles) /\
       map id articles = map (fun post => "gal_" +:+ post_id post) data) /\
  (forall data e, telegram_posts env = Resolved data (Some e) ->
     fst (fetchNewsForCategory env AZAD_STUDIO) = Returns (Batch [])) /\
  (forall data e, gallery_posts env = Resolved data (Some e) ->
     fst (fetchNewsForCategory env GALLERY) = Returns (Batch [])) /\
  (telegram_posts env = Rejected ->
   fst (fetchNewsForCategory env AZAD_STUDIO) = Returns (Batch [])) /\
  (gallery_posts env = Rejected ->
   fst (fetchNewsForCategory env GALLERY) = Returns (Batch [])).
Proof.
  intros Hconf.
  unfold fetchNewsForCategory, returnsArticles, fetchAzadStudio, fetchGalleryPosts. simpl.
  rewrite Hconf. simpl. repeat split.
  - intros data ->. eexists. split; [reflexivity |].
    destruct data as [| p data]; [reflexivity |].
    simpl. rewrite map_map. reflexivity.
  - intros data ->. eexists. split; [reflexivity |]. simpl. rewrite map_map. reflexivity.
  - intros data e ->. destruct data as [[| p data] |]; reflexivity.
  - intros data e ->. destruct data; reflexivity.
  - intros ->. reflexivity.
  - intros ->. reflexivity.
Qed.

Lemma slice0_chars (P : ascii -> Prop) n : forall s,
  Forall P (list_ascii_of_string s) ->
  Forall P (list_ascii_of_string (JS.slice0 n s)).
Proof.
  unfold JS.slice0. induction n as [| n IH]; intros [| ch s] Hs; simpl; try constructor.
  - inversion Hs; assumption.
  - apply IH. inversion Hs; assumption.
Qed.

(** X12. The title of a studio post has 1 to 63 characters and holds no
    line feed (U+000A, the separator of [split]): it is the message up
    to its first line feed when that has at most 60 characters, its
    first 60 characters and an ellipsis when it is longer, and a
    placeholder when the message is missing or starts with a line feed.
    Other line terminators are ordinary characters: the carriage return
    of a CRLF message stays at the end of the title (see
    [telegramArticle_title_crlf]). *)
Theorem telegramArticle_title (post : Post) :
  let t := title (telegramArticle env post) in
  t <> EmptyString /\ (String.length t <= 63)%nat /\
  Forall (fun ch => ch <> "010"%char) (list_ascii_of_string t) /\
  (forall line, JS.firstSegment "010" (JS.orDefault (post_message post) EmptyString) = line ->
     line <> EmptyString -> (String.length line <= 60)%nat -> t = line).
Proof.
  cbv zeta. unfold telegramArticle. cbv zeta. cbn [title].
  pose proof (firstSegment_no_sep "010" (JS.orDefault (post_message post) EmptyString))
    as Hline.
  remember (JS.firstSegment "010" (JS.orDefault (post_message post) EmptyString))
    as line eqn:Hdef. clear Hdef.
  destruct (Nat.ltb_spec 60 (String.length line)) as [Hlong | Hshort].
  - pose proof (length_slice0 60 line) as Hlen.
    repeat split.
    + intros Heq. apply (f_equal String.length) in Heq.
      rewrite length_append in Heq. simpl in Heq. lia.
    + rewrite length_append, Hlen. change (String.length "...") with 3%nat. lia.
    + rewrite list_ascii_of_string_app. apply Forall_app. split.
      * apply slice0_chars, Hline.
      * repeat constructor; discriminate.
    + intros l <- _ Hle. lia.
  - destruct line as [| ch rest].
    + simpl. repeat split; try discriminate; try (simpl; lia).
      * repeat constructor; discriminate.
      * intros l <- Hne. contradiction.
    + cbn [JS.orDefault JS.truthy]. repeat split; try discriminate; try exact Hline.
      * lia.
      * intros l <- _ _. reflexivity.
Qed.

End SpecialCategories.

(** [split] breaks the message at line feeds only: the carriage return
    of a CRLF line end stays in the title. *)
Example telegramArticle_title_crlf :
  post_message Cases.crlfPost =
    Some ("line" +:+ String (JS.ofCode 13) (String (JS.ofCode 10) "rest")) /\
  title (telegramArticle Cases.studio Cases.crlfPost) =
    "line" +:+ String (JS.ofCode 13) EmptyString.
Proof. split; vm_compute; reflexivity. Qed.

(** ** Live fetch, cache writer and traces *)

Section LiveFetch.
Context (env : Env) (c : Category).

Lemma probeLocal_trace : snd (probeLocal env c) = [EvGetItem (cacheKey env c)].
Proof.
  unfold probeLocal.
  destruct (localStorage_getItem env (cacheKey env c)) as [[| [ts |] arts] |];
    try reflexivity.
  cbv zeta. destruct (_ <? _); reflexivity.
Qed.

Lemma probeLocal_fresh_inv value tr :
  probeLocal env c = (Fresh value, tr) -> CacheSpec.localFresh env c value.
Proof.
  unfold probeLocal, CacheSpec.localFresh.
  destruct (localStorage_getItem env (cacheKey env c)) as [[| [ts |] arts] |];
    try discriminate.
  cbv zeta.
  destruct (Z.ltb_spec (Date_now env AtLocalCheck - ts) CACHE_DURATION); [| discriminate].
  intros [= <- _]. exists ts. split; [reflexivity | assumption].
Qed.

Lemma fetchFeed_trace url :
  Forall (fun e => isFetch e = true) (snd (fetchFeed env c url)) /\
  (length (snd (fetchFeed env c url)) <= 4)%nat.
Proof.
  unfold fetchFeed.
  destruct (tryProxies_prefix env c url (proxies url)) as (k & Hk & -> & _).
  split.
  - apply Forall_forall. intros e He.
    apply list_elem_of_In, in_map_iff in He as (p & <- & _). reflexivity.
  - rewrite length_map, length_take. simpl in Hk. lia.
Qed.

Lemma liveFetch_trace feedUrls :
  Forall (fun e => isFetch e = true) (snd (liveFetch env c feedUrls)) /\
  (length (snd (liveFetch env c feedUrls)) <= 4 * length feedUrls)%nat.
Proof.
  unfold liveFetch. simpl. rewrite map_map.
  induction feedUrls as [| url urls [IH1 IH2]]; simpl; [split; [constructor | lia] |].
  destruct (fetchFeed_trace url) as [H1 H2]. split.
  - apply Forall_app. split; assumption.
  - rewrite length_app. lia.
Qed.

(** The live fetch and the cache writer, by the deduplicated batch. *)
Lemma fetchLive_anatomy s1 s2 :
  fetchLive env c s1 s2 =
    match RSS_FEEDS env c with
    | None | Some [] => (Returns (Batch []), [])
    | Some feedUrls =>
        let tr := snd (liveFetch env c feedUrls) in
        match CacheSpec.liveBatch env c feedUrls with
        | [] => (staleFallback s1 s2, tr)
        | (_ :: _) as live =>
            let set := EvSetItem (cacheKey env c) (Date_now env AtLocalWrite) live in
            if localStorage_setItem env (cacheKey env c)
            then (Returns (Batch live), tr ++ set :: upsertCache env c live)
            else (staleFallback s1 s2, tr ++ [set])
        end
    end.
Proof.
  unfold fetchLive. destruct (RSS_FEEDS env c) as [[| url urls] |]; try reflexivity.
  rewrite <- (liveFetch_batch env c (url :: urls)).
  destruct (liveFetch env c (url :: urls)) as [allArticles tr]. reflexivity.
Qed.

(** The three ways a call for a feed category goes. *)
Lemma fetchNewsForCategory_anatomy :
  c <> AZAD_STUDIO -> c <> GALLERY ->
  (exists a, CacheSpec.remoteFresh env c a /\
     fetchNewsForCategory env c = (Returns (Batch a), CacheSpec.remoteTrace env c)) \/
  (exists v, CacheSpec.localFresh env c v /\
     fetchNewsForCategory env c =
       (Returns v, CacheSpec.remoteTrace env c ++ [EvGetItem (cacheKey env c)])) \/
  (exists s1 s2,
     probeSupabase env c = (Stale s1, CacheSpec.remoteTrace env c) /\
     probeLocal env c = (Stale s2, [EvGetItem (cacheKey env c)]) /\
     fetchNewsForCategory env c =
       (fst (fetchLive env c s1 s2),
        CacheSpec.remoteTrace env c ++ [EvGetItem (cacheKey env c)] ++
        snd (fetchLive env c s1 s2))).
Proof.
  intros Hs Hg. rewrite fetchNewsForCategory_feed by assumption.
  pose proof (probeSupabase_trace env c) as Ht1. pose proof probeLocal_trace as Ht2.
  destruct (probeSupabase env c) as [[a | s1] tr1] eqn:Hp1; simpl in Ht1; subst tr1.
  { left. exists a. split; [eapply probeSupabase_fresh_inv, Hp1 | reflexivity]. }
  destruct (probeLocal env c) as [[a | s2] tr2] eqn:Hp2; simpl in Ht2; subst tr2.
  { right. left. exists a. split; [eapply probeLocal_fresh_inv, Hp2 | reflexivity]. }
  right. right. exists s1, s2. split; [reflexivity |]. split; [reflexivity |].
  destruct (fetchLive env c s1 s2). reflexivity.
Qed.

End LiveFetch.

Section CallShape.
Context (env : Env) (c : Category).

Lemma remoteTrace_selects :
  Forall (fun e => Store.isSelect e = true) (CacheSpec.remoteTrace env c) /\
  (length (CacheSpec.remoteTrace env c) <= 1)%nat.
Proof.
  unfold CacheSpec.remoteTrace. destruct (isSupabaseConfigured env); simpl;
    split; repeat constructor.
Qed.

Lemma special_trace_selects :
  c = AZAD_STUDIO \/ c = GALLERY ->
  Forall (fun e => Store.isSelect e = true) (snd (fetchNewsForCategory env c)) /\
  (length (snd (fetchNewsForCategory env c)) <= 1)%nat.
Proof.
  intros [-> | ->]; unfold fetchNewsForCategory, returnsArticles; simpl.
  - unfold fetchAzadStudio. destruct (isSupabaseConfigured env); simpl;
      [| split; [constructor | lia]].
    destruct (telegram_posts env) as [| [[| p data] |] [e |]]; simpl;
      split; repeat constructor.
  - unfold fetchGalleryPosts. destruct (isSupabaseConfigured env); simpl;
      [| split; [constructor | lia]].
    destruct (gallery_posts env) as [| [data |] [e |]]; simpl; split; repeat constructor.
Qed.

Local Ltac shape_prefix Hsel Hlen :=
  split; [cbn [app]; rewrite ?app_nil_r; reflexivity |];
  split; [exact Hsel |]; split; [exact Hlen |];
  split; [first [by left | by right] |];
  split; [first [assumption | constructor] |];
  split; [first [assumption | simpl; lia] |].

(** The calls a request makes, in order: remote read, local read, relay
    requests, local write, remote write. *)
Lemma call_shape :
  exists sel get fet wr,
    snd (fetchNewsForCategory env c) = sel ++ get ++ fet ++ wr /\
    Forall (fun e => Store.isSelect e = true) sel /\ (length sel <= 1)%nat /\
    (get = [] \/ get = [EvGetItem (cacheKey env c)]) /\
    Forall (fun e => isFetch e = true) fet /\
    (length fet <= 4 * length (default [] (RSS_FEEDS env c)))%nat /\
    (wr = [] \/
     exists feedUrls,
       c <> AZAD_STUDIO /\ c <> GALLERY /\ RSS_FEEDS env c = Some feedUrls /\
       CacheSpec.liveBatch env c feedUrls <> [] /\
       let batch := CacheSpec.liveBatch env c feedUrls in
       let set := EvSetItem (cacheKey env c) (Date_now env AtLocalWrite) batch in
       (localStorage_setItem env (cacheKey env c) = false /\ wr = [set]) \/
       (localStorage_setItem env (cacheKey env c) = true /\
        fst (fetchNewsForCategory env c) = Returns (Batch batch) /\
        wr = set :: upsertCache env c batch)).
Proof.
  destruct (decide (c = AZAD_STUDIO \/ c = GALLERY)) as [Hsp | Hfeed].
  { destruct (special_trace_selects Hsp) as [Hsel Hlen].
    exists (snd (fetchNewsForCategory env c)), [], [], [].
    split; [rewrite !app_nil_r; reflexivity |]. split; [exact Hsel |].
    split; [exact Hlen |]. split; [by left |]. split; [constructor |].
    split; [simpl; lia | by left]. }
  assert (Hs : c <> AZAD_STUDIO) by tauto. assert (Hg : c <> GALLERY) by tauto.
  destruct remoteTrace_selects as [Hsel Hlen].
  pose (sel := CacheSpec.remoteTrace env c).
  pose (get := [EvGetItem (cacheKey env c)]).
  destruct (fetchNewsForCategory_anatomy env c Hs Hg)
    as [(a & _ & Hcall) | [(a & _ & Hcall) | (s1 & s2 & _ & _ & Hcall)]];
    rewrite Hcall; clear Hcall; cbn [fst snd].
  - exists sel, [], [], []. shape_prefix Hsel Hlen. by left.
  - exists sel, get, [], []. shape_prefix Hsel Hlen. by left.
  - rewrite fetchLive_anatomy.
    destruct (RSS_FEEDS env c) as [[| url urls] |] eqn:Hfeeds; cbn [fst snd].
    + exists sel, get, [], []. shape_prefix Hsel Hlen. by left.
    + destruct (liveFetch_trace env c (url :: urls)) as [Hfet Hlenf]. cbv zeta.
      destruct (CacheSpec.liveBatch env c (url :: urls)) as [| b batch] eqn:Hbatch;
        cbn [fst snd].
      * exists sel, get, (snd (liveFetch env c (url :: urls))), [].
        shape_prefix Hsel Hlen. by left.
      * destruct (localStorage_setItem env (cacheKey env c)) eqn:Hset; cbn [fst snd].
        -- exists sel, get, (snd (liveFetch env c (url :: urls))),
             (EvSetItem (cacheKey env c) (Date_now env AtLocalWrite) (b :: batch)
              :: upsertCache env c (b :: batch)).
           shape_prefix Hsel Hlen.
           right. exists (url :: urls). split; [exact Hs |]. split; [exact Hg |].
           split; [reflexivity |]. rewrite Hbatch. split; [discriminate |]. cbv zeta.
           right. split; [reflexivity |]. split; reflexivity.
        -- exists sel, get, (snd (liveFetch env c (url :: urls))),
             [EvSetItem (cacheKey env c) (Date_now env AtLocalWrite) (b :: batch)].
           shape_prefix Hsel Hlen.
           right. exists (url :: urls). split; [exact Hs |]. split; [exact Hg |].
           split; [reflexivity |]. rewrite Hbatch. split; [discriminate |]. cbv zeta.
           left. split; reflexivity.
    + exists sel, get, [], []. shape_prefix Hsel Hlen. by left.
Qed.

End CallShape.

Section CacheWriter.
Context (env : Env) (c : Category).

Lemma fetch_not_write e : isFetch e = true -> Store.isWrite e = false.
Proof. destruct e; simpl; congruence. Qed.

Lemma select_not_write e : Store.isSelect e = true -> Store.isWrite e = false.
Proof. destruct e; simpl; congruence. Qed.

(** X13. Only a live fetch writes the cache, and it writes what it
    found: every write in the trace of a call belongs to a feed category,
    carries the non-empty deduplicated live batch (pairwise distinct
    normalized titles) and is either the local write under the
    category's key or the remote upsert, which is made only with a
    configured backend and after the local write went through. When the
    local write goes through, the batch written is the batch returned. *)
Theorem fetchNewsForCategory_writes (e : Event) :
  e ∈ snd (fetchNewsForCategory env c) -> Store.isWrite e = true ->
  c <> AZAD_STUDIO /\ c <> GALLERY /\
  exists feedUrls,
    RSS_FEEDS env c = Some feedUrls /\
    let batch := CacheSpec.liveBatch env c feedUrls in
    batch <> [] /\
    NoDup (map (fun a => normalizedTitle (title a)) batch) /\
    (e = EvSetItem (cacheKey env c) (Date_now env AtLocalWrite) batch \/
     (e = EvUpsert "rss_feed_cache" c batch (Date_now env AtRemoteWrite) /\
      isSupabaseConfigured env = true /\
      localStorage_setItem env (cacheKey env c) = true)) /\
    (localStorage_setItem env (cacheKey env c) = true ->
     fst (fetchNewsForCategory env c) = Returns (Batch batch)).
Proof.
  intros He Hw.
  destruct (call_shape env c)
    as (sel & get & fet & wr & Htr & Hsel & _ & Hget & Hfet & _ & Hwr).
  rewrite Htr in He. rewrite !elem_of_app in He.
  destruct He as [He | [He | [He | He]]].
  - rewrite Forall_forall in Hsel. rewrite (select_not_write e (Hsel e He)) in Hw.
    discriminate.
  - destruct Hget as [-> | ->]; [inversion He |].
    apply list_elem_of_singleton in He as ->. discriminate.
  - rewrite Forall_forall in Hfet. rewrite (fetch_not_write e (Hfet e He)) in Hw.
    discriminate.
  - destruct Hwr as [-> | (feedUrls & Hs & Hg & Hfeeds & Hne & Hcases)]; [inversion He |].
    split; [exact Hs |]. split; [exact Hg |]. exists feedUrls.
    split; [exact Hfeeds |]. cbv zeta. split; [exact Hne |].
    split; [apply filterUnseen_NoDup |].
    destruct Hcases as [(Hset & ->) | (Hset & Hres & ->)].
    + apply list_elem_of_singleton in He as ->.
      split; [by left | congruence].
    + split; [| intros _; exact Hres].
      apply elem_of_cons in He as [-> | He]; [by left |].
      unfold upsertCache in He.
      destruct (isSupabaseConfigured env) eqn:Hconf; [| inversion He].
      apply list_elem_of_singleton in He as ->. right. repeat split; assumption.
Qed.

(** Counting the events of a kind in a trace. *)
Lemma count_all (p : Event -> bool) tr :
  Forall (fun e => p e = true) tr -> length (List.filter p tr) = length tr.
Proof.
  induction 1 as [| e tr He _ IH]; simpl; [reflexivity |]. rewrite He. simpl. lia.
Qed.

Lemma count_none (p : Event -> bool) tr :
  Forall (fun e => p e = false) tr -> List.filter p tr = [].
Proof.
  induction 1 as [| e tr He _ IH]; simpl; [reflexivity |]. rewrite He. exact IH.
Qed.

(** X14. The calls of one request are ordered and bounded: at most one
    remote read, then at most one local read, then at most four relay
    requests per feed URL of the category, then at most two writes;
    nothing else, and nothing in another order. *)
Theorem fetchNewsForCategory_call_order :
  exists sel get fet wr,
    snd (fetchNewsForCategory env c) = sel ++ get ++ fet ++ wr /\
    Forall (fun e => Store.isSelect e = true) sel /\ (length sel <= 1)%nat /\
    Forall (fun e => e = EvGetItem (cacheKey env c)) get /\ (length get <= 1)%nat /\
    Forall (fun e => isFetch e = true) fet /\
    (length fet <= 4 * length (default [] (RSS_FEEDS env c)))%nat /\
    Forall (fun e => Store.isWrite e = true) wr /\ (length wr <= 2)%nat /\
    (length (List.filter isFetch (snd (fetchNewsForCategory env c))) <=
     4 * length (default [] (RSS_FEEDS env c)))%nat.
Proof.
  destruct (call_shape env c)
    as (sel & get & fet & wr & Htr & Hsel & Hlen & Hget & Hfet & Hlenf & Hwr).
  assert (Hget' : Forall (fun e => e = EvGetItem (cacheKey env c)) get /\
                  (length get <= 1)%nat /\ Forall (fun e => isFetch e = false) get).
  { destruct Hget as [-> | ->]; repeat constructor. }
  assert (Hwr' : Forall (fun e => Store.isWrite e = true) wr /\ (length wr <= 2)%nat /\
                 Forall (fun e => isFetch e = false) wr).
  { destruct Hwr as [-> | (feedUrls & _ & _ & _ & _ & [(_ & ->) | (_ & _ & ->)])];
      try (repeat constructor; fail).
    unfold upsertCache. destruct (isSupabaseConfigured env); repeat constructor. }
  destruct Hget' as (Hg1 & Hg2 & Hg3). destruct Hwr' as (Hw1 & Hw2 & Hw3).
  exists sel, get, fet, wr. repeat (split; [assumption |]).
  rewrite Htr, !List.filter_app, !length_app.
  rewrite (count_none isFetch get Hg3), (count_none isFetch wr Hw3).
  rewrite (count_all isFetch fet Hfet).
  rewrite (count_none isFetch sel); [simpl; lia |].
  eapply Forall_impl; [exact Hsel |]. intros e He. destruct e; simpl in *; congruence.
Qed.

(** X15. When the local write throws, the fresh batch is lost: although
    the live fetch found articles, the call ends as the stale fallback
    does. It returns the stale remote batch if there is one, otherwise
    what the stale local entry holds as its batch (the empty sequence
    for an empty array, for a value without positive length and for no
    entry), and it throws a [TypeError] exactly when there is no stale
    remote batch and the stale local entry has no batch at all. The
    local write was attempted and the remote upsert is not made. *)
Theorem fetchNewsForCategory_write_failure
    (feedUrls : list string) (supabaseStaleData : list Article) (localStaleData : Stored)
    (tr1 tr2 : Trace) :
  c <> AZAD_STUDIO -> c <> GALLERY ->
  RSS_FEEDS env c = Some feedUrls ->
  probeSupabase env c = (Stale supabaseStaleData, tr1) ->
  probeLocal env c = (Stale localStaleData, tr2) ->
  CacheSpec.liveBatch env c feedUrls <> [] ->
  localStorage_setItem env (cacheKey env c) = false ->
  fst (fetchNewsForCategory env c) =
    match supabaseStaleData, localStaleData with
    | _ :: _, _ => Returns (Batch supabaseStaleData)
    | [], Batch (_ :: _) => Returns localStaleData
    | [], Batch [] => Returns (Batch [])
    | [], Nullish => ThrowsTypeError
    | [], NotArray _ true => Returns localStaleData
    | [], NotArray _ false => Returns (Batch [])
    end /\
  (fst (fetchNewsForCategory env c) = ThrowsTypeError <->
   supabaseStaleData = [] /\ localStaleData = Nullish) /\
  EvSetItem (cacheKey env c) (Date_now env AtLocalWrite)
    (CacheSpec.liveBatch env c feedUrls) ∈ snd (fetchNewsForCategory env c) /\
  Forall (fun e => match e with EvUpsert _ _ _ _ => False | _ => True end)
    (snd (fetchNewsForCategory env c)).
Proof.
  intros Hs Hg Hfeeds Hp1 Hp2 Hne Hset.
  rewrite fetchNewsForCategory_feed, Hp1, Hp2 by assumption.
  pose proof (probeSupabase_trace env c) as Ht1. rewrite Hp1 in Ht1. simpl in Ht1.
  pose proof (probeLocal_trace env c) as Ht2. rewrite Hp2 in Ht2. simpl in Ht2.
  subst tr1 tr2. rewrite fetchLive_anatomy, Hfeeds.
  destruct feedUrls as [| url urls].
  { exfalso. apply Hne. reflexivity. }
  destruct (liveFetch_trace env c (url :: urls)) as [Hfet _]. cbv zeta.
  destruct (CacheSpec.liveBatch env c (url :: urls)) as [| b batch]; [congruence |].
  rewrite Hset. cbn [fst snd]. split; [| split; [| split]].
  - unfold staleFallback. destruct supabaseStaleData; [| reflexivity].
    destruct localStaleData as [[| a l] | | json []]; reflexivity.
  - unfold staleFallback.
    destruct supabaseStaleData as [| a l]; [| split; [discriminate | intros [[=] _]]].
    destruct localStaleData as [[| a l] | | json []];
      split; try discriminate; try (intros [_ [=]]); by auto.
  - rewrite !elem_of_app. right. right. right. left.
  - apply Forall_app. split.
    { unfold CacheSpec.remoteTrace. destruct (isSupabaseConfigured env); repeat constructor. }
    apply Forall_app. split; [repeat constructor |].
    apply Forall_app. split; [| repeat constructor].
    eapply Forall_impl; [exact Hfet |]. intros e He.
    destruct e; simpl in *; first [exact I | discriminate].
Qed.


End CacheWriter.

(** ** Two successive calls *)

Section SecondCall.

Lemma afterTrace_app landed env tr1 tr2 :
  Store.afterTrace landed env (tr1 ++ tr2) =
  Store.afterTrace landed (Store.afterTrace landed env tr1) tr2.
Proof. unfold Store.afterTrace. apply fold_left_app. Qed.

Lemma afterTrace_quiet landed env tr :
  Forall (fun e => Store.isWrite e = false) tr -> Store.afterTrace landed env tr = env.
Proof.
  unfold Store.afterTrace. induction 1 as [| e tr He _ IH]; simpl; [reflexivity |].
  destruct e; simpl in He; try discriminate He; exact IH.
Qed.

(** A tier that was not fresh is not fresh later, if nothing was written
    to it. *)
Lemma probeSupabase_later env env' c s tr :
  isSupabaseConfigured env' = isSupabaseConfigured env ->
  rss_feed_cache env' c = rss_feed_cache env c ->
  Category_value env' c = Category_value env c ->
  Date_now env AtRemoteCheck <= Date_now env' AtRemoteCheck ->
  probeSupabase env c = (Stale s, tr) ->
  probeSupabase env' c = (Stale s, tr).
Proof.
  intros Hconf Hrow Hval Hclock. unfold probeSupabase. rewrite Hconf, Hrow, Hval.
  destruct (isSupabaseConfigured env); [| trivial].
  destruct (rss_feed_cache env c) as [| [row |] [e |]]; try trivial.
  destruct (row_articles row) as [[| a arts] |]; try trivial. cbv zeta.
  destruct (row_updated_at row) as [t |]; [| trivial].
  destruct (Z.ltb_spec (Date_now env AtRemoteCheck - t) CACHE_DURATION); [discriminate |].
  destruct (Z.ltb_spec (Date_now env' AtRemoteCheck - t) CACHE_DURATION); [lia | trivial].
Qed.

Lemma probeSupabase_unconfigured env c :
  isSupabaseConfigured env = false -> probeSupabase env c = (Stale [], []).
Proof. intros H. unfold probeSupabase. rewrite H. reflexivity. Qed.

Lemma remoteTrace_quiet env c :
  Forall (fun e => isFetch e = false /\ Store.isWrite e = false)
    (CacheSpec.remoteTrace env c).
Proof.
  unfold CacheSpec.remoteTrace. destruct (isSupabaseConfigured env); repeat constructor.
Qed.

Lemma quiet_trace tr :
  Forall (fun e => isFetch e = false /\ Store.isWrite e = false) tr ->
  CacheSpec.noRelayFetch tr /\ Forall (fun e => Store.isWrite e = false) tr.
Proof.
  intros H. split; (eapply Forall_impl; [exact H |]); intros e [? ?]; assumption.
Qed.

(** X17. Round trip through the cache. If a call for a feed category
    wrote the local store (the write going through), then a second call
    made while the entry is younger than the freshness window returns
    exactly the batch the first call returned, without any relay request
    or write; this holds whether the remote upsert of the first call
    landed (and is then read back, fresh) or was lost (time not running
    backwards). *)
Theorem fetchNewsForCategory_second_call
    (env : Env) (c : Category) (landed : bool) (clock2 : ClockSite -> Z) :
  c <> AZAD_STUDIO -> c <> GALLERY ->
  let first := fetchNewsForCategory env c in
  (exists e, e ∈ first.2 /\ Store.isSetItem e = true) ->
  localStorage_setItem env (cacheKey env c) = true ->
  clock2 AtLocalCheck - Date_now env AtLocalWrite < CACHE_DURATION ->
  (landed = true -> clock2 AtRemoteCheck - Date_now env AtRemoteWrite < CACHE_DURATION) ->
  (landed = false -> Date_now env AtRemoteCheck <= clock2 AtRemoteCheck) ->
  let second :=
    fetchNewsForCategory (Store.atClock (Store.afterTrace landed env first.2) clock2) c in
  (exists batch, first.1 = Returns (Batch batch) /\ batch <> []) /\
  second.1 = first.1 /\
  CacheSpec.noRelayFetch second.2 /\
  Forall (fun e => Store.isWrite e = false) second.2.
Proof.
  intros Hs Hg first (e & He & Hset_e) Hset Hlocal Hremote Hmono second.
  subst first second.
  destruct (fetchNewsForCategory_anatomy env c Hs Hg)
    as [(a & _ & Hcall) | [(a & _ & Hcall) | (s1 & s2 & Hp1 & Hp2 & Hcall)]];
    rewrite Hcall in *; cbn [fst snd] in *.
  { exfalso. unfold CacheSpec.remoteTrace in He.
    destruct (isSupabaseConfigured env); [| inversion He].
    apply list_elem_of_singleton in He as ->. discriminate. }
  { exfalso. apply elem_of_app in He as [He | He].
    - unfold CacheSpec.remoteTrace in He.
      destruct (isSupabaseConfigured env); [| inversion He].
      apply list_elem_of_singleton in He as ->. discriminate.
    - apply list_elem_of_singleton in He as ->. discriminate. }
  clear Hcall.
  assert (Hsel_quiet : Forall (fun e => Store.isWrite e = false /\ Store.isSetItem e = false)
                         (CacheSpec.remoteTrace env c ++ [EvGetItem (cacheKey env c)])).
  { unfold CacheSpec.remoteTrace. destruct (isSupabaseConfigured env); repeat constructor. }
  rewrite fetchLive_anatomy in *.
  destruct (RSS_FEEDS env c) as [[| url urls] |] eqn:Hfeeds; cbn [fst snd] in *;
    try (exfalso; rewrite app_nil_r in He; rewrite Forall_forall in Hsel_quiet;
         destruct (Hsel_quiet e He) as [_ Hno]; congruence).
  destruct (liveFetch_trace env c (url :: urls)) as [Hfet _]. cbv zeta in *.
  destruct (CacheSpec.liveBatch env c (url :: urls)) as [| b batch] eqn:Hbatch;
    cbn [fst snd] in *.
  { exfalso. rewrite !elem_of_app in He. destruct He as [He | [He | He]].
    - rewrite Forall_forall in Hsel_quiet.
      destruct (Hsel_quiet e) as [_ Hno]; [apply elem_of_app; by left | congruence].
    - rewrite Forall_forall in Hsel_quiet.
      destruct (Hsel_quiet e) as [_ Hno]; [apply elem_of_app; by right | congruence].
    - rewrite Forall_forall in Hfet. specialize (Hfet e He).
      destruct e; simpl in *; congruence. }
  rewrite Hset in *. cbn [fst snd] in *. clear He Hset_e e.
  split; [exists (b :: batch); split; [reflexivity | discriminate] |].
  (* the environment the first call leaves *)
  apply Forall_app in Hsel_quiet as [Hq1 Hq2].
  rewrite !afterTrace_app.
  rewrite (afterTrace_quiet landed env (CacheSpec.remoteTrace env c))
    by (eapply Forall_impl; [exact Hq1 |]; intros x [Hx _]; exact Hx).
  rewrite (afterTrace_quiet landed env [EvGetItem (cacheKey env c)])
    by (repeat constructor).
  rewrite (afterTrace_quiet landed env (snd (liveFetch env c (url :: urls))))
    by (eapply Forall_impl; [exact Hfet |]; intros x Hx; destruct x; simpl in *; congruence).
  unfold Store.afterTrace. cbn [fold_left Store.applyEvent]. rewrite Hset.
  set (entry := CacheEntry (Some (Date_now env AtLocalWrite)) (Batch (b :: batch))).
  assert (Hlocal_fresh : forall env1,
    localStorage_getItem env1 = localStorage_getItem (Store.setLocal env (cacheKey env c) entry) ->
    Category_value env1 = Category_value env ->
    CacheSpec.localFresh (Store.atClock env1 clock2) c (Batch (b :: batch))).
  { intros env1 Hget Hval. exists (Date_now env AtLocalWrite).
    assert (Hkey : cacheKey (Store.atClock env1 clock2) c = cacheKey env c)
      by (unfold cacheKey; cbn [Category_value Store.atClock]; rewrite Hval; reflexivity).
    rewrite Hkey. cbn [localStorage_getItem Date_now Store.atClock]. rewrite Hget.
    cbn [localStorage_getItem Store.setLocal]. rewrite decide_True by reflexivity.
    split; [reflexivity | exact Hlocal]. }
  rewrite fetchNewsForCategory_feed by assumption.
  unfold upsertCache. destruct (isSupabaseConfigured env) eqn:Hconf.
  - cbn [fold_left Store.applyEvent]. destruct landed.
    + (* the upsert landed: the remote row is read back, fresh *)
      match goal with
      | |- context [probeSupabase ?env2 c] =>
          assert (Hfresh : CacheSpec.remoteFresh env2 c (b :: batch))
      end.
      { split; [exact Hconf |]. eexists _, (Date_now env AtRemoteWrite).
        split; [cbn [rss_feed_cache Store.atClock Store.setRemote];
                rewrite decide_True by reflexivity; reflexivity |].
        split; [reflexivity |]. split; [discriminate |]. split; [reflexivity |].
        exact (Hremote eq_refl). }
      rewrite (probeSupabase_fresh _ _ _ Hfresh). cbv beta iota. cbn [fst snd].
      split; [reflexivity |]. apply quiet_trace, remoteTrace_quiet.
    + (* the upsert was lost: the remote row is as stale as before *)
      rewrite (probeSupabase_later env _ c s1 (CacheSpec.remoteTrace env c));
        [| reflexivity | reflexivity | reflexivity | exact (Hmono eq_refl) | exact Hp1].
      rewrite (probeLocal_fresh _ _ _ (Hlocal_fresh _ eq_refl eq_refl)).
      cbv beta iota. cbn [fst snd]. split; [reflexivity |].
      apply quiet_trace, Forall_app. split; [apply remoteTrace_quiet | repeat constructor].
  - cbn [fold_left].
    rewrite probeSupabase_unconfigured by exact Hconf.
    rewrite (probeLocal_fresh _ _ _ (Hlocal_fresh _ eq_refl eq_refl)).
    cbv beta iota. cbn [fst snd]. split; [reflexivity |].
    apply quiet_trace. repeat constructor.
Qed.

End SecondCall.

(** ** Enrichment caches: what a call may change *)

Section EnrichmentCaches.
Import Gemini.

Lemma count_none_gemini (p : Event -> bool) tr :
  Forall (fun e => p e = false) tr -> List.filter p tr = [].
Proof.
  induction 1 as [| e tr He _ IH]; simpl; [reflexivity |]. rewrite He. exact IH.
Qed.

Lemma setArticle_lookup st id content k :
  articleMemoryCache (setArticle st id content) !! k =
  if decide (id = k) then Some content else articleMemoryCache st !! k.
Proof. unfold setArticle. simpl. apply lookup_insert. Qed.

(** What a call of [enhanceArticle] leaves in the session: the session
    it got, or that session with the returned content stored under the
    identifier, which had no entry. *)
Lemma enhanceArticle_session sv st id title description :
  (enhanceArticle sv st id title description).1.2 = st \/
  (articleMemoryCache st !! id = None /\
   (enhanceArticle sv st id title description).1.2 =
   setArticle st id (enhanceArticle sv st id title description).1.1).
Proof.
  destruct (articleMemoryCache st !! id) as [cached |] eqn:Hmem.
  { left. rewrite (enhanceArticle_hit _ _ _ _ _ cached Hmem). reflexivity. }
  rewrite (enhanceArticle_miss _ _ _ _ _ Hmem). cbv zeta.
  destruct (isSupabaseConfigured sv); cbn [fst snd].
  - destruct (remoteHit (ai_articles_cache sv id)) as [content |];
      [right; split; reflexivity |].
    destruct (generateArticle sv title description).1 as [content |];
      [right; split; reflexivity | left; reflexivity].
  - destruct (generateArticle sv title description).1 as [content |];
      [right; split; reflexivity | left; reflexivity].
Qed.

(** X18. The article cache is write-once. A call of [enhanceArticle]
    never changes or removes an entry that exists, never touches the
    entry of another identifier and never touches the audio cache; the
    only change it can make is to add the content it returns under the
    identifier it was called with. *)
Theorem enhanceArticle_cache_write_once
    (sv : Services) (st : Session) (id title description : string) :
  let after := (enhanceArticle sv st id title description).1.2 in
  (forall k v, articleMemoryCache st !! k = Some v ->
     articleMemoryCache after !! k = Some v) /\
  (forall k, k <> id -> articleMemoryCache after !! k = articleMemoryCache st !! k) /\
  (forall v, articleMemoryCache after !! id = Some v ->
     v = (enhanceArticle sv st id title description).1.1) /\
  audioMemoryCache after = audioMemoryCache st.
Proof.
  cbv zeta.
  destruct (enhanceArticle_session sv st id title description) as [-> | [Hmem ->]].
  - repeat split; try tauto.
    intros v Hv. rewrite (enhanceArticle_hit _ _ _ _ _ v Hv). reflexivity.
  - repeat split.
    + intros k v Hk. rewrite setArticle_lookup.
      destruct (decide (id = k)) as [<- | _]; [congruence | exact Hk].
    + intros k Hne. rewrite setArticle_lookup.
      destruct (decide (id = k)); [congruence | reflexivity].
    + intros v. rewrite setArticle_lookup, decide_True by reflexivity. congruence.
Qed.

(** X19. The remote article table is written only with what was just
    generated: an upsert in the trace of a call carries the identifier
    and the content the call returns, is made only with a configured
    backend, after a miss in both caches and a successful generation in
    that same call, and at most once. Content found in the remote table
    is stored in process without a generative call or a write back. *)
Theorem enhanceArticle_upsert
    (sv : Services) (st : Session) (id title description : string) :
  let result := enhanceArticle sv st id title description in
  (upserts result.2 <= 1)%nat /\
  (forall i data, UpsertArticle i data ∈ result.2 ->
     i = id /\ data = result.1.1 /\
     isSupabaseConfigured sv = true /\
     articleMemoryCache st !! id = None /\
     remoteHit (ai_articles_cache sv id) = None /\
     (generateArticle sv title description).1 = Some data /\
     articleMemoryCache result.1.2 !! id = Some data) /\
  (forall content,
     articleMemoryCache st !! id = None -> isSupabaseConfigured sv = true ->
     remoteHit (ai_articles_cache sv id) = Some content ->
     result = (content, setArticle st id content, [Select "ai_articles_cache" id])).
Proof.
  cbv zeta.
  assert (Hgen : forall e, e ∈ (generateArticle sv title description).2 ->
                           isUpsert e = false).
  { unfold generateArticle. destruct (getAI sv); [| intros e He; inversion He].
    assert (Hcall : forall e, e ∈ [GenerateContent "gemini-2.5-flash" (Prompt (prompt title description))]
                              -> isUpsert e = false)
      by (intros e ->%list_elem_of_singleton; reflexivity).
    destruct (generateText sv _) as [| [text |]]; try exact Hcall.
    destruct (JS.truthy text); exact Hcall. }
  assert (Hgen0 : upserts (generateArticle sv title description).2 = 0%nat).
  { unfold upserts. rewrite count_none_gemini; [reflexivity |].
    apply Forall_forall. exact Hgen. }
  destruct (articleMemoryCache st !! id) as [cached |] eqn:Hmem.
  { rewrite (enhanceArticle_hit _ _ _ _ _ cached Hmem). simpl.
    split; [unfold upserts; simpl; lia |].
    split; [intros i data Hin; inversion Hin | discriminate]. }
  rewrite (enhanceArticle_miss _ _ _ _ _ Hmem). cbv zeta.
  destruct (isSupabaseConfigured sv) eqn:Hconf; cbn [fst snd].
  - destruct (remoteHit (ai_articles_cache sv id)) as [content |] eqn:Hremote.
    + split; [unfold upserts; simpl; lia |]. split.
      * intros i data Hin. apply list_elem_of_singleton in Hin. discriminate.
      * intros c _ _ [= <-]. reflexivity.
    + destruct (generateArticle sv title description).1 as [content |] eqn:Hok;
        cbn [fst snd].
      * split.
        { rewrite !upserts_app. change (upserts [Select "ai_articles_cache" id]) with 0%nat.
          rewrite Hgen0. unfold upserts. simpl. lia. }
        split; [| discriminate].
        intros i data Hin. rewrite !elem_of_app in Hin.
        destruct Hin as [Hin | [Hin | Hin]].
        -- apply list_elem_of_singleton in Hin. discriminate.
        -- apply Hgen in Hin. discriminate.
        -- apply list_elem_of_singleton in Hin. injection Hin as -> ->.
           repeat split. rewrite setArticle_lookup, decide_True by reflexivity.
           reflexivity.
      * split.
        { rewrite upserts_app. change (upserts [Select "ai_articles_cache" id]) with 0%nat.
          rewrite Hgen0. lia. }
        split; [| discriminate].
        intros i data Hin. apply elem_of_app in Hin as [Hin | Hin].
        -- apply list_elem_of_singleton in Hin. discriminate.
        -- apply Hgen in Hin. discriminate.
  - destruct (generateArticle sv title description).1 as [content |] eqn:Hok;
      cbn [fst snd app].
    + split; [rewrite upserts_app, Hgen0; unfold upserts; simpl; lia |].
      split; [| discriminate].
      intros i data Hin. apply elem_of_app in Hin as [Hin | Hin];
        [apply Hgen in Hin; discriminate | inversion Hin].
    + split; [rewrite Hgen0; lia |]. split; [| discriminate].
      intros i data Hin. apply Hgen in Hin. discriminate.
Qed.

End EnrichmentCaches.

Section AudioCaches.
Import Gemini.

Lemma setAudio_lookup st key audio k :
  audioMemoryCache (setAudio st key audio) !! k =
  if decide (key = k) then Some audio else audioMemoryCache st !! k.
Proof. unfold setAudio. simpl. apply lookup_insert. Qed.

(** How a call of [generateNewsAudio] ends: with audio from the
    in-process cache and the session as it was, with audio stored under
    the key, which had no entry, or with an error and the session as it
    was. *)
Lemma generateNewsAudio_session sv st text :
  (exists key cached,
     audioCacheKey text = CacheKey key /\ audioMemoryCache st !! key = Some cached /\
     (generateNewsAudio sv st text).1 = (AudioData cached, st)) \/
  (exists key audio,
     audioCacheKey text = CacheKey key /\ audioMemoryCache st !! key = None /\
     (generateNewsAudio sv st text).1 = (AudioData audio, setAudio st key audio)) \/
  (exists result,
     (forall audio, result <> AudioData audio) /\
     (generateNewsAudio sv st text).1 = (result, st)).
Proof.
  destruct (audioCacheKey_cases text) as [(key & Hkey & _) | [Hkey _]].
  2:{ right. right. exists ThrowsURIError.
      rewrite (generateNewsAudio_key_error _ _ _ Hkey). split; [discriminate | reflexivity]. }
  destruct (audioMemoryCache st !! key) as [cached |] eqn:Hmem.
  { left. exists key, cached. rewrite (generateNewsAudio_hit sv st text key cached Hkey Hmem).
    by auto. }
  right. rewrite (generateNewsAudio_miss _ _ _ key) by assumption.
  destruct (if isSupabaseConfigured sv then _ else None) as [audio |].
  { left. exists key, audio. by auto. }
  destruct (Utf16.truthy (cleanText text)); cbn [negb].
  - destruct (synthesize sv (speechText text)).1 as [audio |].
    + left. exists key, audio. by auto.
    + right. eexists. split; [| reflexivity]. discriminate.
  - right. eexists. split; [| reflexivity]. discriminate.
Qed.

(** X20. The audio cache is write-once. A call of [generateNewsAudio]
    never changes or removes an entry that exists, never touches an
    entry under anything but the key computed for its text and never
    touches the article cache; a call that raises leaves the session
    exactly as it was. *)
Theorem generateNewsAudio_cache_write_once
    (sv : Services) (st : Session) (text : list Utf16.CodeUnit) :
  let result := generateNewsAudio sv st text in
  (forall k v, audioMemoryCache st !! k = Some v ->
     audioMemoryCache result.1.2 !! k = Some v) /\
  (forall k, audioCacheKey text <> CacheKey k ->
     audioMemoryCache result.1.2 !! k = audioMemoryCache st !! k) /\
  articleMemoryCache result.1.2 = articleMemoryCache st /\
  ((forall audio, result.1.1 <> AudioData audio) -> result.1.2 = st).
Proof.
  cbv zeta.
  destruct (generateNewsAudio_session sv st text)
    as [(key & cached & Hkey & Hmem & Hr) | [(key & audio & Hkey & Hmem & Hr) |
        (result & Hno & Hr)]];
    rewrite Hr; cbn [fst snd].
  - repeat split; tauto.
  - repeat split.
    + intros k v Hk. rewrite setAudio_lookup.
      destruct (decide (key = k)) as [<- | _]; [congruence | exact Hk].
    + intros k Hne. rewrite setAudio_lookup.
      destruct (decide (key = k)) as [<- | _]; [congruence | reflexivity].
    + intros Hno. exfalso. by apply (Hno audio).
  - repeat split; tauto.
Qed.

(** X21. Narration is memoized by key. Once a call has returned audio,
    every later call in the session on a text with the same head and
    length (the same [keySource]) returns that audio from the in-process
    cache, without a remote read or a generative call, whatever the
    services would answer and whatever the rest of the later text is. *)
Theorem generateNewsAudio_memoizes
    (sv1 sv2 : Services) (st : Session) (text text' : list Utf16.CodeUnit)
    (audio : string) :
  (generateNewsAudio sv1 st text).1.1 = AudioData audio ->
  keySource text' = keySource text ->
  generateNewsAudio sv2 (generateNewsAudio sv1 st text).1.2 text' =
    (AudioData audio, (generateNewsAudio sv1 st text).1.2, []).
Proof.
  intros Hres Hsource.
  destruct (generateNewsAudio_session sv1 st text)
    as [(key & cached & Hkey & Hmem & Hr) | [(key & a & Hkey & Hmem & Hr) |
        (result & Hno & Hr)]];
    rewrite Hr in *; cbn [fst snd] in *.
  - injection Hres as ->. apply (generateNewsAudio_hit _ _ _ key); [| exact Hmem].
    apply (audioCacheKey_inj text text' key Hkey). symmetry. exact Hsource.
  - injection Hres as ->. apply (generateNewsAudio_hit _ _ _ key).
    + apply (audioCacheKey_inj text text' key Hkey). symmetry. exact Hsource.
    + rewrite setAudio_lookup, decide_True by reflexivity. reflexivity.
  - exfalso. by apply (Hno audio).
Qed.

Lemma slice0_nonempty n (s : list Utf16.CodeUnit) :
  s <> [] -> Utf16.slice0 (S n) s <> [].
Proof. destruct s; [congruence | discriminate]. Qed.

(** X22. The narration request is bounded: a call asks the generative
    service at most once, only after the key was computed and missed in
    the in-process cache (and in the remote table), always with the
    speech model, and with one text part that is the cleaned input cut
    to 4000 code units: never empty, never longer. *)
Theorem generateNewsAudio_request
    (sv : Services) (st : Session) (text : list Utf16.CodeUnit) :
  let tr := (generateNewsAudio sv st text).2 in
  (generations tr <= 1)%nat /\
  (forall model contents, GenerateContent model contents ∈ tr ->
     model = "gemini-2.5-flash-preview-tts" /\
     contents = Parts (speechText text) /\
     speechText text = take 4000 (cleanText text) /\
     speechText text <> [] /\ (length (speechText text) <= 4000)%nat /\
     exists key,
       audioCacheKey text = CacheKey key /\
       audioMemoryCache st !! key = None /\
       (isSupabaseConfigured sv = true -> remoteHit (ai_audio_cache sv key) = None)).
Proof.
  cbv zeta.
  assert (Hsyn : forall speech,
    (generations (synthesize sv speech).2 <= 1)%nat /\
    forall model contents, GenerateContent model contents ∈ (synthesize sv speech).2 ->
      model = "gemini-2.5-flash-preview-tts" /\ contents = Parts speech).
  { intros speech. unfold synthesize. destruct (getAI sv).
    - assert (Hcall :
        (generations [GenerateContent "gemini-2.5-flash-preview-tts" (Parts speech)] <= 1)%nat /\
        forall model contents,
          GenerateContent model contents ∈
            [GenerateContent "gemini-2.5-flash-preview-tts" (Parts speech)] ->
          model = "gemini-2.5-flash-preview-tts" /\ contents = Parts speech).
      { split; [unfold generations; simpl; lia |].
        intros m x Hin. apply list_elem_of_singleton in Hin. injection Hin as -> ->.
        split; reflexivity. }
      destruct (generateAudio sv speech) as [| [data |]]; try exact Hcall.
      destruct (JS.truthy data); exact Hcall.
    - split; [unfold generations; simpl; lia |]. intros m x Hin. inversion Hin. }
  destruct (audioCacheKey_cases text) as [(key & Hkey & _) | [Hkey _]].
  2:{ rewrite (generateNewsAudio_key_error _ _ _ Hkey). cbn [snd].
      split; [unfold generations; simpl; lia |]. intros m x Hin. inversion Hin. }
  destruct (audioMemoryCache st !! key) as [cached |] eqn:Hmem.
  { rewrite (generateNewsAudio_hit sv st text key cached Hkey Hmem). cbn [snd].
    split; [unfold generations; simpl; lia |]. intros m x Hin. inversion Hin. }
  rewrite (generateNewsAudio_miss _ _ _ key) by assumption.
  pose proof (audioLookup_no_generation (isSupabaseConfigured sv) key) as Hlook.
  assert (Hlookup : forall m x,
    GenerateContent m x ∈ audioLookup (isSupabaseConfigured sv) key -> False).
  { intros m x. unfold audioLookup. destruct (isSupabaseConfigured sv); intros Hin;
      [apply list_elem_of_singleton in Hin; discriminate | inversion Hin]. }
  destruct (if isSupabaseConfigured sv then _ else None) as [audio |] eqn:Hremote;
    cbn [fst snd].
  { split; [lia |]. intros m x Hin. exfalso. eapply Hlookup, Hin. }
  destruct (Utf16.truthy (cleanText text)) eqn:Hclean; cbn [negb fst snd].
  2:{ split; [lia |]. intros m x Hin. exfalso. eapply Hlookup, Hin. }
  destruct (Hsyn (speechText text)) as [Hone Hcall].
  assert (Hspeech : speechText text <> [] /\ (length (speechText text) <= 4000)%nat).
  { unfold speechText. split.
    - apply slice0_nonempty. intros Hempty. rewrite Hempty in Hclean. discriminate.
    - unfold Utf16.slice0. rewrite length_take. lia. }
  assert (Hmiss : isSupabaseConfigured sv = true ->
                  remoteHit (ai_audio_cache sv key) = None).
  { intros Hconf. rewrite Hconf in Hremote. exact Hremote. }
  assert (Hin_syn : forall m x,
    GenerateContent m x ∈ (synthesize sv (speechText text)).2 ->
    m = "gemini-2.5-flash-preview-tts" /\ x = Parts (speechText text) /\
    speechText text = take 4000 (cleanText text) /\
    speechText text <> [] /\ (length (speechText text) <= 4000)%nat /\
    exists key,
      audioCacheKey text = CacheKey key /\
      audioMemoryCache st !! key = None /\
      (isSupabaseConfigured sv = true -> remoteHit (ai_audio_cache sv key) = None)).
  { intros m x Hin. destruct (Hcall m x Hin) as [-> ->].
    destruct Hspeech. repeat split; try assumption. by exists key. }
  destruct (synthesize sv (speechText text)).1 as [audio |]; cbn [fst snd].
  - split.
    + rewrite !generations_app, Hlook.
      destruct (isSupabaseConfigured sv); unfold generations at 2; simpl; lia.
    + intros m x Hin. rewrite !elem_of_app in Hin. destruct Hin as [Hin | [Hin | Hin]].
      * exfalso. eapply Hlookup, Hin.
      * apply Hin_syn, Hin.
      * exfalso. destruct (isSupabaseConfigured sv);
          [apply list_elem_of_singleton in Hin; discriminate | inversion Hin].
  - split; [rewrite generations_app, Hlook; lia |].
    intros m x Hin. apply elem_of_app in Hin as [Hin | Hin].
    + exfalso. eapply Hlookup, Hin.
    + apply Hin_syn, Hin.
Qed.

End AudioCaches.

(** ** Text cleaning *)

Section TextCleaning.
Import Gemini.

Lemma spaced_fixed s : forall r, CleanSpec.spaced r s -> collapseSpaces r s = s.
Proof.
  induction s as [| c s IH]; intros r Hs; simpl in *; [reflexivity |].
  destruct (Utf16.isWhiteSpace c).
  - destruct Hs as (-> & -> & Hs). rewrite (IH true Hs). reflexivity.
  - rewrite (IH false Hs). reflexivity.
Qed.

Lemma space_isWhiteSpace : Utf16.isWhiteSpace space = true.
Proof. reflexivity. Qed.

Lemma collapseSpaces_spaced s : forall r, CleanSpec.spaced r (collapseSpaces r s).
Proof.
  induction s as [| c s IH]; intros r; simpl; [exact I |].
  destruct (Utf16.isWhiteSpace c) eqn:Hc.
  - destruct r; [apply IH |]. cbn [CleanSpec.spaced]. rewrite space_isWhiteSpace.
    split; [reflexivity |]. split; [reflexivity | apply IH].
  - simpl. rewrite Hc. apply IH.
Qed.

Lemma spaced_trimStart s : forall r,
  CleanSpec.spaced r s -> CleanSpec.spaced true (Utf16.trimStart s).
Proof.
  induction s as [| c s IH]; intros r Hs; simpl in *; [exact I |].
  destruct (Utf16.isWhiteSpace c) eqn:Hc.
  - destruct Hs as (_ & _ & Hs). apply (IH true Hs).
  - simpl. rewrite Hc. exact Hs.
Qed.

Lemma spaced_weaken s : CleanSpec.spaced true s -> CleanSpec.spaced false s.
Proof.
  destruct s as [| c s]; simpl; [trivial |].
  destruct (Utf16.isWhiteSpace c); [intros (H & _); discriminate H | trivial].
Qed.

Lemma spaced_trimEnd s : forall r,
  CleanSpec.spaced r s -> CleanSpec.spaced r (Utf16.trimEnd s).
Proof.
  induction s as [| c s IH]; intros r Hs; simpl in *; [exact I |].
  destruct (Utf16.isWhiteSpace c) eqn:Hc.
  - destruct Hs as (Hr & Hsp & Hs). specialize (IH true Hs).
    destruct (Utf16.trimEnd s) as [| d t]; [exact I |].
    cbn [CleanSpec.spaced]. rewrite Hc. repeat split; assumption.
  - specialize (IH false Hs).
    destruct (Utf16.trimEnd s) as [| d t]; cbn [CleanSpec.spaced]; rewrite Hc;
      [exact I | exact IH].
Qed.

Lemma spaced_chars s : forall r,
  CleanSpec.spaced r s ->
  Forall (fun u => Utf16.isWhiteSpace u = true -> u = space) s.
Proof.
  induction s as [| c s IH]; intros r Hs; simpl in *; [constructor |].
  destruct (Utf16.isWhiteSpace c) eqn:Hc.
  - destruct Hs as (_ & -> & Hs). constructor; [reflexivity | apply (IH true Hs)].
  - constructor; [congruence | apply (IH false Hs)].
Qed.

Lemma trimEnd_cons c s :
  Utf16.trimEnd (c :: s) =
  match Utf16.trimEnd s with
  | [] => if Utf16.isWhiteSpace c then [] else [c]
  | r => c :: r
  end.
Proof. reflexivity. Qed.

Lemma trimEnd_idempotent s : Utf16.trimEnd (Utf16.trimEnd s) = Utf16.trimEnd s.
Proof.
  induction s as [| c s IH]; [reflexivity |].
  rewrite (trimEnd_cons c s).
  destruct (Utf16.trimEnd s) as [| d t] eqn:Hr.
  - destruct (Utf16.isWhiteSpace c) eqn:Hc; [reflexivity |].
    rewrite trimEnd_cons. simpl. rewrite Hc. reflexivity.
  - rewrite trimEnd_cons, IH. reflexivity.
Qed.

Lemma trimStart_started s :
  match s with
  | c :: _ => Utf16.isWhiteSpace c = false
  | [] => True
  end -> Utf16.trimStart s = s.
Proof. destruct s as [| c s]; simpl; [reflexivity | intros ->; reflexivity]. Qed.

Lemma trimStart_head s :
  match Utf16.trimStart s with
  | c :: _ => Utf16.isWhiteSpace c = false
  | [] => True
  end.
Proof.
  induction s as [| c s IH]; simpl; [exact I |].
  destruct (Utf16.isWhiteSpace c) eqn:Hc; [exact IH | exact Hc].
Qed.

Lemma trimEnd_head s :
  match s with c :: _ => Utf16.isWhiteSpace c = false | [] => True end ->
  match Utf16.trimEnd s with c :: _ => Utf16.isWhiteSpace c = false | [] => True end.
Proof.
  destruct s as [| c s]; simpl; [trivial |]. intros Hc.
  destruct (Utf16.trimEnd s); [rewrite Hc |]; exact Hc.
Qed.

Lemma trim_idempotent s : Utf16.trim (Utf16.trim s) = Utf16.trim s.
Proof.
  unfold Utf16.trim.
  rewrite (trimStart_started (Utf16.trimEnd (Utf16.trimStart s))
             (trimEnd_head _ (trimStart_head s))).
  apply trimEnd_idempotent.
Qed.

(** The four steps only remove code units or turn them into spaces. *)
Lemma trimStart_chars (P : Utf16.CodeUnit -> Prop) s :
  Forall P s -> Forall P (Utf16.trimStart s).
Proof.
  induction s as [| c s IH]; simpl; [trivial |]. intros Hs.
  destruct (Utf16.isWhiteSpace c); [apply IH; inversion Hs; assumption | exact Hs].
Qed.

Lemma trimEnd_chars (P : Utf16.CodeUnit -> Prop) s :
  Forall P s -> Forall P (Utf16.trimEnd s).
Proof.
  induction s as [| c s IH]; simpl; [trivial |]. intros Hs.
  apply Forall_cons in Hs as [Hc Hs]. specialize (IH Hs).
  destruct (Utf16.trimEnd s) as [| d t].
  - destruct (Utf16.isWhiteSpace c); repeat constructor. exact Hc.
  - constructor; assumption.
Qed.

Lemma collapseSpaces_chars (P : Utf16.CodeUnit -> Prop) s : forall r,
  P space -> Forall P s -> Forall P (collapseSpaces r s).
Proof.
  induction s as [| c s IH]; intros r Hsp Hs; simpl; [constructor |].
  apply Forall_cons in Hs as [Hc Hs].
  destruct (Utf16.isWhiteSpace c); [destruct r |];
    try constructor; try assumption; apply IH; assumption.
Qed.

Lemma removeMarkdown_chars s :
  Forall (fun u => isMarkdown u = false) (removeMarkdown s).
Proof.
  unfold removeMarkdown.
  apply Forall_forall. intros u Hin. apply list_elem_of_In, filter_In in Hin as [_ Hin].
  destruct (isMarkdown u); [discriminate | reflexivity].
Qed.

Lemma removeMarkdown_fixed s :
  Forall (fun u => isMarkdown u = false) s -> removeMarkdown s = s.
Proof.
  unfold removeMarkdown. intros Hs.
  induction Hs as [| u l Hu _ IH]; simpl; [reflexivity |].
  rewrite Hu. simpl. rewrite IH. reflexivity.
Qed.

(** X23. The cleaned text is in normal form for three of the four
    cleaning steps: cleaning markup, spacing or the ends again changes
    nothing, it holds no markup character, and its only white space is
    single plain spaces between other characters. (It may still hold a
    URL: removing markup can put one together.) *)
Theorem cleanText_normal_form (text : list Utf16.CodeUnit) :
  removeMarkdown (cleanText text) = cleanText text /\
  collapseSpaces false (cleanText text) = cleanText text /\
  Utf16.trim (cleanText text) = cleanText text /\
  Forall (fun u => isMarkdown u = false /\ (Utf16.isWhiteSpace u = true -> u = space))
    (cleanText text) /\
  CleanSpec.spaced true (cleanText text).
Proof.
  assert (Hmd : Forall (fun u => isMarkdown u = false) (cleanText text)).
  { unfold cleanText, Utf16.trim. apply trimEnd_chars, trimStart_chars.
    apply collapseSpaces_chars; [reflexivity | apply removeMarkdown_chars]. }
  assert (Hsp : CleanSpec.spaced true (cleanText text)).
  { unfold cleanText, Utf16.trim.
    apply spaced_trimEnd, (spaced_trimStart _ false), collapseSpaces_spaced. }
  split; [apply removeMarkdown_fixed, Hmd |].
  split; [apply spaced_fixed, spaced_weaken, Hsp |].
  split; [apply trim_idempotent |]. split; [| exact Hsp].
  pose proof (spaced_chars _ _ Hsp) as Hws.
  rewrite Forall_forall in Hmd, Hws. apply Forall_forall.
  intros u Hin. split; [apply Hmd, Hin | apply Hws, Hin].
Qed.

(** Removing markup after the URLs can put a URL together. *)
Example cleanText_keeps_assembled_url :
  cleanText (Utf16.ofString "see ht*tp://example.org now") =
  Utf16.ofString "see http://example.org now".
Proof. vm_compute. reflexivity. Qed.

(** A text without surrogates always has a key; every text of code
    units below 256 is one. *)
Lemma wellFormed_plain s :
  Forall (fun u => Utf16.isHighSurrogate u = false /\ Utf16.isLowSurrogate u = false) s ->
  KeySpec.wellFormed s.
Proof. induction 1 as [| u s [Hh Hl] _ IH]; [constructor | by constructor]. Qed.

Lemma ofString_plain s :
  Forall (fun u => Utf16.isHighSurrogate u = false /\ Utf16.isLowSurrogate u = false)
    (Utf16.ofString s).
Proof.
  unfold Utf16.ofString. apply List.Forall_map, List.Forall_forall. intros ch _.
  pose proof (charCode_range ch) as Hch.
  unfold Utf16.isHighSurrogate, Utf16.isLowSurrogate, Utf16.code, Utf16.latin1.
  cbn [Utf16.high Utf16.low]. change (JS.charCode Ascii.zero) with 0.
  split; apply andb_false_intro1, Z.leb_gt; lia.
Qed.

Lemma audioCacheKey_plain text :
  Forall (fun u => Utf16.isHighSurrogate u = false /\ Utf16.isLowSurrogate u = false) text ->
  exists key, audioCacheKey text = CacheKey key.
Proof.
  intros Hplain.
  destruct (audioCacheKey_cases text) as [(key & Hkey & _) | [_ Hwf]]; [by exists key |].
  exfalso. apply Hwf, wellFormed_plain. unfold keySource. apply Forall_app. split.
  - unfold Utf16.slice0, Utf16.trim. apply Forall_take, trimEnd_chars, trimStart_chars, Hplain.
  - apply ofString_plain.
Qed.

Lemma audioCacheKey_latin1 (s : string) :
  exists key, audioCacheKey (Utf16.ofString s) = CacheKey key.
Proof. apply audioCacheKey_plain, ofString_plain. Qed.

End TextCleaning.

(** ** Merging the feeds of a category *)

Section FeedMerge.

Variable env : Env.
Variable c : Category.

Lemma liveFetch_app l1 l2 :
  fst (liveFetch env c (l1 ++ l2)) = fst (liveFetch env c l1) ++ fst (liveFetch env c l2).
Proof. unfold liveFetch. cbn [fst]. rewrite !map_app, concat_app. reflexivity. Qed.

Lemma liveFetch_cons u l :
  fst (liveFetch env c (u :: l)) = fst (fetchFeed env c u) ++ fst (liveFetch env c l).
Proof. reflexivity. Qed.

Lemma liveFetch_origin l : forall a,
  a ∈ fst (liveFetch env c l) -> exists u, u ∈ l /\ a ∈ fst (fetchFeed env c u).
Proof.
  induction l as [| u l IH]; intros a Ha.
  - inversion Ha.
  - rewrite liveFetch_cons in Ha. apply elem_of_app in Ha as [Ha | Ha].
    + exists u. split; [constructor | exact Ha].
    + destruct (IH a Ha) as (u' & Hu' & Ha'). exists u'. split; [constructor; exact Hu' | exact Ha'].
Qed.

Lemma fetchFeed_category u a : a ∈ fst (fetchFeed env c u) -> category a = c.
Proof.
  intros Ha. destruct (fetchFeed_from_items env c u) as [Hnil | (hostname & its & _ & Hmap)].
  - rewrite Hnil in Ha. inversion Ha.
  - rewrite Hmap in Ha. apply list_elem_of_In, in_map_iff in Ha as (it & <- & _). reflexivity.
Qed.

(** X24. Feeds are merged in list order, earlier feeds first: the batch
    of a list of feeds starts with the batch of any prefix of the list,
    followed by articles of the remaining feeds, so adding a feed at the
    end never removes or moves an article; a feed that yields nothing
    (all its relays failing) changes nothing, wherever it is listed; and
    every article of the batch comes from one of the feeds listed and
    carries the category requested. *)
Theorem liveFetch_merge (before after : list string) (dead : string) :
  (exists more,
     uniqueArticles (fst (liveFetch env c (before ++ after))) =
       uniqueArticles (fst (liveFetch env c before)) ++ more /\
     sublist more (fst (liveFetch env c after))) /\
  (fst (fetchFeed env c dead) = [] ->
   fst (liveFetch env c (before ++ dead :: after)) = fst (liveFetch env c (before ++ after))) /\
  (forall a, a ∈ uniqueArticles (fst (liveFetch env c before)) ->
     category a = c /\ exists u, u ∈ before /\ a ∈ fst (fetchFeed env c u)).
Proof.
  split; [| split].
  - rewrite liveFetch_app. unfold uniqueArticles. rewrite filterUnseen_app.
    eexists. split; [reflexivity | apply filterUnseen_sublist].
  - intros Hdead. rewrite !liveFetch_app, liveFetch_cons, Hdead. reflexivity.
  - intros a Ha.
    assert (Hin : a ∈ fst (liveFetch env c before))
      by (eapply elem_of_sublist; [exact Ha | apply filterUnseen_sublist]).
    destruct (liveFetch_origin _ _ Hin) as (u & Hu & Hfrom).
    split; [exact (fetchFeed_category _ _ Hfrom) | exists u; split; assumption].
Qed.

End FeedMerge.

(** ** The gallery writer and the voice tag *)

Section GalleryWriter.
Import Gallery.

(** X25. [addGalleryPost] guards before it writes: without a configured
    backend it throws its own message and makes no request; otherwise it
    makes exactly one insert into [gallery_posts], carrying the three
    fields of the post; it returns (the rows selected back, possibly
    none) exactly when the insert resolves without an error, throws the
    table's error object exactly when one is returned, and lets a
    rejected insert through. *)
Theorem addGalleryPost_outcomes
    (configured : bool) (insert : NewPost -> Query (list Post)) (post : NewPost) :
  let result := addGalleryPost configured insert post in
  (configured = false <-> result.1 = ThrownMessage "Database not connected") /\
  (configured = false <-> result.2 = []) /\
  (configured = true <->
   result.2 = [Insert "gallery_posts" (new_title post) (new_description post)
                 (new_media_url post)]) /\
  (forall data,
     result.1 = Returned data <-> configured = true /\ insert post = Resolved data None) /\
  (forall error,
     result.1 = ThrownError error <->
     configured = true /\ exists data, insert post = Resolved data (Some error)) /\
  (result.1 = ThrownRejection <-> configured = true /\ insert post = Rejected).
Proof.
  unfold addGalleryPost. cbv zeta.
  destruct configured; cbn [negb fst snd];
    [destruct (insert post) as [| data [error |]]; cbn [fst snd] |];
    naive_solver.
Qed.

(** A reader keeps the list while the writer throws: on a backend that
    is not configured [fetchGalleryPosts] answers with the empty
    sequence and [addGalleryPost] with an exception. *)
Lemma gallery_unconfigured (env : Env) insert post :
  isSupabaseConfigured env = false ->
  fst (fetchGalleryPosts env) = [] /\
  fst (addGalleryPost (isSupabaseConfigured env) insert post) =
    ThrownMessage "Database not connected".
Proof. intros H. unfold fetchGalleryPosts, addGalleryPost. rewrite H. split; reflexivity. Qed.

End GalleryWriter.

(** The voice tag falls back to Indian English for every tab that is not
    one of the three translated ones, whatever its letter case. *)
Lemma getDeviceVoiceLang_default (tab : string) :
  tab <> "urdu" -> tab <> "hindi" -> tab <> "telugu" -> getDeviceVoiceLang tab = "en-IN".
Proof.
  intros H1 H2 H3. unfold getDeviceVoiceLang.
  repeat (destruct (decide _) as [? |]; [congruence |]). reflexivity.
Qed.

(** * Examples

    The properties above that have a precondition, applied to the
    environments of [Scenario] and [Cases]. *)

Lemma normalizedTitle_normal_form_witness :
  normalizedTitle " !?" = EmptyString /\
  normalizedTitle ("Storm" +:+ " !?") = normalizedTitle "Storm".
Proof.
  assert (Hpunct : normalizedTitle " !?" = EmptyString) by (vm_compute; reflexivity).
  split; [exact Hpunct |].
  destruct (normalizedTitle_normal_form "Storm" " !?") as (_ & _ & _ & Hdrop).
  exact (Hdrop Hpunct).
Defined.

Lemma uniqueArticles_covers_idempotent_witness :
  Scenario.stormEcho ∈ [Scenario.stormArticle; Scenario.stormEcho] /\
  exists b, b ∈ uniqueArticles [Scenario.stormArticle; Scenario.stormEcho] /\
    normalizedTitle (title b) = normalizedTitle (title Scenario.stormEcho).
Proof.
  assert (Hin : Scenario.stormEcho ∈ [Scenario.stormArticle; Scenario.stormEcho])
    by (do 2 constructor).
  split; [exact Hin |].
  destruct (uniqueArticles_covers_idempotent [Scenario.stormArticle; Scenario.stormEcho])
    as (Hcovers & _).
  exact (Hcovers _ Hin).
Defined.

Lemma fetchFeed_requests_witness :
  fst (fetchFeed Scenario.liveFeed (Feed "world") Scenario.feedUrl) <> [] /\
  exists k p its,
    (1 <= k <= 4)%nat /\
    snd (fetchFeed Scenario.liveFeed (Feed "world") Scenario.feedUrl) =
      map FanoutSpec.request (take k (proxies Scenario.feedUrl)) /\
    proxies Scenario.feedUrl !! (k - 1)%nat = Some p /\
    FanoutSpec.yields Scenario.liveFeed p its.
Proof.
  assert (Hlive : fst (fetchFeed Scenario.liveFeed (Feed "world") Scenario.feedUrl) =
                  [Scenario.stormArticle]) by (vm_compute; reflexivity).
  assert (Hsome : fst (fetchFeed Scenario.liveFeed (Feed "world") Scenario.feedUrl) <> [])
    by (rewrite Hlive; discriminate).
  split; [exact Hsome |].
  destruct (fetchFeed_requests Scenario.liveFeed (Feed "world") Scenario.feedUrl)
    as (k & Hk & Htrace & _ & Hlast).
  destruct (Hlast Hsome) as (p & its & Hp & Hyields & _).
  exists k, p, its. repeat split; try assumption; apply Hk.
Defined.

Lemma fetchFeed_invalid_url_witness :
  URL_hostname Cases.badAddress Cases.relativeUrl = None /\
  fetchFeed Cases.badAddress (Feed "world") Cases.relativeUrl =
    ([], map FanoutSpec.request (proxies Cases.relativeUrl)).
Proof.
  split; [reflexivity |].
  exact (fetchFeed_invalid_url Cases.badAddress (Feed "world") Cases.relativeUrl eq_refl).
Defined.

Lemma fetchFeed_articles_witness :
  Scenario.stormArticle ∈ fst (fetchFeed Scenario.liveFeed (Feed "world") Scenario.feedUrl) /\
  id Scenario.stormArticle = generateId (url Scenario.stormArticle) /\
  source Scenario.stormArticle = sourceName "feeds.example.org".
Proof.
  assert (Hlive : fst (fetchFeed Scenario.liveFeed (Feed "world") Scenario.feedUrl) =
                  [Scenario.stormArticle]) by (vm_compute; reflexivity).
  assert (Hin : Scenario.stormArticle ∈
                fst (fetchFeed Scenario.liveFeed (Feed "world") Scenario.feedUrl))
    by (rewrite Hlive; constructor).
  split; [exact Hin |].
  destruct (fetchFeed_articles Scenario.liveFeed (Feed "world") Scenario.feedUrl
              Scenario.stormArticle Hin) as (_ & (hostname & Hhost & Hsource) & Hid & _).
  split; [exact Hid |].
  injection Hhost as <-. exact Hsource.
Defined.

Lemma relay_url_determines_feed_witness :
  exists p,
    proxies Scenario.feedUrl !! 1%nat = Some p /\
    proxy_url p =
      "https://api.codetabs.com/v1/proxy?quest=https%3A%2F%2Ffeeds.example.org%2Frss" /\
    Scenario.feedUrl = "https://feeds.example.org/rss".
Proof.
  eexists. split; [reflexivity |]. split; [reflexivity |].
  exact (relay_url_determines_feed Scenario.feedUrl "https://feeds.example.org/rss" 1 _ _
           eq_refl eq_refl eq_refl).
Defined.

Lemma special_category_isolated_witness :
  (AZAD_STUDIO = AZAD_STUDIO \/ AZAD_STUDIO = GALLERY) /\
  snd (fetchNewsForCategory Cases.studio AZAD_STUDIO) =
    [EvSelect "telegram_posts" EmptyString] /\
  exists articles,
    fst (fetchNewsForCategory Cases.studio AZAD_STUDIO) = Returns (Batch articles) /\
    Forall (fun a => category a = AZAD_STUDIO /\ url a = "#") articles.
Proof.
  split; [left; reflexivity |].
  destruct (special_category_isolated Cases.studio AZAD_STUDIO (or_introl eq_refl))
    as (Htrace & _ & Hall).
  split; [exact Htrace | exact Hall].
Defined.

Lemma special_category_rows_witness :
  isSupabaseConfigured Cases.studio = true /\
  telegram_posts Cases.studio = Resolved (Some [Cases.studioPost]) None /\
  exists articles,
    fst (fetchNewsForCategory Cases.studio AZAD_STUDIO) = Returns (Batch articles) /\
    map id articles = ["tg_7"].
Proof.
  split; [reflexivity |]. split; [reflexivity |].
  destruct (special_category_rows Cases.studio eq_refl) as (Hrows & _).
  exact (Hrows [Cases.studioPost] eq_refl).
Defined.

Lemma telegramArticle_title_witness :
  JS.firstSegment "010" (JS.orDefault (post_message Cases.studioPost) EmptyString) =
    "Studio opens" /\
  title (telegramArticle Cases.studio Cases.studioPost) = "Studio opens".
Proof.
  assert (Hline :
    JS.firstSegment "010" (JS.orDefault (post_message Cases.studioPost) EmptyString) =
      "Studio opens") by (vm_compute; reflexivity).
  split; [exact Hline |].
  destruct (telegramArticle_title Cases.studio Cases.studioPost) as (_ & _ & _ & Hshort).
  apply (Hshort _ Hline); [discriminate |].
  change (12 <= 60)%nat. lia.
Defined.

Lemma fetchNewsForCategory_writes_witness :
  let e := EvSetItem (cacheKey Scenario.liveFeed (Feed "world"))
             (Date_now Scenario.liveFeed AtLocalWrite) [Scenario.stormArticle] in
  e ∈ snd (fetchNewsForCategory Scenario.liveFeed (Feed "world")) /\
  Store.isWrite e = true /\
  fst (fetchNewsForCategory Scenario.liveFeed (Feed "world")) =
    Returns (Batch (CacheSpec.liveBatch Scenario.liveFeed (Feed "world") [Scenario.feedUrl])).
Proof.
  cbv zeta.
  assert (Hin :
    EvSetItem (cacheKey Scenario.liveFeed (Feed "world"))
      (Date_now Scenario.liveFeed AtLocalWrite) [Scenario.stormArticle]
    ∈ snd (fetchNewsForCategory Scenario.liveFeed (Feed "world")))
    by (vm_compute; repeat constructor).
  split; [exact Hin |]. split; [reflexivity |].
  destruct (fetchNewsForCategory_writes Scenario.liveFeed (Feed "world") _ Hin eq_refl)
    as (_ & _ & feedUrls & Hfeeds & _ & _ & _ & Hreturned).
  injection Hfeeds as <-.
  exact (Hreturned eq_refl).
Defined.

(** A refused local write with a stale local batch, and with a stale
    local entry that has no batch. *)
Lemma fetchNewsForCategory_write_failure_witness :
  Feed "world" <> AZAD_STUDIO /\ Feed "world" <> GALLERY /\
  (RSS_FEEDS Cases.fullStore (Feed "world") = Some [Scenario.feedUrl] /\
   CacheSpec.liveBatch Cases.fullStore (Feed "world") [Scenario.feedUrl] =
     [Scenario.stormArticle] /\
   localStorage_setItem Cases.fullStore (cacheKey Cases.fullStore (Feed "world")) = false /\
   fst (fetchNewsForCategory Cases.fullStore (Feed "world")) =
     Returns (Batch [Scenario.cached])) /\
  (RSS_FEEDS Cases.fullStoreWithoutArticles (Feed "world") = Some [Scenario.feedUrl] /\
   CacheSpec.liveBatch Cases.fullStoreWithoutArticles (Feed "world") [Scenario.feedUrl] =
     [Scenario.stormArticle] /\
   localStorage_setItem Cases.fullStoreWithoutArticles
     (cacheKey Cases.fullStoreWithoutArticles (Feed "world")) = false /\
   fst (fetchNewsForCategory Cases.fullStoreWithoutArticles (Feed "world")) =
     ThrowsTypeError).
Proof.
  assert (Hbatch :
    CacheSpec.liveBatch Cases.fullStore (Feed "world") [Scenario.feedUrl] =
      [Scenario.stormArticle]) by (vm_compute; reflexivity).
  assert (Hremote : probeSupabase Cases.fullStore (Feed "world") = (Stale [], []))
    by (vm_compute; reflexivity).
  assert (Hlocal :
    probeLocal Cases.fullStore (Feed "world") =
      (Stale (Batch [Scenario.cached]), [EvGetItem "news_pulse_cache_world"]))
    by (vm_compute; reflexivity).
  assert (Hbatch' :
    CacheSpec.liveBatch Cases.fullStoreWithoutArticles (Feed "world") [Scenario.feedUrl] =
      [Scenario.stormArticle]) by (vm_compute; reflexivity).
  assert (Hremote' :
    probeSupabase Cases.fullStoreWithoutArticles (Feed "world") = (Stale [], []))
    by (vm_compute; reflexivity).
  assert (Hlocal' :
    probeLocal Cases.fullStoreWithoutArticles (Feed "world") =
      (Stale Nullish, [EvGetItem "news_pulse_cache_world"]))
    by (vm_compute; reflexivity).
  split; [discriminate |]. split; [discriminate |]. split.
  - split; [reflexivity |]. split; [exact Hbatch |]. split; [reflexivity |].
    destruct (fetchNewsForCategory_write_failure Cases.fullStore (Feed "world")
                [Scenario.feedUrl] [] (Batch [Scenario.cached]) [] _
                ltac:(discriminate) ltac:(discriminate) eq_refl Hremote Hlocal
                ltac:(rewrite Hbatch; discriminate) eq_refl) as (Hstale & _).
    exact Hstale.
  - split; [reflexivity |]. split; [exact Hbatch' |]. split; [reflexivity |].
    destruct (fetchNewsForCategory_write_failure Cases.fullStoreWithoutArticles
                (Feed "world") [Scenario.feedUrl] [] Nullish [] _
                ltac:(discriminate) ltac:(discriminate) eq_refl Hremote' Hlocal'
                ltac:(rewrite Hbatch'; discriminate) eq_refl) as (Hthrown & _).
    exact Hthrown.
Defined.


Lemma fetchNewsForCategory_second_call_witness :
  let first := fetchNewsForCategory Scenario.liveFeed (Feed "world") in
  first.1 = Returns (Batch [Scenario.stormArticle]) /\
  (fetchNewsForCategory
     (Store.atClock (Store.afterTrace false Scenario.liveFeed first.2) Cases.later)
     (Feed "world")).1 = Returns (Batch [Scenario.stormArticle]).
Proof.
  cbv zeta.
  assert (Hfirst : (fetchNewsForCategory Scenario.liveFeed (Feed "world")).1 =
                   Returns (Batch [Scenario.stormArticle])) by (vm_compute; reflexivity).
  assert (Hwrote :
    exists e, e ∈ (fetchNewsForCategory Scenario.liveFeed (Feed "world")).2 /\
              Store.isSetItem e = true).
  { exists (EvSetItem "news_pulse_cache_world" Scenario.now [Scenario.stormArticle]).
    split; [vm_compute; repeat constructor | reflexivity]. }
  split; [exact Hfirst |].
  destruct (fetchNewsForCategory_second_call Scenario.liveFeed (Feed "world") false
              Cases.later ltac:(discriminate) ltac:(discriminate) Hwrote eq_refl
              ltac:(vm_compute; reflexivity) ltac:(discriminate)
              ltac:(intros _; vm_compute; discriminate)) as (_ & Hsame & _).
  rewrite <- Hfirst. exact Hsame.
Defined.

Section EnrichmentExamples.
Import Gemini.

Lemma enhanceArticle_cache_write_once_witness :
  let result := enhanceArticle Scenario.writing emptySession "a1" "T" "D" in
  articleMemoryCache result.1.2 !! "a1" = Some Scenario.sampleContent /\
  Scenario.sampleContent = result.1.1.
Proof.
  cbv zeta.
  assert (Hstored :
    articleMemoryCache (enhanceArticle Scenario.writing emptySession "a1" "T" "D").1.2
      !! "a1" = Some Scenario.sampleContent) by (vm_compute; reflexivity).
  split; [exact Hstored |].
  destruct (enhanceArticle_cache_write_once Scenario.writing emptySession "a1" "T" "D")
    as (_ & _ & Hown & _).
  exact (Hown _ Hstored).
Defined.

Lemma enhanceArticle_upsert_witness :
  let result := enhanceArticle Cases.publishing emptySession "a1" "T" "D" in
  UpsertArticle "a1" Scenario.sampleContent ∈ result.2 /\
  (generateArticle Cases.publishing "T" "D").1 = Some Scenario.sampleContent /\
  articleMemoryCache result.1.2 !! "a1" = Some Scenario.sampleContent.
Proof.
  cbv zeta.
  assert (Hin :
    UpsertArticle "a1" Scenario.sampleContent
    ∈ (enhanceArticle Cases.publishing emptySession "a1" "T" "D").2)
    by (vm_compute; repeat constructor).
  split; [exact Hin |].
  destruct (enhanceArticle_upsert Cases.publishing emptySession "a1" "T" "D")
    as (_ & Hupsert & _).
  destruct (Hupsert _ _ Hin) as (_ & _ & _ & _ & _ & Hgenerated & Hstored).
  split; [exact Hgenerated | exact Hstored].
Defined.

Lemma generateNewsAudio_cache_write_once_witness :
  (generateNewsAudio Scenario.unreachable emptySession Scenario.headedText).1.1 =
    Throws "TTS generation failed." /\
  (generateNewsAudio Scenario.unreachable emptySession Scenario.headedText).1.2 =
    emptySession.
Proof.
  assert (Hthrows :
    (generateNewsAudio Scenario.unreachable emptySession Scenario.headedText).1.1 =
      Throws "TTS generation failed.") by (vm_compute; reflexivity).
  split; [exact Hthrows |].
  destruct (generateNewsAudio_cache_write_once Scenario.unreachable emptySession
              Scenario.headedText) as (_ & _ & _ & Hraise).
  apply Hraise. intros audio. rewrite Hthrows. discriminate.
Defined.

Lemma generateNewsAudio_memoizes_witness :
  let first := generateNewsAudio Scenario.narrating emptySession Scenario.headedText in
  first.1.1 = AudioData "UklGRg==" /\
  keySource Scenario.headedOther = keySource Scenario.headedText /\
  generateNewsAudio Scenario.unreachable first.1.2 Scenario.headedOther =
    (AudioData "UklGRg==", first.1.2, []).
Proof.
  cbv zeta.
  assert (Hfirst :
    (generateNewsAudio Scenario.narrating emptySession Scenario.headedText).1.1 =
      AudioData "UklGRg==") by (vm_compute; reflexivity).
  assert (Hkey : keySource Scenario.headedOther = keySource Scenario.headedText)
    by (vm_compute; reflexivity).
  split; [exact Hfirst |]. split; [exact Hkey |].
  exact (generateNewsAudio_memoizes Scenario.narrating Scenario.unreachable emptySession
           Scenario.headedText Scenario.headedOther "UklGRg==" Hfirst Hkey).
Defined.

Lemma generateNewsAudio_request_witness :
  let tr := (generateNewsAudio Scenario.narrating emptySession Scenario.headedText).2 in
  GenerateContent "gemini-2.5-flash-preview-tts" (Parts (Utf16.ofString "hi")) ∈ tr /\
  Parts (Utf16.ofString "hi") = Parts (speechText Scenario.headedText) /\
  exists key,
    audioCacheKey Scenario.headedText = CacheKey key /\
    audioMemoryCache emptySession !! key = None.
Proof.
  cbv zeta.
  assert (Hin :
    GenerateContent "gemini-2.5-flash-preview-tts" (Parts (Utf16.ofString "hi"))
    ∈ (generateNewsAudio Scenario.narrating emptySession Scenario.headedText).2)
    by (vm_compute; repeat constructor).
  split; [exact Hin |].
  destruct (generateNewsAudio_request Scenario.narrating emptySession Scenario.headedText)
    as (_ & Hrequest).
  destruct (Hrequest _ _ Hin) as (_ & Htext & _ & _ & _ & key & Hkey & Hmiss & _).
  split; [exact Htext |]. exists key. split; [exact Hkey | exact Hmiss].
Defined.

End EnrichmentExamples.

Lemma liveFetch_merge_witness :
  fst (fetchFeed Scenario.liveFeed (Feed "world") Cases.relativeUrl) = [] /\
  fst (liveFetch Scenario.liveFeed (Feed "world") [Cases.relativeUrl; Scenario.feedUrl]) =
  fst (liveFetch Scenario.liveFeed (Feed "world") [Scenario.feedUrl]).
Proof.
  assert (Hdead : fst (fetchFeed Scenario.liveFeed (Feed "world") Cases.relativeUrl) = [])
    by (vm_compute; reflexivity).
  split; [exact Hdead |].
  destruct (liveFetch_merge Scenario.liveFeed (Feed "world") [] [Scenario.feedUrl]
              Cases.relativeUrl) as (_ & Hskip & _).
  exact (Hskip Hdead).
Defined.
